(** * A shallow embedding of the SQL data-cleaning pipeline (main.py, app.py)

    The cleaning functions of [main.py] are one-line compositions of pandas
    and [re] calls.  The development models

    - text as lists of characters, with the character classes of Python's
      [re] and [str] restricted to code points below 128,
    - the backtracking matcher of [re] for the constructs the three patterns
      of the program use,
    - a DataFrame as an ordered list of named, typed columns,
    - exceptions with an error monad; [try]/[except] as a match on it.

    Numbers are exact rationals: floating-point rounding is not modelled.
    The pandas semantics are those of the 1.x/2.x series with object-dtype
    strings ([astype(str)] turns every value, missing ones too, into text).
    The index labels of a frame are not modelled: every column the code
    assigns is computed from the frame it is assigned to, so labels and
    positions agree.

    Part I holds the definitions, Part II the lemmas and the theorems on
    the ten properties C1 to C10 of the specification, Part III further
    properties of the code, X1 to X24: the text cleaner, the email
    validator, the inspector, the drop branch of app.py, imputation, the
    type conversion as a whole and the interplay of the functions. *)

From Stdlib Require Import List Ascii String Bool Arith ZArith QArith Lia.
From Stdlib Require Import DecimalString Sorted.
From Stdlib Require Import Reals Lra Qreals.
Import ListNotations.

Close Scope R_scope.
Close Scope Q_scope.
Open Scope string_scope.
Open Scope nat_scope.
Open Scope list_scope.


(* ================================================================== *)
(** * Part I: definitions *)

(* ------------------------------------------------------------------ *)
(** * Text and character classes *)

Definition text := list ascii.

(** String literals are written with Rocq's [string] notation. *)
Definition T (s : string) : text := list_ascii_of_string s.

Definition code (c : ascii) : nat := nat_of_ascii c.

Definition between (lo hi : nat) (c : ascii) : bool :=
  (lo <=? code c) && (code c <=? hi).

(** [\d] *)
Definition is_digit (c : ascii) : bool := between 48 57 c.
Definition is_upper (c : ascii) : bool := between 65 90 c.
Definition is_lower (c : ascii) : bool := between 97 122 c.
Definition is_underscore (c : ascii) : bool := code c =? 95.

(** [[a-zA-Z0-9_]], which is also [\w] on code points below 128. *)
Definition is_word (c : ascii) : bool :=
  is_lower c || is_upper c || is_digit c || is_underscore c.

(** [\s] and the characters [str.strip()] removes: tab, LF, VT, FF, CR,
    the separators 0x1c-0x1f and the blank. *)
Definition is_space (c : ascii) : bool :=
  between 9 13 c || between 28 31 c || (code c =? 32).

(** [str.lower()] on one character. *)
Definition lower_char (c : ascii) : ascii :=
  if is_upper c then ascii_of_nat (code c + 32) else c.

Definition lower (s : text) : text := map lower_char s.

Fixpoint lstrip (s : text) : text :=
  match s with
  | c :: s' => if is_space c then lstrip s' else s
  | [] => []
  end.

Definition rstrip (s : text) : text := rev (lstrip (rev s)).

(** [str.strip()] *)
Definition strip (s : text) : text := rstrip (lstrip s).

Definition char_eqb (a b : ascii) : bool := Ascii.eqb a b.

Fixpoint text_eqb (a b : text) : bool :=
  match a, b with
  | [], [] => true
  | x :: a', y :: b' => char_eqb x y && text_eqb a' b'
  | _, _ => false
  end.

(** [str(n)] for an integer. *)
Definition int_repr (z : Z) : text :=
  T (NilZero.string_of_int (Z.to_int z)).

(* ------------------------------------------------------------------ *)
(** * Regular expressions: the fragment of [re] the program uses *)

Inductive regex : Type :=
| Eps
| Lit (c : ascii)                      (* a literal character *)
| Cls (p : ascii -> bool)              (* a class: [..], \d, \s, \w *)
| Cat (r1 r2 : regex)
| Alt (r1 r2 : regex)                  (* r1|r2, r1 tried first *)
| Opt (r : regex)                      (* r?, greedy *)
| Rep (p : ascii -> bool) (lo : nat) (hi : option nat)
                                       (* class{lo,hi}; hi = None: no bound *)
| WordB                                (* \b *)
| Bol                                  (* ^ *)
| Eol.                                 (* $ *)

(** A compiled pattern: the [(?i)] flag and the expression. *)
Record pattern : Type := Pattern { ignorecase : bool; expr : regex }.

Fixpoint lit (s : text) : regex :=
  match s with
  | [] => Eps
  | [c] => Lit c
  | c :: s' => Cat (Lit c) (lit s')
  end.

Definition newline : ascii := ascii_of_nat 10.

Definition is_word_at (o : option ascii) : bool :=
  match o with Some c => is_word c | None => false end.

(** The matcher runs over the rest of the subject string and carries the
    character before the current position ([None] at the start), which [\b]
    and [^] look at.  It is written in continuation style: [k] is what has
    to match after [r], and a [None] from [k] makes the matcher try its next
    choice, which is the backtracking of [re]. *)
Section Matcher.
Variable icase : bool.
Variable A : Type.

Definition cont : Type := option ascii -> text -> option A.

Definition lit_eqb (c x : ascii) : bool :=
  if icase then char_eqb (lower_char c) (lower_char x) else char_eqb c x.

Definition or_else (o : option A) (alt : unit -> option A) : option A :=
  match o with Some a => Some a | None => alt tt end.

Fixpoint rep_exact (p : ascii -> bool) (n : nat)
         (prev : option ascii) (s : text) (k : cont) : option A :=
  match n with
  | O => k prev s
  | S n' =>
      match s with
      | c :: s' => if p c then rep_exact p n' (Some c) s' k else None
      | [] => None
      end
  end.

Definition bound_open (b : option nat) : bool :=
  match b with Some O => false | _ => true end.

Definition bound_pred (b : option nat) : option nat :=
  match b with Some n => Some (pred n) | None => None end.

Fixpoint rep_greedy (p : ascii -> bool) (b : option nat)
         (prev : option ascii) (s : text) (k : cont) : option A :=
  match s with
  | c :: s' =>
      if p c && bound_open b
      then or_else (rep_greedy p (bound_pred b) (Some c) s' k)
                   (fun _ => k prev s)
      else k prev s
  | [] => k prev s
  end.

Definition bound_sub (hi : option nat) (lo : nat) : option nat :=
  match hi with Some h => Some (h - lo) | None => None end.

Fixpoint rmatch (r : regex) (prev : option ascii) (s : text) (k : cont)
  : option A :=
  match r with
  | Eps => k prev s
  | Lit c =>
      match s with
      | x :: s' => if lit_eqb c x then k (Some x) s' else None
      | [] => None
      end
  | Cls p =>
      match s with
      | x :: s' => if p x then k (Some x) s' else None
      | [] => None
      end
  | Cat r1 r2 => rmatch r1 prev s (fun prev' s' => rmatch r2 prev' s' k)
  | Alt r1 r2 => or_else (rmatch r1 prev s k) (fun _ => rmatch r2 prev s k)
  | Opt r1 => or_else (rmatch r1 prev s k) (fun _ => k prev s)
  | Rep p lo hi =>
      rep_exact p lo prev s
        (fun prev' s' => rep_greedy p (bound_sub hi lo) prev' s' k)
  | WordB =>
      if xorb (is_word_at prev) (is_word_at (hd_error s))
      then k prev s else None
  | Bol => match prev with None => k prev s | Some _ => None end
  | Eol =>
      match s with
      | [] => k prev s
      | [c] => if char_eqb c newline then k prev s else None
      | _ => None
      end
  end.
End Matcher.

Arguments or_else {A} o alt.
Arguments rep_exact {A} p n prev s k.
Arguments rep_greedy {A} p b prev s k.
Arguments rmatch icase {A} r prev s k.

(** [re.fullmatch]: some way of matching has to use up the whole string. *)
Definition fullmatch (p : pattern) (s : text) : bool :=
  match rmatch (ignorecase p) (expr p) None s
          (fun _ rest => match rest with [] => Some tt | _ => None end) with
  | Some _ => true
  | None => false
  end.

(** The length of the match [re] finds at the current position. *)
Definition match_len (p : pattern) (prev : option ascii) (s : text)
  : option nat :=
  rmatch (ignorecase p) (expr p) prev s
    (fun _ rest => Some (List.length s - List.length rest)).

(** [re.sub(p, repl, s)] for a pattern whose matches are never empty, which
    holds for both patterns the program substitutes with.  The scan goes
    left to right; [skip] counts the characters of the current match that
    are still to be dropped.  A match of length zero is outside the domain
    and is treated as no match. *)
Fixpoint sub_scan (p : pattern) (repl : text)
         (prev : option ascii) (s : text) (skip : nat) : text :=
  match s with
  | [] => []
  | c :: s' =>
      match skip with
      | S n => sub_scan p repl (Some c) s' n
      | O =>
          match match_len p prev s with
          | Some (S n) => repl ++ sub_scan p repl (Some c) s' n
          | _ => c :: sub_scan p repl (Some c) s' 0
          end
      end
  end.

Definition re_sub (p : pattern) (repl : text) (s : text) : text :=
  sub_scan p repl None s 0.

(* ------------------------------------------------------------------ *)
(** * The three patterns of main.py *)

Definition char (s : string) : ascii :=
  match s with String c _ => c | EmptyString => zero end.

(** [[^a-zA-Z0-9_]] (standardize_column_names) *)
Definition non_identifier : pattern :=
  Pattern false (Cls (fun c => negb (is_word c))).

(** [(?i)\b(mr|mrs|dr|ms|shri)\.?\s*] (remove_extra_titles) *)
Definition title_pattern : pattern :=
  Pattern true
    (Cat WordB
       (Cat (Alt (lit (T "mr"))
               (Alt (lit (T "mrs"))
                  (Alt (lit (T "dr"))
                     (Alt (lit (T "ms")) (lit (T "shri"))))))
          (Cat (Opt (Lit (char ".")))
             (Rep is_space 0 None)))).

Definition is_6_to_9 (c : ascii) : bool := between 54 57 c.

Definition is_dash_or_space (c : ascii) : bool :=
  char_eqb c (char "-") || is_space c.

(** [^(\+91[-\s]?)?[6-9]\d{9}$] (validate_phone_numbers) *)
Definition phone_pattern : pattern :=
  Pattern false
    (Cat Bol
       (Cat (Opt (Cat (lit (T "+91")) (Rep is_dash_or_space 0 (Some 1))))
          (Cat (Cls is_6_to_9)
             (Cat (Rep is_digit 9 (Some 9)) Eol)))).

(** The per-name and per-cell functions. *)

(** [re.sub(r"[^a-zA-Z0-9_]", "_", col.strip().lower())] *)
Definition standardize_name (col : text) : text :=
  re_sub non_identifier (T "_") (lower (strip col)).

(** [re.sub(title_pattern, repl, s)] with the empty replacement, what
    [.str.replace(..)] does to each cell. *)
Definition strip_titles (s : text) : text := re_sub title_pattern [] s.

Definition phone_matches (s : text) : bool := fullmatch phone_pattern s.

(* ------------------------------------------------------------------ *)
(** * Cells, columns and frames *)

(** The missing markers of pandas: the float NaN, Python's None, the
    missing datetime and the missing value of the nullable dtypes. *)
Inductive NAKind : Type := NaN | PyNone | NaT | NA.

Inductive Cell : Type :=
| CInt (z : Z)
| CFloat (q : Q)
| CText (s : text)
| CBool (b : bool)
| CDatetime (t : Z)            (* nanoseconds since the epoch *)
| CMissing (m : NAKind).

Inductive DType : Type :=
| Int64 | Float64 | NullableInt64 | Boolean | Datetime64 | Object.

Record Series : Type := mkSeries { dtype : DType; values : list Cell }.

(** Columns in order; [df[col]] finds the first one with the name. *)
Definition DataFrame : Type := list (text * Series).

Inductive Exn : Type := KeyError | TypeError.

Inductive result (A : Type) : Type :=
| Ok (a : A)
| Raise (e : Exn).

Arguments Ok {A} a.
Arguments Raise {A} e.

Definition bind {A B : Type} (m : result A) (f : A -> result B) : result B :=
  match m with
  | Ok a => f a
  | Raise e => Raise e
  end.

Notation "x <- m ;; f" := (bind m (fun x => f))
  (at level 61, m at next level, right associativity).

(** What pandas does value by value and the source does not show: the text
    of a float and of a timestamp, the numeric parser of [pd.to_numeric]
    and the date parser of [pd.to_datetime].  A [None] from a parser is the
    value that cannot be read. *)
Record Lib : Type := mkLib {
  float_repr : Q -> text;
  datetime_repr : Z -> text;
  parse_number : text -> option Q;
  datetime_of : Cell -> option Z
}.

Definition isna (c : Cell) : bool :=
  match c with CMissing _ => true | _ => false end.

Definition na_repr (m : NAKind) : text :=
  match m with
  | NaN => T "nan"
  | PyNone => T "None"
  | NaT => T "NaT"
  | NA => T "<NA>"
  end.

(** [str(v)] *)
Definition str (L : Lib) (c : Cell) : text :=
  match c with
  | CInt z => int_repr z
  | CFloat q => float_repr L q
  | CText s => s
  | CBool b => if b then T "True" else T "False"
  | CDatetime t => datetime_repr L t
  | CMissing m => na_repr m
  end.

Definition columns (df : DataFrame) : list text := map fst df.

(** [df[col]] *)
Fixpoint getitem (df : DataFrame) (col : text) : result Series :=
  match df with
  | [] => Raise KeyError
  | (n, s) :: df' => if text_eqb n col then Ok s else getitem df' col
  end.

(** [df[col] = s]: an existing column is replaced where it stands, a new
    one is added at the end. *)
Fixpoint setitem (df : DataFrame) (col : text) (s : Series) : DataFrame :=
  match df with
  | [] => [(col, s)]
  | (n, s0) :: df' =>
      if text_eqb n col then (n, s) :: df' else (n, s0) :: setitem df' col s
  end.

Definition has_column (df : DataFrame) (col : text) : bool :=
  existsb (fun n => text_eqb n col) (columns df).

Definition nrows (df : DataFrame) : nat :=
  match df with
  | [] => 0
  | (_, s) :: _ => List.length (values s)
  end.

(** Boolean indexing [x[mask]]. *)
Fixpoint mask_filter {A : Type} (mask : list bool) (l : list A) : list A :=
  match mask, l with
  | b :: mask', x :: l' =>
      if b then x :: mask_filter mask' l' else mask_filter mask' l'
  | _, _ => []
  end.

Definition select_rows (mask : list bool) (df : DataFrame) : DataFrame :=
  map (fun ns => (fst ns, mkSeries (dtype (snd ns))
                            (mask_filter mask (values (snd ns))))) df.

(** [s.astype(str)] *)
Definition astype_str (L : Lib) (s : Series) : Series :=
  mkSeries Object (map (fun c => CText (str L c)) (values s)).

(** [s.str.replace(pat, repl, regex=True)]: values that are not text stay. *)
Definition str_replace (p : pattern) (repl : text) (s : Series) : Series :=
  mkSeries Object
    (map (fun c => match c with
                   | CText t => CText (re_sub p repl t)
                   | _ => c
                   end) (values s)).

(** [s.str.fullmatch(pat)]: NaN for a value that is not text. *)
Definition str_fullmatch (p : pattern) (s : Series) : Series :=
  mkSeries Object
    (map (fun c => match c with
                   | CText t => CBool (fullmatch p t)
                   | _ => CMissing NaN
                   end) (values s)).

(** [s.fillna(False)] *)
Definition fillna_false (s : Series) : Series :=
  mkSeries Boolean
    (map (fun c => if isna c then CBool false else c) (values s)).

(* ------------------------------------------------------------------ *)
(** * The cleaning functions of main.py *)

(** main.py, lines 35-37:
    [df.columns = [re.sub(r"[^a-zA-Z0-9_]", "_", col.strip().lower())
                   for col in df.columns]] *)
Definition standardize_column_names (df : DataFrame) : DataFrame :=
  map (fun ns => (standardize_name (fst ns), snd ns)) df.

(** main.py, lines 89-91:
    [df[name_col] = df[name_col].astype(str).str.replace(<title pattern>,
    <empty text>, regex=True)] *)
Definition remove_extra_titles (L : Lib) (df : DataFrame) (name_col : text)
  : result DataFrame :=
  s <- getitem df name_col ;;
  Ok (setitem df name_col (str_replace title_pattern [] (astype_str L s))).

(** main.py, lines 104-107:
    [df["valid_phone"] =
       df[phone_col].astype(str).str.fullmatch(pattern).fillna(False)] *)
Definition validate_phone_numbers (L : Lib) (df : DataFrame) (phone_col : text)
  : result DataFrame :=
  s <- getitem df phone_col ;;
  Ok (setitem df (T "valid_phone")
        (fillna_false (str_fullmatch phone_pattern (astype_str L s)))).

(** ** Dropping rows *)

Fixpoint zip_with {A B C : Type} (f : A -> B -> C) (a : list A) (b : list B)
  : list C :=
  match a, b with
  | x :: a', y :: b' => f x y :: zip_with f a' b'
  | _, _ => []
  end.

Definition notna (s : Series) : list bool :=
  map (fun c => negb (isna c)) (values s).

(** [notna(df[cols]).all(axis=1)]; a name that is no column is a KeyError. *)
Fixpoint notna_all (df : DataFrame) (cols : list text) : result (list bool) :=
  match cols with
  | [] => Ok (repeat true (nrows df))
  | c :: cs =>
      s <- getitem df c ;;
      m <- notna_all df cs ;;
      Ok (zip_with andb (notna s) m)
  end.

(** [df.dropna(subset=..)]; without [subset] every column is looked at. *)
Definition dropna (df : DataFrame) (subset : option (list text))
  : result DataFrame :=
  let cols := match subset with Some cs => cs | None => columns df end in
  m <- notna_all df cols ;;
  Ok (select_rows m df).

(** ** Duplicates *)

Definition bool_num (b : bool) : Q := if b then 1%Q else 0%Q.

(** The number a value counts as when it is hashed: 1, 1.0 and True are
    one key. *)
Definition key_num (c : Cell) : option Q :=
  match c with
  | CInt z => Some (inject_Z z)
  | CFloat q => Some q
  | CBool b => Some (bool_num b)
  | _ => None
  end.

(** Equality of two values as keys of a hash table: numbers by value,
    missing markers all alike. *)
Definition cell_same (a b : Cell) : bool :=
  match key_num a, key_num b with
  | Some x, Some y => Qeq_bool x y
  | None, None =>
      match a, b with
      | CMissing _, CMissing _ => true
      | CText s, CText t => text_eqb s t
      | CDatetime s, CDatetime t => Z.eqb s t
      | _, _ => false
      end
  | _, _ => false
  end.

Fixpoint key_same (a b : list Cell) : bool :=
  match a, b with
  | [], [] => true
  | x :: a', y :: b' => cell_same x y && key_same a' b'
  | _, _ => false
  end.

Definition cell_at (s : Series) (i : nat) : Cell :=
  nth i (values s) (CMissing NaN).

(** The columns named in [subset], in the order of the frame. *)
Definition key_columns (df : DataFrame) (subset : list text) : list Series :=
  map snd
    (filter (fun ns => existsb (fun c => text_eqb (fst ns) c) subset) df).

Definition key_at (ks : list Series) (i : nat) : list Cell :=
  map (fun s => cell_at s i) ks.

(** [duplicated(keep="first")]: a row is a duplicate when its key has been
    seen in an earlier row. *)
Fixpoint dup_scan (seen : list (list Cell)) (keys : list (list Cell))
  : list bool :=
  match keys with
  | [] => []
  | k :: ks =>
      if existsb (key_same k) seen
      then true :: dup_scan seen ks
      else false :: dup_scan (k :: seen) ks
  end.

Definition row_keys (df : DataFrame) (subset : list text) : list (list Cell) :=
  map (key_at (key_columns df subset)) (seq 0 (nrows df)).

Definition duplicated (df : DataFrame) (subset : list text)
  : result (list bool) :=
  if forallb (has_column df) subset
  then Ok (dup_scan [] (row_keys df subset))
  else Raise KeyError.

(** [df.drop_duplicates(subset=..)] is [df[~df.duplicated(subset)]]. *)
Definition drop_duplicates (df : DataFrame) (subset : list text)
  : result DataFrame :=
  m <- duplicated df subset ;;
  Ok (select_rows (map negb m) df).

(** main.py, lines 86-87: [df.drop_duplicates(subset=subset_cols)] *)
Definition remove_duplicates (df : DataFrame) (subset_cols : list text)
  : result DataFrame :=
  drop_duplicates df subset_cols.

(** ** Statistics of a numeric column *)

Definition is_numeric (d : DType) : bool :=
  match d with
  | Int64 | Float64 | NullableInt64 => true
  | _ => false
  end.

(** [df.select_dtypes(include=np.number).columns] *)
Definition numeric_columns (df : DataFrame) : list text :=
  map fst (filter (fun ns => is_numeric (dtype (snd ns))) df).

Definition num_of_cell (c : Cell) : option Q :=
  match c with
  | CInt z => Some (inject_Z z)
  | CFloat q => Some q
  | _ => None
  end.

(** The values of a numeric column that are present. *)
Fixpoint present (cs : list Cell) : list Q :=
  match cs with
  | [] => []
  | c :: cs' =>
      match num_of_cell c with
      | Some x => x :: present cs'
      | None => present cs'
      end
  end.

Definition Qsum (xs : list Q) : Q := fold_right Qplus 0%Q xs.

Definition Qlen (xs : list Q) : Q := inject_Z (Z.of_nat (List.length xs)).

(** [s.mean()]: [None] is the NaN of a column without values. *)
Definition mean (xs : list Q) : option Q :=
  match xs with
  | [] => None
  | _ => Some (Qsum xs / Qlen xs)%Q
  end.

Definition sq (x : Q) : Q := (x * x)%Q.

Definition sum_sq_dev (mu : Q) (xs : list Q) : Q :=
  Qsum (map (fun x => sq (x - mu)) xs).

(** The square of [s.std()].  The default of pandas is [ddof=1], the sample
    deviation, whose divisor is n - 1; it is NaN below two values.  The
    deviation itself is a square root and so not a rational: the model
    keeps its square. *)
Definition std_squared (xs : list Q) : option Q :=
  match mean xs with
  | Some mu =>
      if List.length xs <? 2 then None
      else Some (sum_sq_dev mu xs / (Qlen xs - 1))%Q
  | None => None
  end.

(** The population variance, divisor n, which the code does not use. *)
Definition population_variance (xs : list Q) : option Q :=
  match mean xs with
  | Some mu => Some (sum_sq_dev mu xs / Qlen xs)%Q
  | None => None
  end.

Definition Qltb (a b : Q) : bool := negb (Qle_bool b a).

(** [abs((x - mean) / std) > 3], decided on the squares: 9 std^2 is below
    (x - mean)^2.  When std is zero the quotient is NaN for x = mean, which
    compares false, and an infinity otherwise, which compares true: the
    same as the squares give.  [abs_z_above_3_real] below relates the test
    to the quotient in the real numbers. *)
Definition abs_z_above_3 (mu v x : Q) : bool :=
  Qltb (9 * v) (sq (x - mu)).

Fixpoint insert_sorted (x : Q) (l : list Q) : list Q :=
  match l with
  | [] => [x]
  | y :: l' => if Qle_bool x y then x :: l else y :: insert_sorted x l'
  end.

Definition sort_values (xs : list Q) : list Q :=
  fold_right insert_sorted [] xs.

(** [s.median()] *)
Definition median (xs : list Q) : option Q :=
  let l := sort_values xs in
  let n := List.length l in
  if n =? 0 then None
  else if Nat.even n
       then Some ((nth (n / 2 - 1) l 0 + nth (n / 2) l 0) / 2)%Q
       else Some (nth (n / 2) l 0%Q).

Definition occurrences (x : Q) (xs : list Q) : nat :=
  List.length (filter (Qeq_bool x) xs).

Definition max_occurrences (xs : list Q) : nat :=
  fold_right (fun x m => Nat.max (occurrences x xs) m) 0 xs.

Fixpoint distinct_sorted (l : list Q) : list Q :=
  match l with
  | x :: l' =>
      match l' with
      | y :: _ => if Qeq_bool x y then distinct_sorted l'
                  else x :: distinct_sorted l'
      | [] => [x]
      end
  | [] => []
  end.

(** [s.mode()]: the most frequent of the present values, ascending; empty
    for a column without values. *)
Definition mode (xs : list Q) : list Q :=
  filter (fun x => occurrences x xs =? max_occurrences xs)
    (distinct_sorted (sort_values xs)).

(** [m[0]] on the result of [mode()]. *)
Definition first_label (m : list Q) : result Q :=
  match m with
  | x :: _ => Ok x
  | [] => Raise KeyError
  end.

Definition is_whole (q : Q) : bool := Pos.eqb (Qden (Qred q)) 1.

Definition has_missing (s : Series) : bool := existsb isna (values s).

(** [s.fillna(v)] for the statistic [v]: a NaN fills nothing; a nullable
    integer column takes whole numbers only. *)
Definition fillna (s : Series) (v : option Q) : result Series :=
  match v with
  | None => Ok s
  | Some q =>
      match dtype s with
      | NullableInt64 =>
          if has_missing s then
            if is_whole q
            then Ok (mkSeries NullableInt64
                       (map (fun c => if isna c then CInt (Qnum (Qred q))
                                      else c) (values s)))
            else Raise TypeError
          else Ok s
      | d => Ok (mkSeries d
                   (map (fun c => if isna c then CFloat q else c) (values s)))
      end
  end.

(** The statistic the method asks for, [None] for the NaN of a column
    without values.  [mode()[0]] is a label lookup and can fail. *)
Definition statistic (m : text) (xs : list Q) : option (result (option Q)) :=
  if text_eqb m (T "mean") then Some (Ok (mean xs))
  else if text_eqb m (T "median") then Some (Ok (median xs))
  else if text_eqb m (T "mode")
       then Some (x <- first_label (mode xs) ;; Ok (Some x))
       else None.

(** One round of the loop: [df[col] = df[col].fillna(<statistic>)], and
    nothing when [method] is none of the three. *)
Definition impute_column (method : option text) (df : DataFrame) (col : text)
  : result DataFrame :=
  match method with
  | None => Ok df
  | Some m =>
      s <- getitem df col ;;
      match statistic m (present (values s)) with
      | Some r => v <- r ;; s' <- fillna s v ;; Ok (setitem df col s')
      | None => Ok df
      end
  end.

(** The loop of the impute branch over the numeric columns. *)
Fixpoint impute_loop (method : option text) (cols : list text)
         (df : DataFrame) : result DataFrame :=
  match cols with
  | [] => Ok df
  | c :: cs =>
      df' <- impute_column method df c ;;
      impute_loop method cs df'
  end.

(** main.py, lines 57-68.  The drop branch is [df.dropna()], the impute
    branch the loop over [df.select_dtypes(include=np.number).columns]. *)
Definition handle_missing_values (df : DataFrame) (strategy : text)
           (method : option text) : result DataFrame :=
  if text_eqb strategy (T "drop") then dropna df None
  else if text_eqb strategy (T "impute")
       then impute_loop method (numeric_columns df) df
       else Ok df.

(** The drop branch of app.py (line 100), which takes the columns to check
    and does not go through main.py: [df = df.dropna(subset=drop_cols)]. *)
Definition app_drop_rows (df : DataFrame) (drop_cols : list text)
  : result DataFrame :=
  dropna df (Some drop_cols).

(** ** Type conversion *)

(** One value under [pd.to_numeric(.., errors="coerce")]. *)
Definition numeric_of (L : Lib) (c : Cell) : option Q :=
  match c with
  | CInt z => Some (inject_Z z)
  | CFloat q => Some q
  | CBool b => Some (bool_num b)
  | CText t => parse_number L t
  | CDatetime t => Some (inject_Z t)
  | CMissing _ => None
  end.

Definition coerce_numeric (L : Lib) (c : Cell) : Cell :=
  match numeric_of L c with
  | Some q => CFloat q
  | None => CMissing NaN
  end.

(** [pd.to_numeric(s, errors="coerce")].  The dtype pandas infers for the
    result is not modelled: the column is presented as float64 with the
    same numbers. *)
Definition to_numeric (L : Lib) (s : Series) : Series :=
  mkSeries Float64 (map (coerce_numeric L) (values s)).

(** One value under [.astype("Int64")]: a number that is not whole cannot
    be cast and the cast of the column raises. *)
Definition cast_Int64 (c : Cell) : result Cell :=
  match c with
  | CInt z => Ok (CInt z)
  | CFloat q => if is_whole q then Ok (CInt (Qnum (Qred q)))
                else Raise TypeError
  | CBool b => Ok (CInt (if b then 1 else 0)%Z)
  | CMissing _ => Ok (CMissing NA)
  | _ => Raise TypeError
  end.

Fixpoint cast_all (cs : list Cell) : result (list Cell) :=
  match cs with
  | [] => Ok []
  | c :: cs' =>
      c' <- cast_Int64 c ;;
      r <- cast_all cs' ;;
      Ok (c' :: r)
  end.

Definition astype_Int64 (s : Series) : result Series :=
  vs <- cast_all (values s) ;;
  Ok (mkSeries NullableInt64 vs).

Definition coerce_datetime (L : Lib) (c : Cell) : Cell :=
  match c with
  | CMissing _ => CMissing NaT
  | _ => match datetime_of L c with
         | Some t => CDatetime t
         | None => CMissing NaT
         end
  end.

(** [pd.to_datetime(.., errors="coerce")] *)
Definition to_datetime (L : Lib) (s : Series) : Series :=
  mkSeries Datetime64 (map (coerce_datetime L) (values s)).

(** The body of the [try] (lines 73-80): the branch of the target type
    assigns the converted column; an unknown target does nothing. *)
Definition convert_one (L : Lib) (df : DataFrame) (col dtype : text)
  : result DataFrame :=
  if text_eqb dtype (T "int") then
    s <- getitem df col ;;
    s' <- astype_Int64 (to_numeric L s) ;;
    Ok (setitem df col s')
  else if text_eqb dtype (T "float") then
    s <- getitem df col ;;
    Ok (setitem df col (to_numeric L s))
  else if text_eqb dtype (T "str") then
    s <- getitem df col ;;
    Ok (setitem df col (astype_str L s))
  else if text_eqb dtype (T "datetime") then
    s <- getitem df col ;;
    Ok (setitem df col (to_datetime L s))
  else Ok df.

(** What the [except] branch prints: the column, the target, the error. *)
Definition Message : Type := (text * text * Exn)%type.

(** [try: body except Exception as e: handler] *)
Definition try_except {A : Type} (body : result A) (handler : Exn -> result A)
  : result A :=
  match body with
  | Ok a => Ok a
  | Raise e => handler e
  end.

(** main.py, lines 70-83: the loop over [conversions.items()] with its
    [try]/[except] around each column.
    [conversions] is a dict, taken in insertion order.  The function
    returns the frame; the second component is what it has printed. *)
Fixpoint convert_column_types (L : Lib) (df : DataFrame)
         (conversions : list (text * text))
  : result (DataFrame * list Message) :=
  match conversions with
  | [] => Ok (df, [])
  | (col, dtype) :: rest =>
      step <- try_except
                (df' <- convert_one L df col dtype ;; Ok (df', []))
                (fun e => Ok (df, [(col, dtype, e)])) ;;
      final <- convert_column_types L (fst step) rest ;;
      Ok (fst final, snd step ++ snd final)
  end.

(** ** Outliers *)

(** [df[(z_score.abs() > 3)].shape[0]] for one column. *)
Definition outlier_count (s : Series) : nat :=
  let xs := present (values s) in
  match mean xs, std_squared xs with
  | Some mu, Some v => List.length (filter (abs_z_above_3 mu v) xs)
  | _, _ => 0
  end.

Definition Report : Type := list (text * nat).

(** [report[col] = count] *)
Fixpoint report_set (r : Report) (col : text) (n : nat) : Report :=
  match r with
  | [] => [(col, n)]
  | (c, m) :: r' =>
      if text_eqb c col then (c, n) :: r' else (c, m) :: report_set r' col n
  end.

Fixpoint report_get (r : Report) (col : text) : option nat :=
  match r with
  | [] => None
  | (c, m) :: r' => if text_eqb c col then Some m else report_get r' col
  end.

Fixpoint outlier_loop (df : DataFrame) (cols : list text) (report : Report)
  : result Report :=
  match cols with
  | [] => Ok report
  | c :: cs =>
      s <- getitem df c ;;
      let count := outlier_count s in
      outlier_loop df cs (if 0 <? count then report_set report c count
                          else report)
  end.

(** main.py, lines 93-100 *)
Definition detect_outliers (df : DataFrame) : result Report :=
  outlier_loop df (numeric_columns df) [].

(** The count the loop computes for the column named [c]. *)
Definition count_of (df : DataFrame) (c : text) : nat :=
  match getitem df c with
  | Ok s => outlier_count s
  | Raise _ => 0
  end.

(* ------------------------------------------------------------------ *)
(** * Rows *)

(** The frame is stored column by column; a row is the cross-section. *)
Definition Row : Type := list (text * Cell).

Definition row_at (df : DataFrame) (i : nat) : Row :=
  map (fun ns => (fst ns, cell_at (snd ns) i)) df.

Definition rows (df : DataFrame) : list Row :=
  map (row_at df) (seq 0 (nrows df)).

(** All columns have the length of the frame. *)
Definition aligned (df : DataFrame) : Prop :=
  forall ns, In ns df -> List.length (values (snd ns)) = nrows df.

Fixpoint row_get (r : Row) (col : text) : option Cell :=
  match r with
  | [] => None
  | (n, c) :: r' => if text_eqb n col then Some c else row_get r' col
  end.

(** A row has a missing value in one of the columns [cols]. *)
Definition row_missing_in (cols : list text) (r : Row) : bool :=
  existsb (fun c => match row_get r c with
                    | Some v => isna v
                    | None => false
                    end) cols.

(** The values of a row in the key columns. *)
Definition row_key (subset : list text) (r : Row) : list Cell :=
  map snd (filter (fun nc => existsb (fun c => text_eqb (fst nc) c) subset) r).

(** Row [i] is the first row of the frame with its key. *)
Definition first_with_key (df : DataFrame) (subset : list text) (i : nat)
  : bool :=
  negb (existsb (fun j => key_same (row_key subset (row_at df i))
                                   (row_key subset (row_at df j)))
                (seq 0 i)).

(* ------------------------------------------------------------------ *)
(** * Notions used to state what the type conversion does *)

(** The frame and the messages a call of [convert_column_types] ends
    with, the exceptions of the columns resolved. *)
Fixpoint converted (L : Lib) (df : DataFrame)
         (conversions : list (text * text)) : DataFrame * list Message :=
  match conversions with
  | [] => (df, [])
  | (col, dtype) :: rest =>
      match convert_one L df col dtype with
      | Ok df' => converted L df' rest
      | Raise e =>
          let (df', out) := converted L df rest in
          (df', (col, dtype, e) :: out)
      end
  end.

(** What the [try] body does to the values of the column it is given. *)
Definition convert_series (L : Lib) (dtype : text) (s : Series)
  : result Series :=
  if text_eqb dtype (T "int") then astype_Int64 (to_numeric L s)
  else if text_eqb dtype (T "float") then Ok (to_numeric L s)
  else if text_eqb dtype (T "str") then Ok (astype_str L s)
  else if text_eqb dtype (T "datetime") then Ok (to_datetime L s)
  else Ok s.

(** Every value of the column that reads as a number is a whole number. *)
Definition whole_numbers (L : Lib) (s : Series) : bool :=
  forallb (fun c => match numeric_of L c with
                    | Some q => is_whole q
                    | None => true
                    end) (values s).

Definition int_or_missing (L : Lib) (c : Cell) : Cell :=
  match numeric_of L c with
  | Some q => CInt (Qnum (Qred q))
  | None => CMissing NA
  end.

(* ------------------------------------------------------------------ *)
(** * What a match is *)

Definition last_char (prev : option ascii) (cs : text) : option ascii :=
  last (map Some cs) prev.

Definition within (hi : option nat) (lo n : nat) : Prop :=
  match hi with
  | Some h => n <= lo + (h - lo)
  | None => True
  end.

(** [Matches i r prev s prev' s']: read from [s], with [prev] before it,
    the expression [r] can take a prefix and leave [s'], with [prev']
    before it.  This is the meaning of an expression without the order in
    which the matcher tries the choices. *)
Inductive Matches (i : bool)
  : regex -> option ascii -> text -> option ascii -> text -> Prop :=
| M_Eps : forall prev s, Matches i Eps prev s prev s
| M_Lit : forall c x prev s,
    lit_eqb i c x = true -> Matches i (Lit c) prev (x :: s) (Some x) s
| M_Cls : forall (p : ascii -> bool) x prev s,
    p x = true -> Matches i (Cls p) prev (x :: s) (Some x) s
| M_Cat : forall r1 r2 p0 s0 p1 s1 p2 s2,
    Matches i r1 p0 s0 p1 s1 -> Matches i r2 p1 s1 p2 s2 ->
    Matches i (Cat r1 r2) p0 s0 p2 s2
| M_AltL : forall r1 r2 p0 s0 p1 s1,
    Matches i r1 p0 s0 p1 s1 -> Matches i (Alt r1 r2) p0 s0 p1 s1
| M_AltR : forall r1 r2 p0 s0 p1 s1,
    Matches i r2 p0 s0 p1 s1 -> Matches i (Alt r1 r2) p0 s0 p1 s1
| M_OptSome : forall r p0 s0 p1 s1,
    Matches i r p0 s0 p1 s1 -> Matches i (Opt r) p0 s0 p1 s1
| M_OptNone : forall r prev s, Matches i (Opt r) prev s prev s
| M_Rep : forall (p : ascii -> bool) lo hi prev cs rest,
    forallb p cs = true -> lo <= List.length cs ->
    within hi lo (List.length cs) ->
    Matches i (Rep p lo hi) prev (cs ++ rest) (last_char prev cs) rest
| M_WordB : forall prev s,
    xorb (is_word_at prev) (is_word_at (hd_error s)) = true ->
    Matches i WordB prev s prev s
| M_Bol : forall s, Matches i Bol None s None s
| M_Eol : forall prev s,
    s = [] \/ s = [newline] -> Matches i Eol prev s prev s.

(* ------------------------------------------------------------------ *)
(** * The words of the specification, for comparison with the patterns *)

Definition ten_digits (s : text) : bool :=
  (List.length s =? 10) && forallb is_digit s &&
  match s with
  | d :: _ => is_6_to_9 d
  | [] => false
  end.

(** An optional "+91" with an optional separator, then exactly ten digits
    of which the first is 6 to 9. *)
Definition phone_spec (s : text) : bool :=
  ten_digits s ||
  match s with
  | a :: b :: c :: t =>
      text_eqb [a; b; c] (T "+91") &&
      (ten_digits t ||
       match t with
       | sep :: t' => is_dash_or_space sep && ten_digits t'
       | [] => false
       end)
  | _ => false
  end.

Definition honorifics : list text :=
  [T "mr"; T "mrs"; T "dr"; T "ms"; T "shri"].

(** [tok] is a prefix of [s], letter case aside. *)
Fixpoint prefix_ci (tok s : text) : bool :=
  match tok, s with
  | [], _ => true
  | a :: tok', b :: s' =>
      char_eqb (lower_char a) (lower_char b) && prefix_ci tok' s'
  | _ :: _, [] => false
  end.

(** An honorific starts in [s], which has [prev] before it, at a word
    boundary. *)
Definition title_here (prev : option ascii) (s : text) : bool :=
  negb (is_word_at prev) && existsb (fun tok => prefix_ci tok s) honorifics.

(** An honorific starts at position [i] of [s] at a word boundary. *)
Definition title_at (s : text) (i : nat) : bool :=
  title_here (match i with O => None | S j => nth_error s j end)
             (skipn i s).

(** No honorific starts at a word boundary anywhere in [s]. *)
Fixpoint title_free (prev : option ascii) (s : text) : bool :=
  match s with
  | [] => true
  | c :: s' => negb (title_here prev s) && title_free (Some c) s'
  end.

Definition prev_at (prev : option ascii) (s : text) (i : nat) : option ascii :=
  match i with O => prev | S j => nth_error s j end.

(** The characters of a standardized name: [[a-z0-9_]]. *)
Definition is_canonical (c : ascii) : bool :=
  is_word c && negb (is_upper c).

(** What the substitution of [standardize_name] does to one character. *)
Definition underscore_outside (c : ascii) : ascii :=
  if is_word c then c else char "_".

(* ------------------------------------------------------------------ *)
(** * An instance of the library values, for running examples

    Numbers are read from plain decimal text (sign, digits, an optional
    fraction); a float is written as a fraction.  The examples below turn
    no float into text. *)

Fixpoint read_digits (s : text) (acc : Z) (n : nat) : Z * nat * text :=
  match s with
  | c :: s' =>
      if is_digit c
      then read_digits s' (acc * 10 + Z.of_nat (code c - 48))%Z (S n)
      else (acc, n, s)
  | [] => (acc, n, [])
  end.

Definition parse_unsigned (s : text) : option Q :=
  let '(i, n, rest) := read_digits s 0%Z 0 in
  if n =? 0 then None
  else match rest with
       | [] => Some (inject_Z i)
       | c :: frac =>
           if char_eqb c (char ".") then
             let '(f, m, rest') := read_digits frac 0%Z 0 in
             match m, rest' with
             | S _, [] =>
                 Some (Qred (inject_Z i
                             + inject_Z f / inject_Z (10 ^ Z.of_nat m)))%Q
             | _, _ => None
             end
           else None
       end.

Definition parse_decimal (s : text) : option Q :=
  match s with
  | c :: s' =>
      if char_eqb c (char "-") then option_map Qopp (parse_unsigned s')
      else parse_unsigned s
  | [] => None
  end.

Definition decimal_lib : Lib :=
  mkLib (fun q => int_repr (Qnum q) ++ T "/" ++ int_repr (Zpos (Qden q)))
        int_repr
        parse_decimal
        (fun c => match c with
                  | CDatetime t => Some t
                  | CInt z => Some z
                  | _ => None
                  end).

(** Frames for running the functions. *)

Definition names_frame : DataFrame :=
  [(T "name", mkSeries Object [CText (T "Dr. Jane Smith");
                               CText (T "Jane Dr. Smith");
                               CMissing PyNone])].

Definition phones_frame : DataFrame :=
  [(T "phone", mkSeries Object [CText (T "+91-9876543210");
                                CText (T "5876543210");
                                CText [];
                                CInt 9876543210;
                                CMissing PyNone])].

(** Three rows; the second misses its city, the third its age. *)
Definition people_frame : DataFrame :=
  [(T "name", mkSeries Object [CText (T "Asha"); CText (T "Ravi");
                               CText (T "Asha")]);
   (T "city", mkSeries Object [CText (T "Pune"); CMissing PyNone;
                               CText (T "Pune")]);
   (T "age", mkSeries Float64 [CFloat 31; CFloat 40; CMissing NaN])].

(** A numeric column without a single value. *)
Definition empty_scores_frame : DataFrame :=
  [(T "score", mkSeries Float64 [CMissing NaN; CMissing NaN])].

(** The column of the specification's example, and a second column. *)
Definition codes_frame : DataFrame :=
  [(T "code", mkSeries Object [CText (T "1"); CText (T "x"); CText (T "3")]);
   (T "qty", mkSeries Object [CText (T "7"); CText (T "8"); CText (T "9")])].

(** A column with a number that is not whole, and a second column. *)
Definition prices_frame : DataFrame :=
  [(T "price", mkSeries Object [CText (T "1.5"); CText (T "x")]);
   (T "qty", mkSeries Object [CText (T "7"); CText (T "8")])].

Definition notes_frame : DataFrame :=
  [(T "note", mkSeries Object [CText (T "a"); CMissing PyNone])].

Definition int_cells (zs : list Z) : list Cell := map CInt zs.

(** The constant column of the specification. *)
Definition constant_frame : DataFrame :=
  [(T "k", mkSeries Int64 (int_cells [5; 5; 5; 5]%Z))].

(** Ten values around zero and one at twenty. *)
Definition spread_values : list Z :=
  [-1; -1; -1; -1; -1; 1; 1; 1; 1; 1; 20]%Z.

Definition spread_frame : DataFrame :=
  [(T "v", mkSeries Int64 (int_cells spread_values))].

(** Twenty values at zero and one at a hundred. *)
Definition spike_values : list Z :=
  [0; 0; 0; 0; 0; 0; 0; 0; 0; 0; 0; 0; 0; 0; 0; 0; 0; 0; 0; 0; 100]%Z.

Definition spike_frame : DataFrame :=
  [(T "v", mkSeries Int64 (int_cells spike_values))].

(** The square of the deviation of that column, as the model computes it. *)
Definition spike_std_squared : Q :=
  Eval cbv in
    match std_squared (present (int_cells spike_values)) with
    | Some v => v
    | None => 0%Q
    end.

(** The count of the specification's wording: the values further than three
    population deviations from the mean, [(x - mean)^2 > 9 * variance] with
    the variance of divisor n. *)
Definition population_outlier_count (xs : list Q) : nat :=
  match mean xs, population_variance xs with
  | Some mu, Some v => List.length (filter (abs_z_above_3 mu v) xs)
  | _, _ => 0
  end.

(* ------------------------------------------------------------------ *)
(** * The text cleaner of main.py *)

(** [str.upper()] on one character. *)
Definition upper_char (c : ascii) : ascii :=
  if is_lower c then ascii_of_nat (code c - 32) else c.

Definition upper (s : text) : text := map upper_char s.

Definition is_alpha (c : ascii) : bool := is_lower c || is_upper c.

(** [str.title()]: a letter is put in upper case when the character before
    it is no letter, in lower case when it is one; [cased] says whether
    the character before is a letter. *)
Fixpoint title_from (cased : bool) (s : text) : text :=
  match s with
  | [] => []
  | c :: s' =>
      (if cased then lower_char c else upper_char c)
        :: title_from (is_alpha c) s'
  end.

Definition title (s : text) : text := title_from false s.

(** A string method of the [.str] accessor, value by value: values that
    are not text stay. *)
Definition str_map (f : text -> text) (s : Series) : Series :=
  mkSeries Object
    (map (fun c => match c with
                   | CText t => CText (f t)
                   | _ => c
                   end) (values s)).

(** [for col in cols: df[col] = f(df[col])].  The frame is changed in
    place: when a later column is missing the columns before it have been
    rewritten already; the model returns the exception only. *)
Fixpoint assign_each (f : Series -> Series) (df : DataFrame)
         (cols : list text) : result DataFrame :=
  match cols with
  | [] => Ok df
  | c :: cs =>
      s <- getitem df c ;;
      assign_each f (setitem df c (f s)) cs
  end.

(** main.py, lines 39-42: [df[col] = df[col].astype(str).str.strip()] *)
Definition trim_whitespaces (L : Lib) (df : DataFrame) (cols : list text)
  : result DataFrame :=
  assign_each (fun s => str_map strip (astype_str L s)) df cols.

(** main.py, lines 44-50: the branch is taken again for every column;
    every [case_type] other than "lower" is upper case. *)
Definition normalize_case (L : Lib) (df : DataFrame) (cols : list text)
           (case_type : text) : result DataFrame :=
  assign_each
    (fun s => if text_eqb case_type (T "lower")
              then str_map lower (astype_str L s)
              else str_map upper (astype_str L s))
    df cols.

(** main.py, lines 52-55: [df[col] = df[col].astype(str).str.title()] *)
Definition capitalize_words (L : Lib) (df : DataFrame) (cols : list text)
  : result DataFrame :=
  assign_each (fun s => str_map title (astype_str L s)) df cols.

(* ------------------------------------------------------------------ *)
(** * The email validator *)

Definition is_local (c : ascii) : bool :=
  is_word c || char_eqb c (char ".") || char_eqb c (char "-").

(** [^[\w\.-]+@[\w\.-]+\.\w+$] (validate_email_addresses) *)
Definition email_pattern : pattern :=
  Pattern false
    (Cat Bol
       (Cat (Rep is_local 1 None)
          (Cat (Lit (char "@"))
             (Cat (Rep is_local 1 None)
                (Cat (Lit (char "."))
                   (Cat (Rep is_word 1 None) Eol)))))).

Definition email_matches (s : text) : bool := fullmatch email_pattern s.

(** main.py, lines 109-112:
    [df["valid_email"] =
       df[email_col].astype(str).str.fullmatch(pattern).fillna(False)] *)
Definition validate_email_addresses (L : Lib) (df : DataFrame)
           (email_col : text) : result DataFrame :=
  s <- getitem df email_col ;;
  Ok (setitem df (T "valid_email")
        (fillna_false (str_fullmatch email_pattern (astype_str L s)))).

(* ------------------------------------------------------------------ *)
(** * The inspector *)

(** [str(dtype)] *)
Definition dtype_name (d : DType) : text :=
  match d with
  | Int64 => T "int64"
  | Float64 => T "float64"
  | NullableInt64 => T "Int64"
  | Boolean => T "bool"
  | Datetime64 => T "datetime64[ns]"
  | Object => T "object"
  end.

(** [s.isnull().sum()] *)
Definition null_count (s : Series) : nat :=
  List.length (filter isna (values s)).

(** The values that are present and have not been seen yet, counted. *)
Fixpoint count_distinct (seen : list Cell) (cs : list Cell) : nat :=
  match cs with
  | [] => 0
  | c :: cs' =>
      if isna c then count_distinct seen cs'
      else if existsb (cell_same c) seen then count_distinct seen cs'
           else S (count_distinct (c :: seen) cs')
  end.

(** [s.nunique()]: missing values are not counted. *)
Definition nunique (s : Series) : nat := count_distinct [] (values s).

(** One row of the summary frame. *)
Record InfoRow : Type := mkInfo {
  info_column : text;
  info_dtype : text;
  info_nulls : nat;
  info_unique : nat
}.

(** main.py, lines 116-123: the four columns of [info_df], row by row. *)
Definition show_df_info (df : DataFrame) : list InfoRow :=
  map (fun ns => mkInfo (fst ns) (dtype_name (dtype (snd ns)))
                        (null_count (snd ns)) (nunique (snd ns))) df.

(* ------------------------------------------------------------------ *)
(** * The preview of the drop branch of app.py *)

(** [df[cols].isnull().any(axis=1)] *)
Fixpoint isnull_any (df : DataFrame) (cols : list text) : result (list bool) :=
  match cols with
  | [] => Ok (repeat false (nrows df))
  | c :: cs =>
      s <- getitem df c ;;
      m <- isnull_any df cs ;;
      Ok (zip_with orb (map isna (values s)) m)
  end.

(** app.py, line 93:
    [rows_with_nulls = df[df[drop_cols].isnull().any(axis=1)]] *)
Definition rows_with_nulls (df : DataFrame) (drop_cols : list text)
  : result DataFrame :=
  m <- isnull_any df drop_cols ;;
  Ok (select_rows m df).

(** What the branch of app.py, lines 92-103, does with the frame when the
    button is pressed: nothing when the preview is empty, the drop
    otherwise, with the number the success message shows. *)
Definition app_drop_branch (df : DataFrame) (drop_cols : list text)
  : result (DataFrame * option nat) :=
  match drop_cols with
  | [] => Ok (df, None)
  | _ =>
      preview <- rows_with_nulls df drop_cols ;;
      if nrows preview =? 0 then Ok (df, None)
      else
        df' <- dropna df (Some drop_cols) ;;
        Ok (df', Some (nrows df - nrows df'))
  end.

(* ------------------------------------------------------------------ *)
(** * Notions used to state what the added functions do *)

(** The text does not start with a blank. *)
Definition no_leading_blank (s : text) : Prop :=
  match s with
  | c :: _ => is_space c = false
  | [] => True
  end.

(** A frame with blanks and mixed case in its text. *)
Definition raw_frame : DataFrame :=
  [(T "name", mkSeries Object [CText (T "  asha RAO "); CText (T "o'neil 3rd");
                               CMissing PyNone]);
   (T "mail", mkSeries Object [CText (T "a.b@example.com");
                               CText (T "not-an-email");
                               CMissing PyNone]);
   (T "n", mkSeries Int64 [CInt 1; CInt 2; CInt 3])].

(** How often a character occurs in a text. *)
Definition count_char (c : ascii) (s : text) : nat :=
  List.length (filter (char_eqb c) s).

(** A column with its missing cells filled by the number [q]. *)
Definition filled (q : Q) (s : Series) : Series :=
  mkSeries (dtype s)
           (map (fun c => if isna c then CFloat q else c) (values s)).

(** The methods [mean] and [median], whose statistic is a plain number. *)
Definition plain_statistic (m : text) : option (list Q -> option Q) :=
  if text_eqb m (T "mean") then Some mean
  else if text_eqb m (T "median") then Some median
  else None.

(** No column of the frame has the nullable integer type. *)
Definition no_nullable (df : DataFrame) : bool :=
  forallb (fun ns => match dtype (snd ns) with
                     | NullableInt64 => false
                     | _ => true
                     end) df.

(** The state of the column [col] in the impute loop: as it was at the
    start, [s0], or that column filled with its statistic. *)
Definition impute_state (stat : list Q -> option Q) (s0 : Series)
           (col : text) (done : bool) (df : DataFrame) : Prop :=
  if done
  then exists q, stat (present (values s0)) = Some q
                 /\ getitem df col = Ok (filled q s0)
  else getitem df col = Ok s0.

(** A frame with a float column that has gaps. *)
Definition ages_frame : DataFrame :=
  [(T "name", mkSeries Object [CText (T "a"); CText (T "b"); CText (T "c");
                               CMissing PyNone]);
   (T "age", mkSeries Float64 [CFloat 20; CMissing NaN; CFloat 41;
                               CMissing NaN])].

(** The target types [convert_column_types] knows. *)
Definition known_target (ty : text) : bool :=
  text_eqb ty (T "int") || text_eqb ty (T "float")
  || text_eqb ty (T "str") || text_eqb ty (T "datetime").

(** [pd.unique]: the values in the order of their first appearance. *)
Fixpoint unique_scan (seen : list Cell) (cs : list Cell) : list Cell :=
  match cs with
  | [] => []
  | c :: cs' =>
      if existsb (cell_same c) seen then unique_scan seen cs'
      else c :: unique_scan (c :: seen) cs'
  end.

(** app.py, line 62: [df[col_to_check].dropna().unique()] *)
Definition unique_vals (s : Series) : list Cell :=
  unique_scan [] (filter (fun c => negb (isna c)) (values s)).

(** A frame whose two column names differ in case and blanks only. *)
Definition labels_frame : DataFrame :=
  [(T "Name", mkSeries Object [CText (T "a")]);
   (T " name ", mkSeries Object [CText (T "b")])].

(** A frame with repeated and missing values in a column. *)
Definition cities_frame : DataFrame :=
  [(T "city", mkSeries Object [CText (T "Pune"); CText (T "Pune");
                               CMissing PyNone; CText (T "Agra");
                               CMissing PyNone]);
   (T "n", mkSeries Int64 [CInt 1; CInt 2; CInt 3; CInt 4; CInt 5])].

(* ================================================================== *)
(** * Part II: lemmas and theorems *)
(* ------------------------------------------------------------------ *)
(** * The matcher finds a match exactly when there is one *)

Section MatcherCorrect.
Variable i : bool.
Variable A : Type.

Lemma last_cons_default (B : Type) (l : list B) : forall x d,
  last (x :: l) d = last l x.
Proof.
  induction l as [|y l IH]; intros x d; [reflexivity|].
  change (last (x :: y :: l) d) with (last (y :: l) d).
  rewrite (IH y d), (IH y x). reflexivity.
Qed.

Lemma last_append (B : Type) (l1 l2 : list B) : forall d,
  last (l1 ++ l2) d = last l2 (last l1 d).
Proof.
  induction l1 as [|x l1 IH]; intros d; [reflexivity|].
  rewrite <- app_comm_cons, !last_cons_default. apply IH.
Qed.

Lemma last_char_cons prev c cs :
  last_char prev (c :: cs) = last_char (Some c) cs.
Proof. unfold last_char. simpl map. apply last_cons_default. Qed.

Lemma last_char_app prev cs ds :
  last_char prev (cs ++ ds) = last_char (last_char prev cs) ds.
Proof. unfold last_char. rewrite map_app. apply last_append. Qed.

Lemma rep_exact_some p n prev s (k : cont A) a :
  rep_exact p n prev s k = Some a ->
  exists cs rest, s = cs ++ rest /\ forallb p cs = true /\
    List.length cs = n /\ k (last_char prev cs) rest = Some a.
Proof.
  revert prev s. induction n as [|n IH]; intros prev s H; simpl in H.
  - exists [], s. auto.
  - destruct s as [|c s]; [discriminate|].
    destruct (p c) eqn:Hc; [|discriminate].
    destruct (IH _ _ H) as (cs & rest & -> & Hp & Hl & Hk).
    exists (c :: cs), rest. simpl. rewrite Hc, Hp, Hl, last_char_cons. auto.
Qed.

Lemma rep_exact_none p n prev (k : cont A) cs rest :
  rep_exact p n prev (cs ++ rest) k = None ->
  forallb p cs = true -> List.length cs = n ->
  k (last_char prev cs) rest = None.
Proof.
  revert prev cs. induction n as [|n IH]; intros prev cs H Hp Hl.
  - destruct cs; [|discriminate]. exact H.
  - destruct cs as [|c cs]; [discriminate|]. simpl in *.
    apply andb_prop in Hp. destruct Hp as [Hc Hp]. rewrite Hc in H.
    rewrite last_char_cons. apply IH; auto.
Qed.

Lemma rep_greedy_some p b prev s (k : cont A) a :
  rep_greedy p b prev s k = Some a ->
  exists cs rest, s = cs ++ rest /\ forallb p cs = true /\
    within b 0 (List.length cs) /\ k (last_char prev cs) rest = Some a.
Proof.
  revert b prev. induction s as [|c s IH]; intros b prev H; simpl in H.
  - exists [], []. repeat split; auto. destruct b; simpl; lia.
  - assert (Hstop : k prev (c :: s) = Some a ->
      exists cs rest, c :: s = cs ++ rest /\ forallb p cs = true /\
        within b 0 (List.length cs) /\ k (last_char prev cs) rest = Some a).
    { intros Hk. exists [], (c :: s). repeat split; auto.
      destruct b; simpl; lia. }
    destruct (p c && bound_open b) eqn:Hgo; [|auto].
    unfold or_else in H.
    destruct (rep_greedy p (bound_pred b) (Some c) s k) eqn:Hrec; [|auto].
    injection H as ->.
    destruct (IH _ _ Hrec) as (cs & rest & -> & Hp & Hw & Hk).
    apply andb_prop in Hgo. destruct Hgo as [Hc Hb].
    exists (c :: cs), rest. simpl. rewrite Hc, Hp, last_char_cons.
    repeat split; auto.
    destruct b as [[|h]|]; simpl in *; try discriminate; lia.
Qed.

Lemma rep_greedy_none p b prev (k : cont A) cs rest :
  rep_greedy p b prev (cs ++ rest) k = None ->
  forallb p cs = true -> within b 0 (List.length cs) ->
  k (last_char prev cs) rest = None.
Proof.
  revert b prev. induction cs as [|c cs IH]; intros b prev H Hp Hw.
  - simpl in *. destruct rest as [|c rest]; simpl in H; [exact H|].
    destruct (p c && bound_open b); [|exact H].
    unfold or_else in H.
    destruct (rep_greedy p (bound_pred b) (Some c) rest k); [discriminate|].
    exact H.
  - simpl in *. apply andb_prop in Hp. destruct Hp as [Hc Hp].
    rewrite Hc in H.
    assert (Hb : bound_open b = true).
    { destruct b as [[|h]|]; simpl in *; auto; lia. }
    rewrite Hb in H. simpl in H. unfold or_else in H.
    destruct (rep_greedy p (bound_pred b) (Some c) (cs ++ rest) k) eqn:Hrec;
      [discriminate|].
    rewrite last_char_cons. apply (IH _ _ Hrec Hp).
    destruct b as [[|h]|]; simpl in *; auto; lia.
Qed.

(** Soundness: an answer of the matcher comes from a match. *)
Lemma rmatch_some r : forall prev s (k : cont A) a,
  rmatch i r prev s k = Some a ->
  exists prev' s', Matches i r prev s prev' s' /\ k prev' s' = Some a.
Proof.
  induction r as [|c|p|r1 IH1 r2 IH2|r1 IH1 r2 IH2|r IH|p lo hi| | |];
    intros prev s k a H; simpl in H.
  - eauto using Matches.
  - destruct s as [|x s]; [discriminate|].
    destruct (lit_eqb i c x) eqn:E; [|discriminate]. eauto using Matches.
  - destruct s as [|x s]; [discriminate|].
    destruct (p x) eqn:E; [|discriminate]. eauto using Matches.
  - destruct (IH1 _ _ _ _ H) as (p1 & s1 & M1 & H1).
    destruct (IH2 _ _ _ _ H1) as (p2 & s2 & M2 & H2).
    eauto using Matches.
  - unfold or_else in H. destruct (rmatch i r1 prev s k) eqn:E.
    + injection H as ->. destruct (IH1 _ _ _ _ E) as (p1 & s1 & M1 & H1).
      eauto using Matches.
    + destruct (IH2 _ _ _ _ H) as (p1 & s1 & M1 & H1). eauto using Matches.
  - unfold or_else in H. destruct (rmatch i r prev s k) eqn:E.
    + injection H as ->. destruct (IH _ _ _ _ E) as (p1 & s1 & M1 & H1).
      eauto using Matches.
    + eauto using Matches.
  - destruct (rep_exact_some _ _ _ _ _ _ H) as (cs & rest & -> & Hp & Hl & Hk).
    destruct (rep_greedy_some _ _ _ _ _ _ Hk)
      as (ds & rest' & -> & Hq & Hw & Hk').
    exists (last_char prev (cs ++ ds)), rest'. split.
    + rewrite app_assoc. constructor.
      * rewrite forallb_app, Hp, Hq. reflexivity.
      * rewrite length_app. lia.
      * rewrite length_app. destruct hi; simpl in *; lia.
    + rewrite last_char_app. exact Hk'.
  - destruct (xorb _ _) eqn:E; [|discriminate]. eauto using Matches.
  - destruct prev; [discriminate|]. eauto using Matches.
  - destruct s as [|c [|d s]]; try discriminate.
    + exists prev, []. split; [constructor; auto | exact H].
    + destruct (char_eqb c newline) eqn:E; [|discriminate].
      apply Ascii.eqb_eq in E. subst c.
      exists prev, [newline]. split; [constructor; auto | exact H].
Qed.

(** Completeness: when the matcher gives up, no match satisfies [k]. *)
Lemma rmatch_none r : forall prev s (k : cont A),
  rmatch i r prev s k = None ->
  forall prev' s', Matches i r prev s prev' s' -> k prev' s' = None.
Proof.
  induction r as [|c|p|r1 IH1 r2 IH2|r1 IH1 r2 IH2|r IH|p lo hi| | |];
    intros prev s k H prev' s' M; inversion M; subst; simpl in H;
    unfold or_else in H;
    repeat match goal with
           | E : ?b = true, G : context [if ?b then _ else _] |- _ =>
               rewrite E in G
           end;
    try exact H.
  - match goal with
    | M1 : Matches _ r1 _ _ _ _ |- _ => pose proof (IH1 _ _ _ H _ _ M1) as H1
    end.
    cbv beta in H1. eapply IH2; eassumption.
  - destruct (rmatch i r1 prev s k) eqn:E; [discriminate|].
    eapply IH1; eassumption.
  - destruct (rmatch i r1 prev s k) eqn:E; [discriminate|].
    eapply IH2; eassumption.
  - destruct (rmatch i r prev s k) eqn:E; [discriminate|].
    eapply IH; eassumption.
  - destruct (rmatch i r prev' s' k) eqn:E; [discriminate|]. exact H.
  - rename H into Hm.
    match goal with P : forallb p cs = true |- _ => rename P into HP end.
    match goal with P : lo <= _ |- _ => rename P into HL end.
    match goal with P : within _ _ _ |- _ => rename P into HW end.
    assert (L1 : List.length (firstn lo cs) = lo)
      by (apply firstn_length_le; exact HL).
    assert (E : cs = firstn lo cs ++ skipn lo cs)
      by (symmetry; apply firstn_skipn).
    clear M HL.
    remember (firstn lo cs) as c1 eqn:E1.
    remember (skipn lo cs) as c2 eqn:E2.
    clear E1 E2. subst cs.
    rewrite forallb_app in HP. apply andb_prop in HP.
    destruct HP as [P1 P2].
    rewrite <- app_assoc in Hm.
    pose proof (rep_exact_none _ _ _ _ _ _ Hm P1 L1) as H1.
    cbv beta in H1. rewrite last_char_app.
    apply (rep_greedy_none _ _ _ _ _ _ H1 P2).
    rewrite length_app, L1 in HW. destruct hi; simpl in *; lia.
  - match goal with
    | D : _ \/ _ |- _ => destruct D as [-> | ->]; [exact H|]
    end.
    simpl in H. exact H.
Qed.
End MatcherCorrect.

(* ------------------------------------------------------------------ *)
(** * Characters and text *)

Ltac each_char c :=
  destruct c as [[] [] [] [] [] [] [] []]; vm_compute; try reflexivity;
  try discriminate; auto.

Lemma text_eqb_eq (a b : text) : text_eqb a b = true <-> a = b.
Proof.
  revert b. induction a as [|x a IH]; intros [|y b]; simpl;
    try (split; [discriminate | discriminate]); [tauto|].
  rewrite andb_true_iff. unfold char_eqb. rewrite Ascii.eqb_eq, IH.
  split; [intros [-> ->]; reflexivity | intros E; injection E; auto].
Qed.

Lemma text_eqb_refl (a : text) : text_eqb a a = true.
Proof. apply text_eqb_eq. reflexivity. Qed.

Lemma text_eqb_sym (a b : text) : text_eqb a b = text_eqb b a.
Proof.
  destruct (text_eqb a b) eqn:E1, (text_eqb b a) eqn:E2; auto.
  - apply text_eqb_eq in E1. subst. rewrite text_eqb_refl in E2. discriminate.
  - apply text_eqb_eq in E2. subst. rewrite text_eqb_refl in E1. discriminate.
Qed.

Lemma lower_char_not_upper (c : ascii) : is_upper (lower_char c) = false.
Proof. each_char c. Qed.

Lemma lower_char_word (c : ascii) :
  is_lower (lower_char c) = true -> is_word c = true.
Proof. each_char c. Qed.

Lemma space_not_word (c : ascii) : is_word c = true -> is_space c = false.
Proof. each_char c. Qed.

Lemma six_to_nine_digit (c : ascii) : is_6_to_9 c = true -> is_digit c = true.
Proof. each_char c. Qed.

Lemma canonical_lower (c : ascii) :
  is_canonical c = true -> lower_char c = c.
Proof. each_char c. Qed.

Lemma canonical_not_space (c : ascii) :
  is_canonical c = true -> is_space c = false.
Proof. each_char c. Qed.

(* ------------------------------------------------------------------ *)
(** * Column names *)

Lemma match_len_non_identifier prev c s :
  match_len non_identifier prev (c :: s)
  = if is_word c then None else Some 1.
Proof.
  unfold match_len. cbn [ignorecase expr non_identifier rmatch].
  destruct (is_word c); cbn [negb]; [reflexivity|].
  f_equal. cbn [List.length]. lia.
Qed.

Lemma sub_non_identifier s : forall prev,
  sub_scan non_identifier (T "_") prev s 0 = map underscore_outside s.
Proof.
  induction s as [|c s IH]; intros prev; [reflexivity|].
  cbn [sub_scan map]. rewrite match_len_non_identifier.
  unfold underscore_outside at 1. destruct (is_word c); rewrite IH; reflexivity.
Qed.

Lemma standardize_name_map (n : text) :
  standardize_name n = map underscore_outside (lower (strip n)).
Proof. apply sub_non_identifier. Qed.

Lemma standardize_name_canonical (n : text) :
  forallb is_canonical (standardize_name n) = true.
Proof.
  rewrite standardize_name_map. unfold lower. rewrite map_map.
  induction (strip n) as [|c s IH]; [reflexivity|]. simpl. rewrite IH.
  rewrite andb_true_r. unfold underscore_outside, is_canonical.
  destruct (is_word (lower_char c)) eqn:E.
  - rewrite E, lower_char_not_upper. reflexivity.
  - reflexivity.
Qed.

Lemma lstrip_canonical (s : text) :
  forallb is_canonical s = true -> lstrip s = s.
Proof.
  destruct s as [|c s]; [reflexivity|]. simpl. intros H.
  apply andb_prop in H. destruct H as [H _].
  rewrite (canonical_not_space _ H). reflexivity.
Qed.

Lemma strip_canonical (s : text) :
  forallb is_canonical s = true -> strip s = s.
Proof.
  intros H. unfold strip, rstrip. rewrite (lstrip_canonical _ H).
  rewrite lstrip_canonical; [apply rev_involutive|].
  apply forallb_forall. intros c Hc. apply in_rev in Hc.
  rewrite forallb_forall in H. auto.
Qed.

Lemma standardize_name_fixed (s : text) :
  forallb is_canonical s = true -> standardize_name s = s.
Proof.
  intros H. rewrite standardize_name_map, (strip_canonical _ H).
  unfold lower. rewrite map_map.
  induction s as [|c s IH]; [reflexivity|]. simpl in *.
  apply andb_prop in H. destruct H as [Hc H]. rewrite (IH H).
  rewrite (canonical_lower _ Hc). unfold underscore_outside.
  unfold is_canonical in Hc. apply andb_prop in Hc. destruct Hc as [-> _].
  reflexivity.
Qed.

Lemma standardize_name_idempotent (n : text) :
  standardize_name (standardize_name n) = standardize_name n.
Proof. apply standardize_name_fixed, standardize_name_canonical. Qed.


(* ------------------------------------------------------------------ *)
(** * Titles *)

Ltac invM :=
  repeat match goal with
         | H : Matches _ Eps _ _ _ _ |- _ => inversion H; clear H; subst
         | H : Matches _ (Lit _) _ _ _ _ |- _ => inversion H; clear H; subst
         | H : Matches _ (Cls _) _ _ _ _ |- _ => inversion H; clear H; subst
         | H : Matches _ (Cat _ _) _ _ _ _ |- _ => inversion H; clear H; subst
         | H : Matches _ (Alt _ _) _ _ _ _ |- _ => inversion H; clear H; subst
         | H : Matches _ (Opt _) _ _ _ _ |- _ => inversion H; clear H; subst
         | H : Matches _ (Rep _ _ _) _ _ _ _ |- _ =>
             inversion H; clear H; subst
         | H : Matches _ WordB _ _ _ _ |- _ => inversion H; clear H; subst
         | H : Matches _ Bol _ _ _ _ |- _ => inversion H; clear H; subst
         | H : Matches _ Eol _ _ _ _ |- _ => inversion H; clear H; subst
         end.

Lemma lit_eqb_word (c x : ascii) :
  is_lower c = true -> lit_eqb true c x = true -> is_word x = true.
Proof.
  unfold lit_eqb, char_eqb. intros Hc H. apply Ascii.eqb_eq in H.
  apply lower_char_word. rewrite <- H.
  revert Hc. each_char c.
Qed.

Lemma boundary_before_word prev x s :
  is_word x = true ->
  xorb (is_word_at prev) (is_word_at (hd_error (x :: s))) = true ->
  negb (is_word_at prev) = true.
Proof. simpl. intros ->. destruct (is_word_at prev); auto. Qed.

(** A match of the title pattern starts with an honorific at a word
    boundary and has at least two characters. *)
Lemma title_match_inv prev s n :
  match_len title_pattern prev s = Some n ->
  title_here prev s = true /\ 2 <= n.
Proof.
  unfold match_len. intros H.
  apply rmatch_some in H. destruct H as (p' & s' & M & Hk).
  injection Hk as <-. cbn in M. invM;
    (split;
     [ unfold title_here; apply andb_true_intro; split;
       [ eapply boundary_before_word; [|eassumption];
         eapply lit_eqb_word; [|eassumption]; reflexivity
       | unfold lit_eqb in *; cbn;
         repeat match goal with
                | E : char_eqb _ _ = true |- _ => cbn in E; rewrite E; clear E
                end;
         cbn; rewrite ?orb_true_r; reflexivity ]
     | cbn [List.length]; rewrite ?length_app; cbn [List.length]; lia ]).
Qed.

Lemma prefix_ci_two a b s :
  prefix_ci [a; b] s = true ->
  exists x y r, s = x :: y :: r /\ lit_eqb true a x = true
                /\ lit_eqb true b y = true.
Proof.
  destruct s as [|x [|y r]]; cbn [prefix_ci]; try discriminate.
  - rewrite andb_false_r. discriminate.
  - rewrite andb_true_r. intros H. apply andb_prop in H.
    exists x, y, r. unfold lit_eqb. tauto.
Qed.

Lemma prefix_ci_shorter a b more s :
  prefix_ci (a :: b :: more) s = true -> prefix_ci [a; b] s = true.
Proof.
  destruct s as [|x [|y r]]; cbn [prefix_ci]; try discriminate.
  - rewrite andb_false_r. discriminate.
  - intros E. apply andb_prop in E. destruct E as [-> E].
    apply andb_prop in E. destruct E as [-> _]. reflexivity.
Qed.

Lemma prefix_ci_four a b c d s :
  prefix_ci [a; b; c; d] s = true ->
  exists x y z w r, s = x :: y :: z :: w :: r
    /\ lit_eqb true a x = true /\ lit_eqb true b y = true
    /\ lit_eqb true c z = true /\ lit_eqb true d w = true.
Proof.
  destruct s as [|x [|y [|z [|w r]]]]; cbn [prefix_ci];
    rewrite ?andb_false_r; try discriminate.
  rewrite andb_true_r. intros E.
  repeat (apply andb_prop in E; destruct E as [? E]).
  exists x, y, z, w, r. unfold lit_eqb. auto.
Qed.

Lemma tail_matches prev s :
  Matches true (Cat (Opt (Lit (char "."))) (Rep is_space 0 None))
    prev s prev s.
Proof.
  eapply M_Cat; [apply M_OptNone|].
  apply (M_Rep true is_space 0 None prev [] s); simpl; auto.
Qed.

Lemma title_matches_two a b prev x y r :
  negb (is_word_at prev) = true -> is_lower a = true ->
  lit_eqb true a x = true -> lit_eqb true b y = true ->
  forall alts,
    (forall p0 s0 p1 s1,
        Matches true (lit [a; b]) p0 s0 p1 s1 -> Matches true alts p0 s0 p1 s1) ->
    Matches true
      (Cat WordB (Cat alts (Cat (Opt (Lit (char "."))) (Rep is_space 0 None))))
      prev (x :: y :: r) (Some y) r.
Proof.
  intros Hb Ha Hx Hy alts Halt.
  eapply M_Cat.
  - apply M_WordB. simpl. rewrite (lit_eqb_word a x Ha Hx).
    destruct (is_word_at prev); [discriminate|reflexivity].
  - eapply M_Cat; [|apply tail_matches].
    apply Halt. simpl. eapply M_Cat; apply M_Lit; assumption.
Qed.

(** Where an honorific starts at a word boundary the pattern matches. *)
Lemma title_match_exists prev s :
  title_here prev s = true -> match_len title_pattern prev s <> None.
Proof.
  unfold title_here. intros H. apply andb_prop in H. destruct H as [Hb Ht].
  assert (M : exists p' s',
             Matches true (expr title_pattern) prev s p' s').
  { unfold honorifics in Ht. cbn [existsb] in Ht. rewrite orb_false_r in Ht.
    pose proof (prefix_ci_shorter (char "m") (char "r") [char "s"] s) as Hmr.
    pose proof (prefix_ci_four (char "s") (char "h") (char "r") (char "i") s)
      as Hsh.
    repeat (apply orb_prop in Ht; destruct Ht as [Ht | Ht]).
    - apply (prefix_ci_two (char "m") (char "r")) in Ht.
      destruct Ht as (x & y & r & -> & Hx & Hy).
      do 2 eexists. apply (title_matches_two (char "m") (char "r"));
        auto. intros. apply M_AltL. assumption.
    - apply Hmr, prefix_ci_two in Ht.
      destruct Ht as (x & y & r & -> & Hx & Hy).
      do 2 eexists. apply (title_matches_two (char "m") (char "r"));
        auto. intros. apply M_AltL. assumption.
    - apply (prefix_ci_two (char "d") (char "r")) in Ht.
      destruct Ht as (x & y & r & -> & Hx & Hy).
      do 2 eexists. apply (title_matches_two (char "d") (char "r"));
        auto. intros. apply M_AltR, M_AltR, M_AltL. assumption.
    - apply (prefix_ci_two (char "m") (char "s")) in Ht.
      destruct Ht as (x & y & r & -> & Hx & Hy).
      do 2 eexists. apply (title_matches_two (char "m") (char "s"));
        auto. intros. apply M_AltR, M_AltR, M_AltR, M_AltL. assumption.
    - apply Hsh in Ht.
      destruct Ht as (x & y & z & w & r & -> & Hx & Hy & Hz & Hw).
      exists (Some w), r. simpl. eapply M_Cat.
      + apply M_WordB. simpl.
        rewrite (lit_eqb_word (char "s") x eq_refl Hx).
        destruct (is_word_at prev); [discriminate|reflexivity].
      + eapply M_Cat; [|apply tail_matches].
        apply M_AltR, M_AltR, M_AltR, M_AltR.
        eapply M_Cat; [apply M_Lit; eassumption|].
        eapply M_Cat; [apply M_Lit; eassumption|].
        eapply M_Cat; apply M_Lit; eassumption. }
  destruct M as (p' & s' & M). unfold match_len. intros Hn.
  pose proof (rmatch_none _ _ _ _ _ _ Hn _ _ M) as Hk. discriminate.
Qed.

(** The matcher's answer at one position. *)
Lemma title_match_cases prev s :
  (title_here prev s = true /\
   exists n, match_len title_pattern prev s = Some (S (S n)))
  \/ (title_here prev s = false /\ match_len title_pattern prev s = None).
Proof.
  destruct (match_len title_pattern prev s) as [n|] eqn:E.
  - destruct (title_match_inv _ _ _ E) as [Ht Hn]. left. split; [exact Ht|].
    destruct n as [|[|n]]; try lia. eauto.
  - right. split; [|reflexivity].
    destruct (title_here prev s) eqn:Ht; [|reflexivity].
    exfalso. exact (title_match_exists _ _ Ht E).
Qed.

Lemma sub_scan_title_free s : forall prev,
  title_free prev s = true -> sub_scan title_pattern [] prev s 0 = s.
Proof.
  induction s as [|c s IH]; intros prev H; [reflexivity|].
  cbn [title_free] in H. apply andb_prop in H. destruct H as [Hh Hf].
  cbn [sub_scan].
  destruct (title_match_cases prev (c :: s)) as [[Ht _] | [_ ->]].
  - rewrite Ht in Hh. discriminate.
  - rewrite (IH _ Hf). reflexivity.
Qed.

Lemma sub_scan_length p s : forall prev k,
  List.length (sub_scan p [] prev s k) <= List.length s.
Proof.
  induction s as [|c s IH]; intros prev k; [simpl; lia|].
  cbn [sub_scan]. destruct k as [|k].
  - destruct (match_len p prev (c :: s)) as [[|n]|]; cbn [List.length app].
    + specialize (IH (Some c) 0). lia.
    + specialize (IH (Some c) n). lia.
    + specialize (IH (Some c) 0). lia.
  - specialize (IH (Some c) k). cbn [List.length]. lia.
Qed.

Lemma sub_scan_title_shorter s : forall prev,
  title_free prev s = false ->
  List.length (sub_scan title_pattern [] prev s 0) < List.length s.
Proof.
  induction s as [|c s IH]; intros prev H; [discriminate|].
  cbn [title_free] in H. cbn [sub_scan].
  destruct (title_match_cases prev (c :: s)) as [[Ht [n ->]] | [Ht ->]].
  - cbn [app List.length].
    pose proof (sub_scan_length title_pattern s (Some c) (S n)). lia.
  - rewrite Ht in H. simpl in H. specialize (IH _ H).
    cbn [List.length]. lia.
Qed.

Lemma title_free_positions s : forall prev,
  title_free prev s = true <->
  (forall i, i < List.length s ->
             title_here (prev_at prev s i) (skipn i s) = false).
Proof.
  induction s as [|c s IH]; intros prev.
  - simpl. split; [intros _ i Hi; lia | reflexivity].
  - cbn [title_free]. rewrite andb_true_iff, negb_true_iff, IH. split.
    + intros [H0 Hs] [|i] Hi; [exact H0|].
      cbn [List.length] in Hi. specialize (Hs i ltac:(lia)).
      destruct i; exact Hs.
    + intros H. split; [apply (H 0); simpl; lia|].
      intros i Hi. specialize (H (S i)). cbn [List.length] in H.
      specialize (H ltac:(lia)). destruct i; exact H.
Qed.

(** A cell comes back unchanged exactly when no honorific starts at a word
    boundary anywhere in it. *)
Lemma strip_titles_unchanged_iff (s : text) :
  strip_titles s = s <->
  (forall i, i < List.length s -> title_at s i = false).
Proof.
  unfold strip_titles, re_sub, title_at.
  change (forall i, i < List.length s ->
            title_here match i with O => None | S j => nth_error s j end
                       (skipn i s) = false)
    with (forall i, i < List.length s ->
            title_here (prev_at None s i) (skipn i s) = false).
  rewrite <- title_free_positions. split.
  - intros E. destruct (title_free None s) eqn:F; [reflexivity|].
    pose proof (sub_scan_title_shorter s None F) as L.
    rewrite E in L. lia.
  - apply sub_scan_title_free.
Qed.

(* ------------------------------------------------------------------ *)
(** * Phone numbers *)

Lemma ten_digits_intro d ds :
  is_6_to_9 d = true -> forallb is_digit ds = true -> List.length ds = 9 ->
  ten_digits (d :: ds) = true.
Proof.
  intros Hd Hds Hl. unfold ten_digits. cbn [List.length forallb].
  rewrite Hl, Hd, (six_to_nine_digit _ Hd), Hds. reflexivity.
Qed.

Lemma ten_digits_elim s :
  ten_digits s = true ->
  exists d ds, s = d :: ds /\ is_6_to_9 d = true
               /\ forallb is_digit ds = true /\ List.length ds = 9.
Proof.
  unfold ten_digits. destruct s as [|d ds]; [rewrite andb_false_r; discriminate|].
  cbn [List.length forallb]. intros H.
  apply andb_prop in H. destruct H as [H Hd].
  apply andb_prop in H. destruct H as [Hl H].
  apply andb_prop in H. destruct H as [_ Hds].
  apply Nat.eqb_eq in Hl. exists d, ds. repeat split; auto.
Qed.

Lemma plus91 (a b c : ascii) :
  lit_eqb false (char "+") a = true -> lit_eqb false (char "9") b = true ->
  lit_eqb false (char "1") c = true -> text_eqb [a; b; c] (T "+91") = true.
Proof.
  unfold lit_eqb, char_eqb. intros Ha Hb Hc.
  apply Ascii.eqb_eq in Ha, Hb, Hc. subst. reflexivity.
Qed.

Lemma digits_then_end prev d ds :
  is_6_to_9 d = true -> forallb is_digit ds = true -> List.length ds = 9 ->
  Matches false (Cat (Cls is_6_to_9) (Cat (Rep is_digit 9 (Some 9)) Eol))
    prev (d :: ds) (last_char (Some d) ds) [].
Proof.
  intros Hd Hds Hl. eapply M_Cat; [apply M_Cls; exact Hd|].
  eapply M_Cat; [|apply M_Eol; auto].
  rewrite <- (app_nil_r ds) at 1.
  apply M_Rep; [exact Hds | lia | simpl; lia].
Qed.

(** The pattern of the phone validator says what the specification says. *)
Lemma phone_pattern_spec (s : text) : phone_matches s = phone_spec s.
Proof.
  unfold phone_matches, fullmatch.
  destruct (rmatch _ _ _ _ _) as [[]|] eqn:E.
  - symmetry. apply rmatch_some in E. destruct E as (p' & s' & M & Hk).
    destruct s' as [|? ?]; [clear Hk|discriminate].
    cbn in M. invM;
      repeat match goal with
             | H : _ \/ _ |- _ => destruct H as [H | H]; try discriminate H
             | H : [] = _ ++ _ |- _ =>
                 symmetry in H; apply app_eq_nil in H; destruct H; subst
             | H : _ ++ _ = [] |- _ =>
                 apply app_eq_nil in H; destruct H; subst
             end;
      rewrite ?app_nil_r in *; unfold phone_spec.
    + (* with the country code *)
      match goal with
      | L : _ <= List.length ?cs, W : within (Some 1) 0 (List.length ?cs),
        P : forallb is_dash_or_space ?cs = true |- _ =>
          destruct cs as [|sep [|? ?]]; simpl in W; try lia; clear L W
      end; cbn [app];
        erewrite plus91 by eassumption; cbn [andb];
        match goal with
        | W : within (Some 9) 9 (List.length ?ds) |- _ =>
            simpl in W;
            assert (List.length ds = 9) by lia
        end.
      * match goal with
        | Hd : is_6_to_9 ?d = true, Hds : forallb is_digit ?ds = true |- _ =>
            rewrite (ten_digits_intro d ds Hd Hds) by assumption
        end.
        cbn [orb]. apply orb_true_r.
      * match goal with
        | P : forallb is_dash_or_space [_] = true |- _ =>
            cbn [forallb] in P; rewrite andb_true_r in P; rewrite P
        end.
        match goal with
        | Hd : is_6_to_9 ?d = true, Hds : forallb is_digit ?ds = true |- _ =>
            rewrite (ten_digits_intro d ds Hd Hds) by assumption
        end.
        cbn [andb orb]. rewrite !orb_true_r. reflexivity.
    + (* without *)
      match goal with
      | W : within (Some 9) 9 (List.length ?ds) |- _ =>
          simpl in W; assert (List.length ds = 9) by lia
      end.
      match goal with
        | Hd : is_6_to_9 ?d = true, Hds : forallb is_digit ?ds = true |- _ =>
            rewrite (ten_digits_intro d ds Hd Hds) by assumption
        end. reflexivity.
  - destruct (phone_spec s) eqn:P; [exfalso|reflexivity].
    assert (M : exists p', Matches false (expr phone_pattern) None s p' []).
    { unfold phone_spec in P. apply orb_prop in P. destruct P as [P | P].
      - apply ten_digits_elim in P. destruct P as (d & ds & -> & Hd & Hds & Hl).
        eexists. cbn. eapply M_Cat; [apply M_Bol|].
        eapply M_Cat; [apply M_OptNone|].
        apply digits_then_end; assumption.
      - destruct s as [|a [|b [|c t]]]; try discriminate.
        apply andb_prop in P. destruct P as [Hcc P].
        apply text_eqb_eq in Hcc. injection Hcc as -> -> ->.
        apply orb_prop in P. destruct P as [P | P].
        + apply ten_digits_elim in P.
          destruct P as (d & ds & -> & Hd & Hds & Hl).
          eexists. cbn. eapply M_Cat; [apply M_Bol|].
          eapply M_Cat.
          { apply M_OptSome.
            eapply M_Cat;
              [eapply M_Cat; [|eapply M_Cat]; apply M_Lit; reflexivity|].
            apply (M_Rep false is_dash_or_space 0 (Some 1) _ [] (d :: ds));
              simpl; auto. }
          apply digits_then_end; assumption.
        + destruct t as [|sep t]; [discriminate|].
          apply andb_prop in P. destruct P as [Hsep P].
          apply ten_digits_elim in P.
          destruct P as (d & ds & -> & Hd & Hds & Hl).
          eexists. cbn. eapply M_Cat; [apply M_Bol|].
          eapply M_Cat.
          { apply M_OptSome.
            eapply M_Cat;
              [eapply M_Cat; [|eapply M_Cat]; apply M_Lit; reflexivity|].
            apply (M_Rep false is_dash_or_space 0 (Some 1) _ [sep] (d :: ds));
              simpl; auto. rewrite Hsep. reflexivity. }
          apply digits_then_end; assumption. }
    destruct M as (p' & M).
    pose proof (rmatch_none _ _ _ _ _ _ E _ _ M) as Hk. discriminate.
Qed.

Example strip_titles_leading :
  strip_titles (T "Dr. Jane Smith") = T "Jane Smith".
Proof. vm_compute. reflexivity. Qed.

Example strip_titles_mid :
  strip_titles (T "Jane Dr. Smith") = T "Jane Smith".
Proof. vm_compute. reflexivity. Qed.

Example phone_ex1 : phone_matches (T "+91-9876543210") = true.
Proof. vm_compute. reflexivity. Qed.

Example phone_ex2 : phone_matches (T "5876543210") = false.
Proof. vm_compute. reflexivity. Qed.

Example phone_ex3 : phone_matches [] = false.
Proof. vm_compute. reflexivity. Qed.

Example standardize_name_ex :
  standardize_name (T "  First Name (EN) ") = T "first_name__en_".
Proof. vm_compute. reflexivity. Qed.

(* ------------------------------------------------------------------ *)
(** * Frames: reading and writing a column *)

Lemma bind_ok {A B : Type} (m : result A) (f : A -> result B) b :
  bind m f = Ok b -> exists a, m = Ok a /\ f a = Ok b.
Proof. destruct m as [a|e]; simpl; [eauto | discriminate]. Qed.

Lemma getitem_setitem_same df col s :
  getitem (setitem df col s) col = Ok s.
Proof.
  induction df as [|[n s0] df IH]; simpl.
  - rewrite text_eqb_refl. reflexivity.
  - destruct (text_eqb n col) eqn:E; simpl; rewrite E; auto.
Qed.

Lemma getitem_setitem_other df col s col' :
  text_eqb col col' = false ->
  getitem (setitem df col s) col' = getitem df col'.
Proof.
  intros Hne. induction df as [|[n s0] df IH]; simpl.
  - rewrite Hne. reflexivity.
  - destruct (text_eqb n col) eqn:E; simpl.
    + apply text_eqb_eq in E. subst n. rewrite Hne. reflexivity.
    + rewrite IH. reflexivity.
Qed.

Lemma getitem_has_column df col :
  has_column df col = true <-> exists s, getitem df col = Ok s.
Proof.
  unfold has_column, columns. induction df as [|[n s0] df IH]; simpl.
  - split; [discriminate | intros [s H]; discriminate].
  - destruct (text_eqb n col); simpl; [split; eauto | exact IH].
Qed.

Lemma columns_setitem df col s :
  has_column df col = true -> columns (setitem df col s) = columns df.
Proof.
  unfold has_column, columns. induction df as [|[n s0] df IH]; simpl.
  - discriminate.
  - destruct (text_eqb n col); simpl; [reflexivity|].
    intros H. rewrite IH; auto.
Qed.

Lemma getitem_In df col s : getitem df col = Ok s -> In (col, s) df.
Proof.
  induction df as [|[n s0] df IH]; simpl; [discriminate|].
  destruct (text_eqb n col) eqn:E.
  - apply text_eqb_eq in E. intros [= ->]. subst. auto.
  - auto.
Qed.

(* ------------------------------------------------------------------ *)
(** * C1: the Title Stripper *)




(* ------------------------------------------------------------------ *)
(** * C5: the phone validator *)



(* ------------------------------------------------------------------ *)
(** * Boolean indexing and rows *)

Lemma mask_filter_map {A B : Type} (f : A -> B) m : forall l,
  mask_filter m (map f l) = map f (mask_filter m l).
Proof.
  induction m as [|b m IH]; intros [|x l]; simpl; auto.
  destruct b; simpl; rewrite IH; reflexivity.
Qed.

Lemma mask_filter_of_map {A : Type} (p : A -> bool) (l : list A) :
  mask_filter (map p l) l = filter p l.
Proof.
  induction l as [|x l IH]; simpl; [reflexivity|].
  destruct (p x); rewrite IH; reflexivity.
Qed.

Lemma mask_filter_length {A : Type} m : forall l : list A,
  List.length (mask_filter m l) <= List.length l.
Proof.
  induction m as [|b m IH]; intros [|x l]; simpl; try lia.
  specialize (IH l). destruct b; simpl; lia.
Qed.

(** A list is the list of its elements by position. *)
Lemma map_nth_seq {A B : Type} (f : A -> B) (d : A) (l : list A) :
  map (fun j => f (nth j l d)) (seq 0 (List.length l)) = map f l.
Proof.
  induction l as [|x l IH]; [reflexivity|].
  cbn [List.length seq map nth]. f_equal.
  rewrite <- seq_shift, map_map. exact IH.
Qed.

(** What is kept of a list are the elements at the kept positions. *)
Lemma mask_filter_positions {A : Type} (d : A) m : forall (l : list A),
  List.length m = List.length l ->
  mask_filter m l
  = map (fun i => nth i l d) (mask_filter m (seq 0 (List.length l))).
Proof.
  induction m as [|b m IH]; intros [|x l] Hl; try discriminate;
    [reflexivity|].
  cbn [List.length seq mask_filter]. injection Hl as Hl.
  rewrite <- seq_shift, mask_filter_map.
  destruct b; cbn [map nth]; rewrite map_map; rewrite (IH l Hl);
    reflexivity.
Qed.

Lemma zip_with_maps {A B C D : Type} (f : B -> C -> D)
      (g : A -> B) (h : A -> C) (l : list A) :
  zip_with f (map g l) (map h l) = map (fun x => f (g x) (h x)) l.
Proof. induction l as [|x l IH]; simpl; [|rewrite IH]; reflexivity. Qed.

Lemma map_const_seq {A : Type} (x : A) a n :
  map (fun _ => x) (seq a n) = repeat x n.
Proof.
  revert a. induction n as [|n IH]; intros a; simpl; [|rewrite IH];
    reflexivity.
Qed.

Lemma filter_of_map {A B : Type} (q : B -> bool) (g : A -> B) (l : list A) :
  filter q (map g l) = map g (filter (fun x => q (g x)) l).
Proof.
  induction l as [|x l IH]; simpl; [reflexivity|].
  destruct (q (g x)); simpl; rewrite IH; reflexivity.
Qed.

Lemma aligned_length df col s :
  aligned df -> getitem df col = Ok s -> List.length (values s) = nrows df.
Proof. intros Ha Hg. apply (Ha (col, s)), getitem_In, Hg. Qed.

Lemma rows_length df : List.length (rows df) = nrows df.
Proof. unfold rows. rewrite length_map, length_seq. reflexivity. Qed.

Lemma row_get_row_at df col s i :
  getitem df col = Ok s -> row_get (row_at df i) col = Some (cell_at s i).
Proof.
  unfold row_at. induction df as [|[n s0] df IH]; simpl; [discriminate|].
  destruct (text_eqb n col); [intros [= ->]; reflexivity | exact IH].
Qed.

Lemma select_rows_columns m df : columns (select_rows m df) = columns df.
Proof.
  unfold select_rows, columns. rewrite map_map. reflexivity.
Qed.

Lemma select_rows_nrows m df :
  aligned df -> List.length m = nrows df ->
  nrows (select_rows m df)
  = List.length (mask_filter m (seq 0 (nrows df))).
Proof.
  intros Ha Hm. destruct df as [|[n s] df].
  - simpl in *. destruct m; [reflexivity|discriminate].
  - cbn [select_rows map nrows fst snd values].
    rewrite (mask_filter_positions (CMissing NaN)) by exact Hm.
    rewrite length_map. reflexivity.
Qed.

(** Selecting rows by a mask column by column selects the rows. *)
Lemma rows_select_rows m df :
  aligned df -> List.length m = nrows df ->
  rows (select_rows m df) = map (row_at df) (mask_filter m (seq 0 (nrows df))).
Proof.
  intros Ha Hm. unfold rows at 1. rewrite (select_rows_nrows m df Ha Hm).
  set (kept := mask_filter m (seq 0 (nrows df))).
  rewrite <- (map_nth_seq (row_at df) 0 kept).
  apply map_ext_in. intros j Hj. apply in_seq in Hj.
  unfold row_at, select_rows. rewrite map_map.
  apply map_ext_in. intros [n s] Hin. cbn [fst snd]. f_equal.
  unfold cell_at. cbn [values].
  pose proof (Ha _ Hin) as Hlen. cbn [snd] in Hlen.
  rewrite (mask_filter_positions (CMissing NaN)) by (rewrite Hlen; exact Hm).
  rewrite Hlen. fold kept.
  rewrite (nth_indep _ (CMissing NaN) (nth 0 (values s) (CMissing NaN)))
    by (rewrite length_map; lia).
  apply (map_nth (fun i => nth i (values s) (CMissing NaN))).
Qed.

Lemma rows_select_rows_mask m df :
  aligned df -> List.length m = nrows df ->
  rows (select_rows m df) = mask_filter m (rows df).
Proof.
  intros Ha Hm. rewrite (rows_select_rows m df Ha Hm).
  unfold rows. rewrite mask_filter_map. reflexivity.
Qed.

(* ------------------------------------------------------------------ *)
(** * C2: dropping the rows with missing values *)

Lemma notna_positions df col s :
  aligned df -> getitem df col = Ok s ->
  notna s = map (fun i => negb (isna (cell_at s i))) (seq 0 (nrows df)).
Proof.
  intros Ha Hg. unfold notna, cell_at.
  rewrite <- (aligned_length df col s Ha Hg).
  symmetry. apply (map_nth_seq (fun c => negb (isna c))).
Qed.

Lemma notna_all_rows df cols :
  aligned df -> forallb (has_column df) cols = true ->
  notna_all df cols
  = Ok (map (fun i => negb (row_missing_in cols (row_at df i)))
            (seq 0 (nrows df))).
Proof.
  intros Ha. induction cols as [|c cs IH]; intros Hc.
  - simpl. rewrite map_const_seq. reflexivity.
  - cbn [forallb] in Hc. apply andb_prop in Hc. destruct Hc as [Hc Hcs].
    apply getitem_has_column in Hc. destruct Hc as [s Hs].
    cbn [notna_all]. rewrite Hs, (IH Hcs). cbn [bind].
    rewrite (notna_positions df c s Ha Hs), zip_with_maps. f_equal.
    apply map_ext. intros i. unfold row_missing_in. cbn [existsb].
    rewrite (row_get_row_at df c s i Hs), negb_orb. reflexivity.
Qed.

(** C2.  With a list of columns to check, the drop removes exactly the rows
    that have a missing value in at least one of the listed columns: the
    rows of the result are the rows of the input without such a value, in
    their order, so a row whose missing values lie in other columns stays;
    there are no more rows than before and the columns are the same. *)
Theorem drop_rows_exactly_missing_in_subset
        (df : DataFrame) (drop_cols : list text) :
  aligned df -> drop_cols <> [] ->
  forallb (has_column df) drop_cols = true ->
  exists df',
    app_drop_rows df drop_cols = Ok df'
    /\ rows df'
       = filter (fun r => negb (row_missing_in drop_cols r)) (rows df)
    /\ (forall r, In r (rows df') <->
                  In r (rows df) /\ row_missing_in drop_cols r = false)
    /\ nrows df' <= nrows df
    /\ columns df' = columns df.
Proof.
  intros Ha _ Hc.
  set (mask := map (fun i => negb (row_missing_in drop_cols (row_at df i)))
                   (seq 0 (nrows df))).
  assert (E : rows (select_rows mask df)
              = filter (fun r => negb (row_missing_in drop_cols r)) (rows df)).
  { rewrite rows_select_rows
      by (auto; unfold mask; rewrite length_map, length_seq; reflexivity).
    unfold mask. rewrite mask_filter_of_map. unfold rows.
    rewrite filter_of_map. reflexivity. }
  exists (select_rows mask df). split; [|split; [exact E|split; [|split]]].
  - unfold app_drop_rows, dropna.
    rewrite (notna_all_rows df drop_cols Ha Hc). reflexivity.
  - intros r. rewrite E, filter_In, negb_true_iff. reflexivity.
  - rewrite <- !rows_length, E. apply filter_length_le.
  - apply select_rows_columns.
Qed.

(** The drop branch of main.py itself takes no list: it checks every
    column. *)
Lemma handle_missing_values_drop_any_column (df : DataFrame) method :
  aligned df ->
  exists df',
    handle_missing_values df (T "drop") method = Ok df'
    /\ rows df'
       = filter (fun r => negb (row_missing_in (columns df) r)) (rows df).
Proof.
  intros Ha.
  assert (Hc : forallb (has_column df) (columns df) = true).
  { apply forallb_forall. intros c Hc. unfold has_column.
    apply existsb_exists. exists c. split; [exact Hc | apply text_eqb_refl]. }
  set (mask := map (fun i => negb (row_missing_in (columns df) (row_at df i)))
                   (seq 0 (nrows df))).
  exists (select_rows mask df). split.
  - unfold handle_missing_values, dropna. simpl.
    rewrite (notna_all_rows df (columns df) Ha Hc). reflexivity.
  - rewrite rows_select_rows
      by (auto; unfold mask; rewrite length_map, length_seq; reflexivity).
    unfold mask. rewrite mask_filter_of_map. unfold rows.
    rewrite filter_of_map. reflexivity.
Qed.

(* ------------------------------------------------------------------ *)
(** * C9: duplicates *)

Lemma Qeq_bool_trans x y z :
  Qeq_bool x y = true -> Qeq_bool y z = true -> Qeq_bool x z = true.
Proof.
  rewrite !Qeq_bool_iff. intros H1 H2. rewrite H1. exact H2.
Qed.

Lemma Qeq_bool_symm x y : Qeq_bool x y = Qeq_bool y x.
Proof.
  destruct (Qeq_bool x y) eqn:E1, (Qeq_bool y x) eqn:E2; auto.
  - apply Qeq_bool_iff in E1. symmetry in E1. apply Qeq_bool_iff in E1.
    congruence.
  - apply Qeq_bool_iff in E2. symmetry in E2. apply Qeq_bool_iff in E2.
    congruence.
Qed.

Lemma cell_same_trans a b c :
  cell_same a b = true -> cell_same b c = true -> cell_same a c = true.
Proof.
  unfold cell_same.
  destruct (key_num a) as [x|] eqn:Ea, (key_num b) as [y|] eqn:Eb,
           (key_num c) as [z|] eqn:Ec; try discriminate.
  - apply Qeq_bool_trans.
  - destruct a, b, c; try discriminate; auto.
    + intros H1 H2. apply text_eqb_eq in H1, H2. subst. apply text_eqb_refl.
    + intros H1 H2. apply Z.eqb_eq in H1, H2. subst. apply Z.eqb_refl.
Qed.

Lemma cell_same_symm a b : cell_same a b = cell_same b a.
Proof.
  unfold cell_same.
  destruct (key_num a) as [x|] eqn:Ea, (key_num b) as [y|] eqn:Eb; auto.
  - apply Qeq_bool_symm.
  - destruct a, b; auto; [apply text_eqb_sym | apply Z.eqb_sym].
Qed.

Lemma key_same_trans a : forall b c,
  key_same a b = true -> key_same b c = true -> key_same a c = true.
Proof.
  induction a as [|x a IH]; intros [|y b] [|z c]; simpl; auto;
    try discriminate.
  intros H1 H2. apply andb_prop in H1, H2.
  destruct H1 as [H1 H1'], H2 as [H2 H2'].
  rewrite (cell_same_trans _ _ _ H1 H2), (IH _ _ H1' H2'). reflexivity.
Qed.

Lemma key_same_symm a : forall b, key_same a b = key_same b a.
Proof.
  induction a as [|x a IH]; intros [|y b]; simpl; auto.
  rewrite cell_same_symm, IH. reflexivity.
Qed.

Lemma existsb_ext_in {B : Type} (f g : B -> bool) (l : list B) :
  (forall x, In x l -> f x = g x) -> existsb f l = existsb g l.
Proof.
  induction l as [|x l IH]; intros H; simpl; [reflexivity|].
  rewrite (H x) by (left; reflexivity).
  rewrite IH by (intros y Hy; apply H; right; exact Hy). reflexivity.
Qed.

Lemma existsb_seq_S (f : nat -> bool) n :
  existsb f (seq 0 (S n)) = f 0 || existsb (fun j => f (S j)) (seq 0 n).
Proof.
  cbn [seq existsb]. f_equal. rewrite <- seq_shift.
  induction (seq 0 n) as [|x l IH]; simpl; [|rewrite IH]; reflexivity.
Qed.

(** Position [i] of the duplicate mask: the key has been seen, before the
    scan or at an earlier position. *)
Lemma dup_scan_nth keys : forall seen i,
  i < List.length keys ->
  nth i (dup_scan seen keys) false
  = existsb (key_same (nth i keys [])) seen
    || existsb (fun j => key_same (nth i keys []) (nth j keys [])) (seq 0 i).
Proof.
  induction keys as [|k0 ks IH]; intros seen i Hi; [simpl in Hi; lia|].
  destruct i as [|i].
  - cbn [dup_scan]. destruct (existsb (key_same k0) seen) eqn:E;
      cbn [nth seq existsb]; rewrite ?E; rewrite orb_false_r; auto.
  - cbn [List.length] in Hi. rewrite existsb_seq_S. cbn [nth dup_scan].
    set (ki := nth i ks []).
    destruct (existsb (key_same k0) seen) eqn:E; cbn [nth].
    + rewrite (IH seen i) by lia. fold ki.
      destruct (key_same ki k0) eqn:E0; [|reflexivity].
      assert (Es : existsb (key_same ki) seen = true).
      { apply existsb_exists in E. destruct E as (s0 & Hin & Hs0).
        apply existsb_exists. exists s0. split; [exact Hin|].
        eapply key_same_trans; eassumption. }
      rewrite Es. reflexivity.
    + rewrite (IH (k0 :: seen) i) by lia. fold ki. cbn [existsb].
      destruct (key_same ki k0), (existsb (key_same ki) seen); reflexivity.
Qed.

Lemma dup_scan_length keys : forall seen,
  List.length (dup_scan seen keys) = List.length keys.
Proof.
  induction keys as [|k ks IH]; intros seen; simpl; [reflexivity|].
  destruct (existsb (key_same k) seen); simpl; rewrite IH; reflexivity.
Qed.

Lemma mask_filter_seq m :
  forall a,
  mask_filter m (seq a (List.length m))
  = filter (fun i => nth (i - a) m false) (seq a (List.length m)).
Proof.
  induction m as [|b m IH]; intros a; [reflexivity|].
  cbn [List.length seq mask_filter filter]. rewrite Nat.sub_diag. cbn [nth].
  rewrite (IH (S a)).
  assert (E : filter (fun i => nth (i - S a) m false) (seq (S a) (List.length m))
              = filter (fun i => nth (i - a) (b :: m) false)
                       (seq (S a) (List.length m))).
  { apply filter_ext_in. intros i Hi. apply in_seq in Hi.
    replace (i - a) with (S (i - S a)) by lia. reflexivity. }
  rewrite E. destruct b; reflexivity.
Qed.

(** The key the code reads from the columns is the key of the row. *)
Lemma key_at_row_key df subset i :
  key_at (key_columns df subset) i = row_key subset (row_at df i).
Proof.
  unfold key_at, key_columns, row_key, row_at.
  induction df as [|[n s] df IH]; [reflexivity|].
  cbn [filter map fst snd].
  destruct (existsb (fun c => text_eqb n c) subset); cbn [map snd];
    rewrite IH; reflexivity.
Qed.

Lemma seq_sorted a n : StronglySorted lt (seq a n).
Proof.
  revert a. induction n as [|n IH]; intros a; simpl; constructor; auto.
  apply Forall_forall. intros j Hj. apply in_seq in Hj. lia.
Qed.

Lemma ordered_pairs_of_filter {B : Type} (R : B -> B -> Prop)
      (g : nat -> B) (p : nat -> bool) (l : list nat) :
  StronglySorted lt l ->
  (forall i j, i < j -> p j = true -> R (g i) (g j)) ->
  ForallOrdPairs R (map g (filter p l)).
Proof.
  intros Hs HR. induction Hs as [|i l Hs IH Hall]; simpl; [constructor|].
  destruct (p i); [|exact IH]. cbn [map]. constructor; [|exact IH].
  apply Forall_forall. intros r Hr. apply in_map_iff in Hr.
  destruct Hr as (j & <- & Hj). apply filter_In in Hj. destruct Hj as [Hj Hp].
  rewrite Forall_forall in Hall. auto.
Qed.


(* ------------------------------------------------------------------ *)
(** * C3: imputing a column without values *)

Lemma text_eqb_neq (a b : text) : text_eqb a b = false <-> a <> b.
Proof.
  split.
  - intros E H. apply text_eqb_eq in H. congruence.
  - intros H. destruct (text_eqb a b) eqn:E; [|reflexivity].
    apply text_eqb_eq in E. contradiction.
Qed.

Lemma setitem_same df col s : getitem df col = Ok s -> setitem df col s = df.
Proof.
  induction df as [|[n s0] df IH]; simpl; [discriminate|].
  destruct (text_eqb n col); [intros [= ->]; reflexivity|].
  intros H. rewrite (IH H). reflexivity.
Qed.

Lemma impute_column_other method df col df' col' :
  impute_column method df col = Ok df' -> text_eqb col col' = false ->
  getitem df' col' = getitem df col'.
Proof.
  unfold impute_column. destruct method as [m|]; [|intros [= <-]; reflexivity].
  destruct (getitem df col) as [s|e]; [|discriminate]. cbn [bind].
  destruct (statistic m (present (values s))) as [r|];
    [|intros [= <-]; reflexivity].
  destruct r as [v|e]; [|discriminate]. cbn [bind].
  destruct (fillna s v) as [s'|e]; [|discriminate]. cbn [bind].
  intros [= <-] Hne. apply getitem_setitem_other, Hne.
Qed.

(** With mean or median a numeric column without values is left as it is:
    the statistic is NaN and fills nothing. *)
Lemma impute_all_missing_unchanged m df col s :
  m = T "mean" \/ m = T "median" ->
  getitem df col = Ok s -> present (values s) = [] ->
  impute_column (Some m) df col = Ok df.
Proof.
  intros Hm Hg Hp. unfold impute_column. rewrite Hg. cbn [bind]. rewrite Hp.
  destruct Hm as [-> | ->]; cbn; rewrite (setitem_same df col s Hg);
    reflexivity.
Qed.

Lemma impute_loop_mode_raises col s cols : forall df,
  In col cols -> getitem df col = Ok s -> present (values s) = [] ->
  exists e, impute_loop (Some (T "mode")) cols df = Raise e.
Proof.
  induction cols as [|c cs IH]; intros df Hin Hg Hp; [contradiction|].
  cbn [impute_loop].
  destruct (text_eqb c col) eqn:E.
  - apply text_eqb_eq in E. subst c.
    unfold impute_column. rewrite Hg. cbn [bind]. rewrite Hp. cbn. eauto.
  - destruct (impute_column (Some (T "mode")) df c) as [df'|e] eqn:Hc;
      cbn [bind]; [|eauto].
    apply IH; auto.
    + destruct Hin as [-> | Hin]; [|exact Hin].
      rewrite text_eqb_refl in E. discriminate.
    + rewrite (impute_column_other _ _ _ _ _ Hc E). exact Hg.
Qed.

Lemma numeric_columns_In df col s :
  getitem df col = Ok s -> is_numeric (dtype s) = true ->
  In col (numeric_columns df).
Proof.
  intros Hg Hn. unfold numeric_columns.
  apply in_map_iff. exists (col, s). split; [reflexivity|].
  apply filter_In. split; [apply getitem_In, Hg | exact Hn].
Qed.

(** With mode the same column makes the call fail: [mode()] is empty and
    [mode()[0]] raises, wherever the column stands in the frame. *)
Lemma impute_mode_all_missing_raises df col s :
  getitem df col = Ok s -> is_numeric (dtype s) = true ->
  present (values s) = [] ->
  exists e, handle_missing_values df (T "impute") (Some (T "mode")) = Raise e.
Proof.
  intros Hg Hn Hp. unfold handle_missing_values. cbn.
  eapply impute_loop_mode_raises; eauto using numeric_columns_In.
Qed.

(** C3, the failing input.  On a frame whose numeric column has no value,
    imputing with the mode raises KeyError, while mean and median return
    the frame unchanged. *)
Theorem impute_mode_raises_on_empty_column :
  handle_missing_values empty_scores_frame (T "impute") (Some (T "mode"))
  = Raise KeyError
  /\ handle_missing_values empty_scores_frame (T "impute") (Some (T "mean"))
     = Ok empty_scores_frame
  /\ handle_missing_values empty_scores_frame (T "impute") (Some (T "median"))
     = Ok empty_scores_frame.
Proof. repeat split; vm_compute; reflexivity. Qed.

(* ------------------------------------------------------------------ *)
(** * C4 and C10: type conversion *)

Lemma convert_one_series L df col ty s :
  getitem df col = Ok s ->
  convert_one L df col ty
  = (s' <- convert_series L ty s ;; Ok (setitem df col s')).
Proof.
  intros Hg. unfold convert_one, convert_series.
  destruct (text_eqb ty (T "int")); [rewrite Hg; reflexivity|].
  destruct (text_eqb ty (T "float")); [rewrite Hg; reflexivity|].
  destruct (text_eqb ty (T "str")); [rewrite Hg; reflexivity|].
  destruct (text_eqb ty (T "datetime")); [rewrite Hg; reflexivity|].
  cbn [bind]. rewrite (setitem_same df col s Hg). reflexivity.
Qed.

Lemma convert_one_other L df col ty df' col' :
  convert_one L df col ty = Ok df' -> text_eqb col col' = false ->
  getitem df' col' = getitem df col'.
Proof.
  intros H Hne. unfold convert_one in H.
  repeat match type of H with
         | (if ?b then _ else _) = _ => destruct b
         end;
    try (destruct (getitem df col) as [s|e]; [|discriminate]; cbn [bind] in H);
    try (destruct (astype_Int64 _) as [s'|e]; [|discriminate];
         cbn [bind] in H);
    injection H as <-; try reflexivity; apply getitem_setitem_other, Hne.
Qed.

(** The call returns: every exception of the loop body is caught. *)
Lemma convert_column_types_returns L convs : forall df,
  convert_column_types L df convs = Ok (converted L df convs).
Proof.
  induction convs as [|[c t] rest IH]; intros df; [reflexivity|].
  cbn [convert_column_types converted].
  destruct (convert_one L df c t) as [df'|e]; cbn [bind try_except fst snd].
  - rewrite IH. cbn [bind app]. destruct (converted L df' rest); reflexivity.
  - rewrite IH. cbn [bind]. destruct (converted L df rest); reflexivity.
Qed.

(** A column that is not named in the dict is not touched. *)
Lemma converted_skip L convs : forall df col,
  ~ In col (map fst convs) ->
  getitem (fst (converted L df convs)) col = getitem df col.
Proof.
  induction convs as [|[c t] rest IH]; intros df col Hn; [reflexivity|].
  cbn [map fst In] in Hn. cbn [converted].
  assert (Hne : text_eqb c col = false) by (apply text_eqb_neq; tauto).
  destruct (convert_one L df c t) as [df'|e] eqn:Hc.
  - rewrite IH by tauto. apply (convert_one_other _ _ _ _ _ _ Hc Hne).
  - destruct (converted L df rest) as [df' out] eqn:Hr.
    cbn [fst]. change df' with (fst (df', out)). rewrite <- Hr.
    apply IH. tauto.
Qed.

(** What the call leaves in a column the dict names: the converted values,
    or the old ones and a printed message when the conversion raised.
    Neither depends on the other entries of the dict. *)
Lemma converted_at L convs : forall df col ty s,
  NoDup (map fst convs) -> In (col, ty) convs -> getitem df col = Ok s ->
  match convert_series L ty s with
  | Ok s' => getitem (fst (converted L df convs)) col = Ok s'
  | Raise e =>
      getitem (fst (converted L df convs)) col = Ok s
      /\ In (col, ty, e) (snd (converted L df convs))
  end.
Proof.
  induction convs as [|[c t] rest IH]; intros df col ty s Hnd Hin Hg;
    [contradiction|].
  cbn [map fst] in Hnd. inversion Hnd as [|? ? Hnotin Hnd']; subst.
  cbn [converted]. destruct Hin as [[= -> ->] | Hin].
  - rewrite (convert_one_series L df col ty s Hg).
    destruct (convert_series L ty s) as [s'|e]; cbn [bind].
    + rewrite converted_skip by exact Hnotin.
      apply getitem_setitem_same.
    + destruct (converted L df rest) as [df' out] eqn:Hr.
      cbn [fst snd]. split; [|left; reflexivity].
      change df' with (fst (df', out)). rewrite <- Hr.
      rewrite converted_skip by exact Hnotin. exact Hg.
  - assert (Hne : text_eqb c col = false).
    { apply text_eqb_neq. intros ->. apply Hnotin.
      apply in_map_iff. exists (col, ty). auto. }
    destruct (convert_one L df c t) as [df1|e1] eqn:Hc.
    + apply IH; auto.
      rewrite (convert_one_other _ _ _ _ _ _ Hc Hne). exact Hg.
    + specialize (IH df col ty s Hnd' Hin Hg).
      destruct (converted L df rest) as [df' out] eqn:Hr.
      cbn [fst snd] in *.
      destruct (convert_series L ty s); [exact IH|].
      destruct IH as [IH1 IH2]. split; [exact IH1 | right; exact IH2].
Qed.

Lemma cast_whole L vs :
  forallb (fun c => match numeric_of L c with
                    | Some q => is_whole q
                    | None => true
                    end) vs = true ->
  cast_all (map (coerce_numeric L) vs) = Ok (map (int_or_missing L) vs).
Proof.
  induction vs as [|c vs IH]; intros H; [reflexivity|].
  cbn [forallb] in H. apply andb_prop in H. destruct H as [Hc H].
  cbn [map cast_all]. rewrite (IH H).
  unfold coerce_numeric, int_or_missing.
  destruct (numeric_of L c) as [q|]; cbn [cast_Int64];
    [rewrite Hc|]; reflexivity.
Qed.

Lemma cast_not_whole L vs :
  forallb (fun c => match numeric_of L c with
                    | Some q => is_whole q
                    | None => true
                    end) vs = false ->
  cast_all (map (coerce_numeric L) vs) = Raise TypeError.
Proof.
  induction vs as [|c vs IH]; intros H; [discriminate|].
  cbn [forallb] in H. cbn [map cast_all].
  unfold coerce_numeric at 1.
  destruct (numeric_of L c) as [q|]; cbn [cast_Int64].
  - destruct (is_whole q); [|reflexivity]. cbn [bind andb] in *.
    rewrite (IH H). reflexivity.
  - cbn [bind andb] in *. rewrite (IH H). reflexivity.
Qed.



(** The example of the specification: ["1","x","3"] to integer gives
    [1, missing, 3], the second column is converted too and nothing is
    printed. *)
Example convert_codes :
  convert_column_types decimal_lib codes_frame
    [(T "code", T "int"); (T "qty", T "int")]
  = Ok ([(T "code", mkSeries NullableInt64 [CInt 1; CMissing NA; CInt 3]);
         (T "qty", mkSeries NullableInt64 [CInt 7; CInt 8; CInt 9])], []).
Proof. vm_compute. reflexivity. Qed.


(** C10, as the code has it.  Converting a column to text replaces every
    cell by its text.  A missing cell becomes the text of its marker:
    "nan" for the float NaN, "None" for Python's None, "NaT" for a missing
    datetime, "<NA>" for the missing value of a nullable column.  The
    resulting column has no missing cell. *)
Theorem convert_to_text_loses_missing
        (L : Lib) (df : DataFrame) (conversions : list (text * text))
        (col : text) (s : Series) :
  NoDup (map fst conversions) ->
  In (col, T "str") conversions ->
  getitem df col = Ok s ->
  exists df' out s',
    convert_column_types L df conversions = Ok (df', out)
    /\ getitem df' col = Ok s'
    /\ values s' = map (fun c => CText (str L c)) (values s)
    /\ has_missing s' = false
    /\ (forall i m, nth_error (values s) i = Some (CMissing m) ->
                    nth_error (values s') i = Some (CText (na_repr m)))
    /\ na_repr NaN = T "nan" /\ na_repr PyNone = T "None"
    /\ na_repr NaT = T "NaT" /\ na_repr NA = T "<NA>".
Proof.
  intros Hnd Hin Hg.
  pose proof (converted_at L conversions df col (T "str") s Hnd Hin Hg) as H.
  change (convert_series L (T "str") s) with (Ok (astype_str L s)) in H.
  rewrite (convert_column_types_returns L conversions df).
  destruct (converted L df conversions) as [df' out]. cbn [fst] in H.
  exists df', out, (astype_str L s).
  split; [reflexivity|]. split; [exact H|]. split; [reflexivity|].
  split; [|split; [|repeat split]].
  - unfold has_missing, astype_str. cbn [values].
    induction (values s) as [|c vs IH]; [reflexivity | exact IH].
  - intros i m Hi. unfold astype_str. cbn [values].
    rewrite nth_error_map, Hi. reflexivity.
Qed.

Lemma convert_to_text_loses_missing_witness :
  NoDup (map fst [(T "note", T "str")])
  /\ In (T "note", T "str") [(T "note", T "str")]
  /\ getitem notes_frame (T "note")
     = Ok (mkSeries Object [CText (T "a"); CMissing PyNone])
  /\ exists df' out s',
      convert_column_types decimal_lib notes_frame [(T "note", T "str")]
      = Ok (df', out)
      /\ getitem df' (T "note") = Ok s'
      /\ values s' = map (fun c => CText (str decimal_lib c))
                         [CText (T "a"); CMissing PyNone]
      /\ has_missing s' = false
      /\ (forall i m,
             nth_error [CText (T "a"); CMissing PyNone] i
             = Some (CMissing m) ->
             nth_error (values s') i = Some (CText (na_repr m)))
      /\ na_repr NaN = T "nan" /\ na_repr PyNone = T "None"
      /\ na_repr NaT = T "NaT" /\ na_repr NA = T "<NA>".
Proof.
  assert (Hnd : NoDup (map fst [(T "note", T "str")])).
  { repeat constructor; simpl; tauto. }
  assert (Hin : In (T "note", T "str") [(T "note", T "str")])
    by (left; reflexivity).
  split; [exact Hnd|]. split; [exact Hin|]. split; [reflexivity|].
  apply (convert_to_text_loses_missing decimal_lib notes_frame
           [(T "note", T "str")] (T "note")
           (mkSeries Object [CText (T "a"); CMissing PyNone])
           Hnd Hin eq_refl).
Defined.

(** C10 as stated fails: a missing cell that is Python's None becomes the
    text "None", not "nan". *)
Lemma none_becomes_text_None :
  convert_column_types decimal_lib notes_frame [(T "note", T "str")]
  = Ok ([(T "note", mkSeries Object [CText (T "a"); CText (T "None")])], [])
  /\ T "None" <> T "nan".
Proof. split; [vm_compute; reflexivity | vm_compute; discriminate]. Qed.

(* ------------------------------------------------------------------ *)
(** * C6 and C7: outliers *)

Lemma report_get_set_same r col n : report_get (report_set r col n) col = Some n.
Proof.
  induction r as [|[c m] r IH]; simpl.
  - rewrite text_eqb_refl. reflexivity.
  - destruct (text_eqb c col) eqn:E; simpl; rewrite E; auto.
Qed.

Lemma report_get_set_other r col n col' :
  text_eqb col col' = false ->
  report_get (report_set r col n) col' = report_get r col'.
Proof.
  intros Hne. induction r as [|[c m] r IH]; simpl.
  - rewrite Hne. reflexivity.
  - destruct (text_eqb c col) eqn:E; simpl.
    + apply text_eqb_eq in E. subst c. rewrite Hne. reflexivity.
    + rewrite IH. reflexivity.
Qed.

(** The loop does not fail on names of the frame, and the report holds
    the counts above zero of the columns it went through. *)
Lemma outlier_loop_report df cols : forall r,
  (forall c, In c cols -> has_column df c = true) ->
  exists report,
    outlier_loop df cols r = Ok report
    /\ forall c, report_get report c
                 = if existsb (text_eqb c) cols && (0 <? count_of df c)
                   then Some (count_of df c) else report_get r c.
Proof.
  induction cols as [|c0 cs IH]; intros r Hc.
  - exists r. split; [reflexivity|]. intros c. reflexivity.
  - assert (H0 : has_column df c0 = true) by (apply Hc; left; reflexivity).
    apply getitem_has_column in H0. destruct H0 as [s0 Hs0].
    cbn [outlier_loop]. rewrite Hs0. cbn [bind].
    destruct (IH (if 0 <? outlier_count s0
                  then report_set r c0 (outlier_count s0) else r))
      as (report & Hrun & Hget).
    { intros c Hin. apply Hc. right. exact Hin. }
    exists report. split; [exact Hrun|]. intros c. rewrite Hget.
    cbn [existsb].
    destruct (existsb (text_eqb c) cs && (0 <? count_of df c)) eqn:E1.
    + apply andb_prop in E1. destruct E1 as [-> ->].
      rewrite orb_true_r. reflexivity.
    + destruct (text_eqb c c0) eqn:E0.
      * apply text_eqb_eq in E0. subst c0. cbn [orb andb].
        unfold count_of. rewrite Hs0.
        destruct (0 <? outlier_count s0);
          [apply report_get_set_same | reflexivity].
      * cbn [orb]. rewrite E1.
        destruct (0 <? outlier_count s0); [|reflexivity].
        apply report_get_set_other. rewrite text_eqb_sym. exact E0.
Qed.

Lemma numeric_columns_present df c :
  In c (numeric_columns df) -> has_column df c = true.
Proof.
  unfold numeric_columns, has_column, columns. intros H.
  apply in_map_iff in H. destruct H as ([n s] & <- & Hin).
  apply filter_In in Hin. destruct Hin as [Hin _].
  apply existsb_exists. exists n. split; [|apply text_eqb_refl].
  apply in_map_iff. exists (n, s). auto.
Qed.

Lemma existsb_text_In c cols : In c cols -> existsb (text_eqb c) cols = true.
Proof.
  intros H. apply existsb_exists. exists c. split; [exact H|].
  apply text_eqb_refl.
Qed.

(** The report of [detect_outliers] at a numeric column. *)
Lemma detect_outliers_report df col s :
  getitem df col = Ok s -> is_numeric (dtype s) = true ->
  exists report,
    detect_outliers df = Ok report
    /\ report_get report col
       = (if 0 <? outlier_count s then Some (outlier_count s) else None)
    /\ (forall c n, report_get report c = Some n -> 0 < n).
Proof.
  intros Hg Hn. unfold detect_outliers.
  destruct (outlier_loop_report df (numeric_columns df) []
              (numeric_columns_present df)) as (report & Hrun & Hget).
  exists report. split; [exact Hrun|]. split.
  - rewrite Hget, (existsb_text_In _ _ (numeric_columns_In df col s Hg Hn)).
    unfold count_of. rewrite Hg. reflexivity.
  - intros c n. rewrite Hget.
    destruct (existsb (text_eqb c) (numeric_columns df)
              && (0 <? count_of df c)) eqn:E; [|discriminate].
    apply andb_prop in E. destruct E as [_ E]. apply Nat.ltb_lt in E.
    intros [= <-]. exact E.
Qed.

Lemma Qsum_sq_nonneg mu xs : (0 <= sum_sq_dev mu xs)%Q.
Proof.
  unfold sum_sq_dev. induction xs as [|x xs IH]; simpl; [apply Qle_refl|].
  apply Qle_trans with (0 + 0)%Q; [apply Qle_refl|].
  apply Qplus_le_compat; [|exact IH].
  unfold sq. destruct (Qlt_le_dec (x - mu) 0) as [Hneg | Hpos].
  - setoid_replace ((x - mu) * (x - mu))%Q with ((- (x - mu)) * (- (x - mu)))%Q
      by ring.
    apply Qmult_le_0_compat; apply (Qopp_le_compat (x - mu) 0);
      apply Qlt_le_weak; exact Hneg.
  - apply Qmult_le_0_compat; exact Hpos.
Qed.

Lemma Qlen_pos xs n : List.length xs = S n -> (inject_Z (Z.of_nat n) < Qlen xs)%Q.
Proof.
  intros H. unfold Qlen. rewrite H. rewrite <- Zlt_Qlt. lia.
Qed.

(** The square of the deviation is not negative. *)
Lemma std_squared_nonneg xs v : std_squared xs = Some v -> (0 <= v)%Q.
Proof.
  unfold std_squared. destruct (mean xs) as [mu|]; [|discriminate].
  destruct (List.length xs <? 2) eqn:E; [discriminate|].
  intros [= <-]. apply Nat.ltb_ge in E.
  apply Qle_shift_div_l.
  - destruct (List.length xs) as [|[|n]] eqn:L; try lia.
    pose proof (Qlen_pos xs (S n) L) as Hp.
    assert (H1 : (1 <= inject_Z (Z.of_nat (S n)))%Q)
      by (change 1%Q with (inject_Z 1); rewrite <- Zle_Qle; lia).
    apply Qlt_minus_iff in Hp. apply Qlt_minus_iff.
    eapply Qlt_le_trans; [exact Hp|].
    setoid_replace (Qlen xs - 1 + - 0)%Q
      with ((Qlen xs + - inject_Z (Z.of_nat (S n)))
            + (inject_Z (Z.of_nat (S n)) - 1))%Q by ring.
    setoid_replace (Qlen xs + - inject_Z (Z.of_nat (S n)))%Q
      with ((Qlen xs + - inject_Z (Z.of_nat (S n))) + 0)%Q at 1 by ring.
    apply Qplus_le_compat; [apply Qle_refl|].
    apply -> Qle_minus_iff. exact H1.
  - rewrite Qmult_0_l. apply Qsum_sq_nonneg.
Qed.

Lemma Qsum_constant x xs :
  (forall y, In y xs -> y == x)%Q -> (Qsum xs == Qlen xs * x)%Q.
Proof.
  unfold Qlen. induction xs as [|y xs IH]; intros H.
  - simpl. ring.
  - cbn [Qsum fold_right List.length]. fold (Qsum xs).
    rewrite IH by (intros z Hz; apply H; right; exact Hz).
    rewrite (H y) by (left; reflexivity).
    rewrite Nat2Z.inj_succ. unfold Z.succ. rewrite inject_Z_plus. ring.
Qed.

Lemma mean_constant x xs mu :
  (forall y, In y xs -> y == x)%Q -> mean xs = Some mu -> (mu == x)%Q.
Proof.
  intros H Hm. unfold mean in Hm. destruct xs as [|y xs]; [discriminate|].
  injection Hm as <-. rewrite (Qsum_constant x _ H).
  assert (Hz : ~ (Qlen (y :: xs) == 0)%Q).
  { pose proof (Qlen_pos (y :: xs) (List.length xs) eq_refl) as Hp.
    intros E. rewrite E in Hp.
    assert (0 <= inject_Z (Z.of_nat (List.length xs)))%Q
      by (change 0%Q with (inject_Z 0); rewrite <- Zle_Qle; lia).
    apply (Qlt_irrefl 0). eapply Qle_lt_trans; eassumption. }
  field. exact Hz.
Qed.

Lemma filter_none {B : Type} (f : B -> bool) (l : list B) :
  (forall y, In y l -> f y = false) -> filter f l = [].
Proof.
  induction l as [|y l IH]; intros H; [reflexivity|].
  cbn [filter]. rewrite (H y) by (left; reflexivity).
  apply IH. intros z Hz. apply H. right. exact Hz.
Qed.

(** A constant column has no outlier. *)
Lemma outlier_count_constant s x :
  (forall y, In y (present (values s)) -> y == x)%Q -> outlier_count s = 0.
Proof.
  intros H. unfold outlier_count.
  destruct (mean (present (values s))) as [mu|] eqn:Hm; [|reflexivity].
  destruct (std_squared (present (values s))) as [v|] eqn:Hv; [|reflexivity].
  pose proof (mean_constant x _ mu H Hm) as Hmu.
  pose proof (std_squared_nonneg _ v Hv) as Hpos.
  rewrite filter_none; [reflexivity|].
  intros y Hy. unfold abs_z_above_3, Qltb. apply negb_false_iff, Qle_bool_iff.
  unfold sq. rewrite (H y Hy), Hmu.
  setoid_replace ((x - x) * (x - x))%Q with 0%Q by ring.
  apply Qmult_le_0_compat; [discriminate | exact Hpos].
Qed.



(* ------------------------------------------------------------------ *)
(** * The squares decide the z-score *)

Lemma abs_quotient_above_3 (d v : R) :
  (0 < v)%R -> (Rabs (d / sqrt v) > 3 <-> 9 * v < d * d)%R.
Proof.
  intros Hv.
  assert (Hs : (0 < sqrt v)%R) by (apply sqrt_lt_R0; exact Hv).
  assert (Hss : (sqrt v * sqrt v = v)%R) by (apply sqrt_sqrt; lra).
  unfold Rdiv. rewrite Rabs_mult, (Rabs_pos_eq (/ sqrt v))
    by (left; apply Rinv_0_lt_compat; exact Hs).
  assert (Ha : (0 <= Rabs d)%R) by apply Rabs_pos.
  assert (Haa : (Rabs d * Rabs d = d * d)%R).
  { unfold Rabs. destruct (Rcase_abs d); ring. }
  split.
  - intros H.
    assert (H3 : (3 * sqrt v < Rabs d)%R).
    { apply (Rmult_lt_reg_r (/ sqrt v));
        [apply Rinv_0_lt_compat; exact Hs|].
      rewrite Rmult_assoc, Rinv_r by lra. lra. }
    nra.
  - intros H.
    assert (H3 : (3 * sqrt v < Rabs d)%R) by nra.
    apply Rlt_gt.
    apply (Rmult_lt_reg_r (sqrt v)); [exact Hs|].
    rewrite Rmult_assoc, Rinv_l by lra. lra.
Qed.

(** The test of the model on squares is the test of the code on the
    quotient, read in the real numbers. *)
Lemma abs_z_above_3_real (mu v x : Q) :
  (0 < v)%Q ->
  abs_z_above_3 mu v x = true <->
  (Rabs ((Q2R x - Q2R mu) / sqrt (Q2R v)) > 3)%R.
Proof.
  intros Hv.
  assert (HvR : (0 < Q2R v)%R).
  { replace 0%R with (Q2R 0) by (unfold Q2R; simpl; lra).
    apply Qlt_Rlt. exact Hv. }
  rewrite (abs_quotient_above_3 _ _ HvR).
  unfold abs_z_above_3, Qltb, sq.
  rewrite negb_true_iff, <- not_true_iff_false, Qle_bool_iff.
  assert (E9 : Q2R 9 = 9%R) by (unfold Q2R; simpl; lra).
  split.
  - intros H. apply Qnot_le_lt in H. apply Qlt_Rlt in H.
    rewrite !Q2R_mult, Q2R_minus, E9 in H. exact H.
  - intros H. apply Qlt_not_le. apply Rlt_Qlt.
    rewrite !Q2R_mult, Q2R_minus, E9. exact H.
Qed.




(* ------------------------------------------------------------------ *)
(** * The row theorems on a frame of three rows *)

Lemma people_frame_aligned : aligned people_frame.
Proof.
  intros ns H. simpl in H. decompose [or] H; subst; try reflexivity.
  contradiction.
Defined.

Lemma drop_rows_exactly_missing_in_subset_witness :
  aligned people_frame
  /\ [T "city"] <> []
  /\ forallb (has_column people_frame) [T "city"] = true
  /\ exists df',
      app_drop_rows people_frame [T "city"] = Ok df'
      /\ rows df'
         = filter (fun r => negb (row_missing_in [T "city"] r))
                  (rows people_frame)
      /\ (forall r, In r (rows df') <->
                    In r (rows people_frame)
                    /\ row_missing_in [T "city"] r = false)
      /\ nrows df' <= nrows people_frame
      /\ columns df' = columns people_frame.
Proof.
  assert (Hne : [T "city"] <> []) by discriminate.
  split; [exact people_frame_aligned|]. split; [exact Hne|].
  split; [reflexivity|].
  apply (drop_rows_exactly_missing_in_subset people_frame [T "city"]
           people_frame_aligned Hne eq_refl).
Defined.

(** The row that misses its age only is retained. *)
Example drop_rows_people :
  app_drop_rows people_frame [T "city"]
  = Ok [(T "name", mkSeries Object [CText (T "Asha"); CText (T "Asha")]);
        (T "city", mkSeries Object [CText (T "Pune"); CText (T "Pune")]);
        (T "age", mkSeries Float64 [CFloat 31; CMissing NaN])].
Proof. vm_compute. reflexivity. Qed.


Example remove_duplicates_people :
  remove_duplicates people_frame [T "name"]
  = Ok [(T "name", mkSeries Object [CText (T "Asha"); CText (T "Ravi")]);
        (T "city", mkSeries Object [CText (T "Pune"); CMissing PyNone]);
        (T "age", mkSeries Float64 [CFloat 31; CFloat 40])].
Proof. vm_compute. reflexivity. Qed.

(* ================================================================== *)
(** * Part III: the rest of main.py and app.py *)

(* ------------------------------------------------------------------ *)
(** * Loops that rewrite columns *)

Lemma has_column_setitem df col s c :
  has_column df col = true ->
  has_column (setitem df col s) c = has_column df c.
Proof.
  intros H. unfold has_column. rewrite (columns_setitem df col s H).
  reflexivity.
Qed.

Lemma getitem_raises_KeyError df col e :
  getitem df col = Raise e -> e = KeyError.
Proof.
  induction df as [|[n s] df IH]; simpl; [intros [= <-]; reflexivity|].
  destruct (text_eqb n col); [discriminate | exact IH].
Qed.

Lemma has_column_false df col :
  has_column df col = false -> getitem df col = Raise KeyError.
Proof.
  intros H. destruct (getitem df col) as [s|e] eqn:E.
  - assert (has_column df col = true) by (apply getitem_has_column; eauto).
    congruence.
  - rewrite (getitem_raises_KeyError _ _ _ E). reflexivity.
Qed.

Lemma forallb_same {B : Type} (f g : B -> bool) (l : list B) :
  (forall x, f x = g x) -> forallb f l = forallb g l.
Proof.
  intros H. induction l as [|x l IH]; simpl; [|rewrite H, IH]; reflexivity.
Qed.

(** The loop raises KeyError as soon as a listed column is missing. *)
Lemma assign_each_missing f cols : forall df,
  forallb (has_column df) cols = false ->
  assign_each f df cols = Raise KeyError.
Proof.
  induction cols as [|c cs IH]; intros df H; [discriminate|].
  cbn [forallb assign_each] in *.
  destruct (has_column df c) eqn:Hc.
  - apply getitem_has_column in Hc as Hs. destruct Hs as [s Hs].
    rewrite Hs. cbn [bind]. apply IH.
    rewrite <- H. cbn [andb]. apply forallb_same. intros c'.
    apply has_column_setitem, Hc.
  - rewrite (has_column_false _ _ Hc). reflexivity.
Qed.

(** With every listed column there, the loop returns a frame with the same
    names, the listed columns rewritten and the others as they were. *)
Lemma assign_each_columns f (Hf : forall s, f (f s) = f s) cols : forall df,
  forallb (has_column df) cols = true ->
  exists df',
    assign_each f df cols = Ok df'
    /\ columns df' = columns df
    /\ (forall c s, In c cols -> getitem df c = Ok s ->
                    getitem df' c = Ok (f s))
    /\ (forall c, ~ In c cols -> getitem df' c = getitem df c).
Proof.
  induction cols as [|c0 cs IH]; intros df H.
  - exists df. repeat split; auto. intros c s [].
  - cbn [forallb] in H. apply andb_prop in H. destruct H as [Hc H].
    apply getitem_has_column in Hc as Hs. destruct Hs as [s0 Hs0].
    cbn [assign_each]. rewrite Hs0. cbn [bind].
    destruct (IH (setitem df c0 (f s0))) as (df' & Hrun & Hcols & Hin & Hout).
    { rewrite <- H. apply forallb_same. intros c'.
      apply has_column_setitem, Hc. }
    exists df'. split; [exact Hrun|]. split; [|split].
    + rewrite Hcols. apply columns_setitem, Hc.
    + intros c s Hc' Hg.
      destruct (text_eqb c0 c) eqn:E.
      * apply text_eqb_eq in E. subst c0.
        assert (s = s0) by congruence. subst s0.
        destruct (in_dec (list_eq_dec ascii_dec) c cs) as [Hi | Hni].
        -- rewrite (Hin c (f s) Hi (getitem_setitem_same df c (f s))).
           rewrite Hf. reflexivity.
        -- rewrite (Hout c Hni). apply getitem_setitem_same.
      * destruct Hc' as [-> | Hc'];
          [rewrite text_eqb_refl in E; discriminate|].
        apply (Hin c s Hc').
        rewrite (getitem_setitem_other df c0 (f s0) c E). exact Hg.
    + intros c Hn. cbn [In] in Hn.
      assert (E : text_eqb c0 c = false) by (apply text_eqb_neq; tauto).
      rewrite Hout by tauto. apply getitem_setitem_other, E.
Qed.

(** A loop over columns that its function leaves alone changes nothing. *)
Lemma assign_each_fixed f cols df :
  (forall c, In c cols -> exists s, getitem df c = Ok s /\ f s = s) ->
  assign_each f df cols = Ok df.
Proof.
  induction cols as [|c cs IH]; intros H; [reflexivity|].
  destruct (H c (or_introl eq_refl)) as (s & Hs & Hfix).
  cbn [assign_each]. rewrite Hs. cbn [bind].
  rewrite Hfix, (setitem_same df c s Hs). apply IH.
  intros c' Hc'. apply H. right. exact Hc'.
Qed.

(** Running such a loop again on its result changes nothing. *)
Lemma assign_each_again f (Hf : forall s, f (f s) = f s) cols df df' :
  assign_each f df cols = Ok df' -> assign_each f df' cols = Ok df'.
Proof.
  intros Hrun.
  destruct (forallb (has_column df) cols) eqn:Hc.
  - destruct (assign_each_columns f Hf cols df Hc)
      as (d & Hd & _ & Hin & _).
    assert (d = df') by congruence. subst d.
    apply assign_each_fixed. intros c Hi.
    rewrite forallb_forall in Hc. specialize (Hc c Hi).
    apply getitem_has_column in Hc. destruct Hc as [s Hs].
    exists (f s). split; [apply (Hin c s Hi Hs) | apply Hf].
  - rewrite (assign_each_missing f cols df Hc) in Hrun. discriminate.
Qed.

(* ------------------------------------------------------------------ *)
(** * Stripping blanks *)

Lemma lstrip_no_leading s : no_leading_blank (lstrip s).
Proof.
  induction s as [|c s IH]; simpl; [exact I|].
  destruct (is_space c) eqn:E; [exact IH | exact E].
Qed.

Lemma lstrip_fixed s : no_leading_blank s -> lstrip s = s.
Proof. destruct s as [|c s]; simpl; [reflexivity | intros ->; reflexivity]. Qed.

Lemma lstrip_snoc a c :
  is_space c = false -> exists t, lstrip (a ++ [c]) = t ++ [c].
Proof.
  intros Hc. induction a as [|x a IH]; simpl.
  - rewrite Hc. exists []. reflexivity.
  - destruct (is_space x); [exact IH|]. exists (x :: a). reflexivity.
Qed.

Lemma rstrip_no_trailing s : no_leading_blank (rev (rstrip s)).
Proof. unfold rstrip. rewrite rev_involutive. apply lstrip_no_leading. Qed.

Lemma rstrip_keeps_head s : no_leading_blank s -> no_leading_blank (rstrip s).
Proof.
  destruct s as [|c s]; [intros _; exact I|]. simpl. intros Hc.
  unfold rstrip. simpl rev.
  destruct (lstrip_snoc (rev s) c Hc) as [t ->].
  rewrite rev_app_distr. simpl. exact Hc.
Qed.

(** After [strip] there is no blank at either end. *)
Lemma strip_trimmed s :
  no_leading_blank (strip s) /\ no_leading_blank (rev (strip s)).
Proof.
  unfold strip. split.
  - apply rstrip_keeps_head, lstrip_no_leading.
  - apply rstrip_no_trailing.
Qed.

Lemma strip_fixed s :
  no_leading_blank s -> no_leading_blank (rev s) -> strip s = s.
Proof.
  intros H1 H2. unfold strip, rstrip.
  rewrite (lstrip_fixed s H1), (lstrip_fixed (rev s) H2).
  apply rev_involutive.
Qed.

Lemma strip_idempotent s : strip (strip s) = strip s.
Proof. apply strip_fixed; apply strip_trimmed. Qed.

(* ------------------------------------------------------------------ *)
(** * The text cleaner *)

Lemma str_map_astype L f s :
  str_map f (astype_str L s)
  = mkSeries Object (map (fun v => CText (f (str L v))) (values s)).
Proof.
  unfold str_map, astype_str. cbn [values]. rewrite map_map. reflexivity.
Qed.

Lemma str_map_astype_twice L f g s :
  str_map g (astype_str L (str_map f (astype_str L s)))
  = mkSeries Object (map (fun v => CText (g (f (str L v)))) (values s)).
Proof.
  rewrite !str_map_astype. cbn [values]. rewrite map_map. reflexivity.
Qed.

Lemma lower_char_idem c : lower_char (lower_char c) = lower_char c.
Proof. each_char c. Qed.

Lemma upper_char_idem c : upper_char (upper_char c) = upper_char c.
Proof. each_char c. Qed.

Lemma upper_lower_char c : upper_char (lower_char c) = upper_char c.
Proof. each_char c. Qed.

Lemma lower_upper_char c : lower_char (upper_char c) = lower_char c.
Proof. each_char c. Qed.

Lemma is_alpha_lower_char c : is_alpha (lower_char c) = is_alpha c.
Proof. each_char c. Qed.

Lemma is_alpha_upper_char c : is_alpha (upper_char c) = is_alpha c.
Proof. each_char c. Qed.

Lemma map_idem {B : Type} (f g h : B -> B) (l : list B) :
  (forall x, g (f x) = h x) -> map g (map f l) = map h l.
Proof. intros H. rewrite map_map. apply map_ext, H. Qed.

Lemma lower_idempotent s : lower (lower s) = lower s.
Proof. apply map_idem, lower_char_idem. Qed.

Lemma upper_idempotent s : upper (upper s) = upper s.
Proof. apply map_idem, upper_char_idem. Qed.

Lemma upper_lower s : upper (lower s) = upper s.
Proof. apply map_idem, upper_lower_char. Qed.

Lemma lower_upper s : lower (upper s) = lower s.
Proof. apply map_idem, lower_upper_char. Qed.

Lemma title_from_lower s : forall b, title_from b (lower s) = title_from b s.
Proof.
  induction s as [|c s IH]; intros b; [reflexivity|].
  cbn [lower map title_from]. fold (lower s).
  rewrite is_alpha_lower_char, IH, lower_char_idem, upper_lower_char.
  reflexivity.
Qed.

Lemma title_from_upper s : forall b, title_from b (upper s) = title_from b s.
Proof.
  induction s as [|c s IH]; intros b; [reflexivity|].
  cbn [upper map title_from]. fold (upper s).
  rewrite is_alpha_upper_char, IH, upper_char_idem, lower_upper_char.
  reflexivity.
Qed.

Lemma title_from_idempotent s : forall b,
  title_from b (title_from b s) = title_from b s.
Proof.
  induction s as [|c s IH]; intros b; [reflexivity|].
  cbn [title_from]. destruct b.
  - rewrite is_alpha_lower_char, IH, lower_char_idem. reflexivity.
  - rewrite is_alpha_upper_char, IH, upper_char_idem. reflexivity.
Qed.

Lemma title_idempotent s : title (title s) = title s.
Proof. apply title_from_idempotent. Qed.

Lemma title_from_length s : forall b,
  List.length (title_from b s) = List.length s.
Proof.
  induction s as [|c s IH]; intros b; simpl; [|rewrite IH]; reflexivity.
Qed.

(** The three functions the loops apply, each applied twice. *)
Lemma str_map_astype_idem L f (Hf : forall t, f (f t) = f t) s :
  str_map f (astype_str L (str_map f (astype_str L s)))
  = str_map f (astype_str L s).
Proof.
  rewrite str_map_astype_twice, str_map_astype. f_equal.
  apply map_ext. intros v. rewrite Hf. reflexivity.
Qed.

Lemma case_function_idem L ct s :
  let f := fun s => if text_eqb ct (T "lower")
                    then str_map lower (astype_str L s)
                    else str_map upper (astype_str L s) in
  f (f s) = f s.
Proof.
  cbv zeta. destruct (text_eqb ct (T "lower")).
  - apply str_map_astype_idem, lower_idempotent.
  - apply str_map_astype_idem, upper_idempotent.
Qed.



(** X2.  When a listed column is not in the frame, each of the three text
    functions raises KeyError. *)
Theorem text_cleaner_missing_column
        (L : Lib) (df : DataFrame) (cols : list text) (case_type : text) :
  forallb (has_column df) cols = false ->
  trim_whitespaces L df cols = Raise KeyError
  /\ normalize_case L df cols case_type = Raise KeyError
  /\ capitalize_words L df cols = Raise KeyError.
Proof.
  intros H. repeat split; apply assign_each_missing, H.
Qed.

Lemma text_cleaner_missing_column_witness :
  forallb (has_column raw_frame) [T "name"; T "town"] = false
  /\ trim_whitespaces decimal_lib raw_frame [T "name"; T "town"]
     = Raise KeyError
  /\ normalize_case decimal_lib raw_frame [T "name"; T "town"] (T "upper")
     = Raise KeyError
  /\ capitalize_words decimal_lib raw_frame [T "name"; T "town"]
     = Raise KeyError.
Proof.
  split; [reflexivity|].
  apply (text_cleaner_missing_column decimal_lib raw_frame
           [T "name"; T "town"] (T "upper") eq_refl).
Defined.



(** Two loops one after the other give, column by column, what one loop
    with the composed function gives. *)
Lemma assign_each_compose f g h cols df
      (Hf : forall s, f (f s) = f s) (Hg : forall s, g (g s) = g s)
      (Hh : forall s, h (h s) = h s) (Hgf : forall s, g (f s) = h s) :
  forallb (has_column df) cols = true ->
  exists d1 d2 d3,
    assign_each f df cols = Ok d1
    /\ assign_each g d1 cols = Ok d2
    /\ assign_each h df cols = Ok d3
    /\ columns d2 = columns d3
    /\ (forall c, getitem d2 c = getitem d3 c).
Proof.
  intros H.
  destruct (assign_each_columns f Hf cols df H) as (d1 & R1 & C1 & I1 & O1).
  assert (H1 : forallb (has_column d1) cols = true).
  { rewrite <- H. apply forallb_same. intros c. unfold has_column.
    rewrite C1. reflexivity. }
  destruct (assign_each_columns g Hg cols d1 H1) as (d2 & R2 & C2 & I2 & O2).
  destruct (assign_each_columns h Hh cols df H) as (d3 & R3 & C3 & I3 & O3).
  exists d1, d2, d3. repeat split; auto; [congruence|].
  intros c. destruct (in_dec (list_eq_dec ascii_dec) c cols) as [Hi | Hn].
  - rewrite forallb_forall in H. specialize (H c Hi).
    apply getitem_has_column in H. destruct H as [s Hs].
    rewrite (I2 c (f s) Hi (I1 c s Hi Hs)), (I3 c s Hi Hs), Hgf. reflexivity.
  - rewrite (O2 c Hn), (O1 c Hn), (O3 c Hn). reflexivity.
Qed.



(** What [capitalize_words] makes of the frame of examples: a letter after
    an apostrophe or a digit starts a word. *)
Example capitalize_words_raw :
  exists d,
    capitalize_words decimal_lib raw_frame [T "name"] = Ok d
    /\ getitem d (T "name")
       = Ok (mkSeries Object [CText (T "  Asha Rao "); CText (T "O'Neil 3Rd");
                              CText (T "None")]).
Proof. eexists. split; vm_compute; reflexivity. Qed.


(* ------------------------------------------------------------------ *)
(** * The email validator *)

(** The parts of a text the email pattern matches in full. *)
Lemma email_matches_parts (s : text) :
  email_matches s = true ->
  exists local domain tld,
    s = local ++ char "@" :: domain ++ char "." :: tld
    /\ local <> [] /\ forallb is_local local = true
    /\ domain <> [] /\ forallb is_local domain = true
    /\ tld <> [] /\ forallb is_word tld = true.
Proof.
  unfold email_matches, fullmatch.
  destruct (rmatch _ _ _ _ _) as [[]|] eqn:E; [intros _ | discriminate].
  apply rmatch_some in E. destruct E as (p' & s' & M & Hk).
  destruct s' as [|? ?]; [clear Hk | discriminate].
  cbn in M. invM.
  repeat match goal with
         | H : lit_eqb false _ _ = true |- _ =>
             unfold lit_eqb, char_eqb in H; apply Ascii.eqb_eq in H;
             subst
         end.
  rewrite app_nil_r. exists cs1, cs0, cs. split; [reflexivity|].
  assert (N : forall l : text, 1 <= List.length l -> l <> [])
    by (intros l Hl ->; simpl in Hl; lia).
  repeat split; auto.
Qed.


Lemma local_not_at c : is_local c = true -> char_eqb (char "@") c = false.
Proof. each_char c. Qed.

Lemma word_is_local c : is_word c = true -> is_local c = true.
Proof. unfold is_local. intros ->. reflexivity. Qed.

Lemma count_char_none c s (p : ascii -> bool) :
  (forall x, p x = true -> char_eqb c x = false) ->
  forallb p s = true -> count_char c s = 0.
Proof.
  intros Hp H. unfold count_char. rewrite filter_none; [reflexivity|].
  intros y Hy. rewrite forallb_forall in H. auto.
Qed.

Lemma count_char_app c a b :
  count_char c (a ++ b) = count_char c a + count_char c b.
Proof. unfold count_char. rewrite filter_app, length_app. reflexivity. Qed.







Lemma columns_setitem_new df col s :
  has_column df col = false -> columns (setitem df col s) = columns df ++ [col].
Proof.
  unfold has_column, columns. induction df as [|[n s0] df IH]; simpl.
  - reflexivity.
  - destruct (text_eqb n col); simpl; [discriminate|].
    intros H. rewrite IH; auto.
Qed.

Lemma setitem_setitem df col s1 s2 :
  setitem (setitem df col s1) col s2 = setitem df col s2.
Proof.
  induction df as [|[n s0] df IH]; simpl.
  - rewrite text_eqb_refl. reflexivity.
  - destruct (text_eqb n col) eqn:E; simpl; rewrite E; [reflexivity|].
    rewrite IH. reflexivity.
Qed.

(** X10.  A validator run again on its own result returns that result: the
    flag column is overwritten, not added a second time.  The first run
    adds the flag column at the end when the frame has none of that name
    and keeps the column names otherwise.  This needs the validated column
    not to be the flag column itself. *)
Theorem validators_overwrite_flag
        (L : Lib) (df : DataFrame) (phone_col email_col : text) :
  has_column df phone_col = true ->
  has_column df email_col = true ->
  text_eqb (T "valid_phone") phone_col = false ->
  text_eqb (T "valid_email") email_col = false ->
  (exists d, validate_phone_numbers L df phone_col = Ok d
             /\ validate_phone_numbers L d phone_col = Ok d
             /\ columns d = (if has_column df (T "valid_phone")
                             then columns df
                             else columns df ++ [T "valid_phone"]))
  /\ (exists d, validate_email_addresses L df email_col = Ok d
                /\ validate_email_addresses L d email_col = Ok d
                /\ columns d = (if has_column df (T "valid_email")
                                then columns df
                                else columns df ++ [T "valid_email"])).
Proof.
  intros Hp He Np Ne.
  apply getitem_has_column in Hp, He.
  destruct Hp as [sp Hp], He as [se He].
  split.
  - unfold validate_phone_numbers. rewrite Hp. cbn [bind].
    eexists. split; [reflexivity|]. split.
    + rewrite (getitem_setitem_other _ _ _ _ Np), Hp. cbn [bind].
      rewrite setitem_setitem. reflexivity.
    + destruct (has_column df (T "valid_phone")) eqn:E;
        [apply columns_setitem | apply columns_setitem_new]; exact E.
  - unfold validate_email_addresses. rewrite He. cbn [bind].
    eexists. split; [reflexivity|]. split.
    + rewrite (getitem_setitem_other _ _ _ _ Ne), He. cbn [bind].
      rewrite setitem_setitem. reflexivity.
    + destruct (has_column df (T "valid_email")) eqn:E;
        [apply columns_setitem | apply columns_setitem_new]; exact E.
Qed.

Lemma validators_overwrite_flag_witness :
  has_column raw_frame (T "n") = true
  /\ has_column raw_frame (T "mail") = true
  /\ text_eqb (T "valid_phone") (T "n") = false
  /\ text_eqb (T "valid_email") (T "mail") = false
  /\ (exists d, validate_phone_numbers decimal_lib raw_frame (T "n") = Ok d
                /\ validate_phone_numbers decimal_lib d (T "n") = Ok d
                /\ columns d = (if has_column raw_frame (T "valid_phone")
                                then columns raw_frame
                                else columns raw_frame ++ [T "valid_phone"]))
  /\ (exists d, validate_email_addresses decimal_lib raw_frame (T "mail")
                = Ok d
                /\ validate_email_addresses decimal_lib d (T "mail") = Ok d
                /\ columns d = (if has_column raw_frame (T "valid_email")
                                then columns raw_frame
                                else columns raw_frame ++ [T "valid_email"])).
Proof.
  split; [reflexivity|]. split; [reflexivity|].
  split; [reflexivity|]. split; [reflexivity|].
  apply (validators_overwrite_flag decimal_lib raw_frame (T "n") (T "mail")
           eq_refl eq_refl eq_refl eq_refl).
Defined.

(* ------------------------------------------------------------------ *)
(** * The inspector *)

Lemma filter_split_length {B : Type} (p : B -> bool) (l : list B) :
  List.length (filter p l) + List.length (filter (fun x => negb (p x)) l)
  = List.length l.
Proof.
  induction l as [|x l IH]; simpl; [reflexivity|].
  destruct (p x); simpl; lia.
Qed.

Lemma count_distinct_bound cs : forall seen,
  count_distinct seen cs
  <= List.length (filter (fun c => negb (isna c)) cs).
Proof.
  induction cs as [|c cs IH]; intros seen; simpl; [lia|].
  destruct (isna c); simpl; [apply IH|].
  destruct (existsb (cell_same c) seen).
  - specialize (IH seen). lia.
  - specialize (IH (c :: seen)). lia.
Qed.

Lemma count_distinct_zero cs :
  count_distinct [] cs = 0 <-> forallb isna cs = true.
Proof.
  split.
  - induction cs as [|c cs IH]; simpl; [reflexivity|].
    destruct (isna c); simpl; [exact IH | discriminate].
  - assert (G : forall seen, forallb isna cs = true ->
                count_distinct seen cs = 0).
    { induction cs as [|c cs IH]; intros seen H; simpl in *; [reflexivity|].
      apply andb_prop in H. destruct H as [-> H]. apply IH, H. }
    apply G.
Qed.

Lemma null_count_all s :
  null_count s = List.length (values s) <-> forallb isna (values s) = true.
Proof.
  unfold null_count. induction (values s) as [|c cs IH]; simpl; [tauto|].
  destruct (isna c); simpl.
  - rewrite <- IH. lia.
  - pose proof (filter_length_le isna cs). split; [lia | discriminate].
Qed.

(** X11.  The summary has one row per column, in the order of the frame,
    with the name and the dtype of the column.  In each row the count of
    missing cells and the count of distinct values together do not exceed
    the number of cells, and the count of distinct values is zero exactly
    when every cell of the column is missing. *)
Theorem show_df_info_counts (df : DataFrame) :
  map info_column (show_df_info df) = columns df
  /\ forall i r, nth_error (show_df_info df) i = Some r ->
       exists s,
         nth_error df i = Some (info_column r, s)
         /\ info_dtype r = dtype_name (dtype s)
         /\ info_nulls r + info_unique r <= List.length (values s)
         /\ (info_unique r = 0 <-> info_nulls r = List.length (values s)).
Proof.
  unfold show_df_info, columns. split.
  - rewrite map_map. reflexivity.
  - intros i r H. rewrite nth_error_map in H.
    destruct (nth_error df i) as [[n s]|] eqn:E; [|discriminate].
    injection H as <-. cbn [info_column info_dtype info_nulls info_unique
                             fst snd].
    exists s. repeat split.
    + unfold null_count, nunique.
      pose proof (count_distinct_bound (values s) []).
      pose proof (filter_split_length isna (values s)). lia.
    + intros H. apply null_count_all. apply count_distinct_zero, H.
    + intros H. apply count_distinct_zero. apply null_count_all, H.
Qed.

Lemma mask_positions_length (p : Cell -> bool) (vs : list Cell) :
  List.length (filter (fun i => p (nth i vs (CMissing NaN)))
                      (seq 0 (List.length vs)))
  = List.length (filter p vs).
Proof.
  rewrite <- (length_map (fun i => nth i vs (CMissing NaN))).
  rewrite <- (filter_of_map p (fun i => nth i vs (CMissing NaN))).
  rewrite (map_nth_seq (fun c => c) (CMissing NaN) vs), map_id.
  reflexivity.
Qed.

(** X12.  The count of missing cells the summary shows for a column is
    the number of rows the drop removes when that column is the one to
    check. *)
Theorem null_count_is_rows_dropped (df : DataFrame) (col : text) (s : Series) :
  aligned df ->
  getitem df col = Ok s ->
  exists df',
    app_drop_rows df [col] = Ok df'
    /\ nrows df' + null_count s = nrows df.
Proof.
  intros Ha Hg.
  assert (Hc : forallb (has_column df) [col] = true).
  { cbn [forallb]. rewrite andb_true_r. apply getitem_has_column. eauto. }
  unfold app_drop_rows, dropna.
  rewrite (notna_all_rows df [col] Ha Hc). cbn [bind].
  eexists. split; [reflexivity|].
  rewrite select_rows_nrows
    by (auto; rewrite length_map, length_seq; reflexivity).
  rewrite mask_filter_of_map.
  pose proof (aligned_length df col s Ha Hg) as Hl.
  assert (E : filter (fun i => negb (row_missing_in [col] (row_at df i)))
                (seq 0 (nrows df))
              = filter (fun i => negb (isna (nth i (values s) (CMissing NaN))))
                  (seq 0 (List.length (values s)))).
  { rewrite Hl. apply filter_ext. intros i. unfold row_missing_in.
    cbn [existsb]. rewrite (row_get_row_at df col s i Hg), orb_false_r.
    reflexivity. }
  rewrite E, (mask_positions_length (fun c => negb (isna c))).
  unfold null_count. rewrite <- Hl.
  pose proof (filter_split_length isna (values s)). lia.
Qed.

Lemma null_count_is_rows_dropped_witness :
  aligned people_frame
  /\ getitem people_frame (T "city")
     = Ok (mkSeries Object [CText (T "Pune"); CMissing PyNone;
                            CText (T "Pune")])
  /\ exists df',
      app_drop_rows people_frame [T "city"] = Ok df'
      /\ nrows df'
         + null_count (mkSeries Object [CText (T "Pune"); CMissing PyNone;
                                        CText (T "Pune")])
         = nrows people_frame.
Proof.
  split; [exact people_frame_aligned|]. split; [reflexivity|].
  apply (null_count_is_rows_dropped people_frame (T "city")
           (mkSeries Object [CText (T "Pune"); CMissing PyNone;
                             CText (T "Pune")])
           people_frame_aligned eq_refl).
Defined.

(* ------------------------------------------------------------------ *)
(** * Selecting rows, once more *)

Lemma mask_filter_all_true {B : Type} (l : list B) : forall n,
  List.length l <= n -> mask_filter (repeat true n) l = l.
Proof.
  induction l as [|x l IH]; intros n H; [destruct n; reflexivity|].
  destruct n as [|n]; [simpl in H; lia|]. simpl in *.
  rewrite IH by lia. reflexivity.
Qed.

Lemma select_rows_all df :
  aligned df -> select_rows (repeat true (nrows df)) df = df.
Proof.
  intros Ha. unfold select_rows.
  rewrite <- (map_id df) at 2. apply map_ext_in. intros [n s] Hin.
  cbn [fst snd]. pose proof (Ha _ Hin) as Hl. cbn [snd] in Hl.
  rewrite mask_filter_all_true by lia. destruct s; reflexivity.
Qed.

Lemma select_rows_aligned m df :
  aligned df -> List.length m = nrows df -> aligned (select_rows m df).
Proof.
  intros Ha Hm ns Hin. rewrite (select_rows_nrows m df Ha Hm).
  unfold select_rows in Hin. apply in_map_iff in Hin.
  destruct Hin as ([n s] & <- & Hin). cbn [fst snd values].
  pose proof (Ha _ Hin) as Hl. cbn [snd] in Hl.
  rewrite (mask_filter_positions (CMissing NaN)) by lia.
  rewrite length_map, Hl. reflexivity.
Qed.

Lemma getitem_select_rows m df col :
  getitem (select_rows m df) col
  = match getitem df col with
    | Ok s => Ok (mkSeries (dtype s) (mask_filter m (values s)))
    | Raise e => Raise e
    end.
Proof.
  unfold select_rows. induction df as [|[n s] df IH]; simpl; [reflexivity|].
  destruct (text_eqb n col); [reflexivity | exact IH].
Qed.

Lemma has_column_select_rows m df c :
  has_column (select_rows m df) c = has_column df c.
Proof. unfold has_column. rewrite select_rows_columns. reflexivity. Qed.

Lemma map_all_true {B : Type} (p : B -> bool) (l : list B) :
  (forall x, In x l -> p x = true) -> map p l = repeat true (List.length l).
Proof.
  induction l as [|x l IH]; intros H; [reflexivity|]. simpl.
  rewrite (H x) by (left; reflexivity).
  rewrite IH by (intros y Hy; apply H; right; exact Hy). reflexivity.
Qed.

(** The mask of the drop and the frame it leaves. *)
Lemma dropna_rows df cols :
  aligned df -> forallb (has_column df) cols = true ->
  exists d,
    dropna df (Some cols) = Ok d
    /\ aligned d
    /\ columns d = columns df
    /\ rows d = filter (fun r => negb (row_missing_in cols r)) (rows df).
Proof.
  intros Ha Hc.
  set (mask := map (fun i => negb (row_missing_in cols (row_at df i)))
                   (seq 0 (nrows df))).
  assert (Hm : List.length mask = nrows df)
    by (unfold mask; rewrite length_map, length_seq; reflexivity).
  exists (select_rows mask df). split; [|split; [|split]].
  - unfold dropna. rewrite (notna_all_rows df cols Ha Hc). reflexivity.
  - apply select_rows_aligned; assumption.
  - apply select_rows_columns.
  - rewrite rows_select_rows by assumption.
    unfold mask. rewrite mask_filter_of_map. unfold rows.
    rewrite filter_of_map. reflexivity.
Qed.

(** A frame whose rows have nothing missing in [cols] is left as it is. *)
Lemma dropna_nothing_missing df cols :
  aligned df -> forallb (has_column df) cols = true ->
  (forall r, In r (rows df) -> row_missing_in cols r = false) ->
  dropna df (Some cols) = Ok df.
Proof.
  intros Ha Hc Hr. unfold dropna.
  rewrite (notna_all_rows df cols Ha Hc). cbn [bind].
  rewrite <- (map_map (row_at df)
                (fun r => negb (row_missing_in cols r))).
  fold (rows df). rewrite map_all_true.
  - rewrite rows_length, select_rows_all by exact Ha. reflexivity.
  - intros r Hin. rewrite (Hr r Hin). reflexivity.
Qed.

Lemma forallb_has_column_same df d cols :
  columns d = columns df ->
  forallb (has_column d) cols = forallb (has_column df) cols.
Proof.
  intros E. apply forallb_same. intros c. unfold has_column.
  rewrite E. reflexivity.
Qed.

Lemma columns_present df : forallb (has_column df) (columns df) = true.
Proof.
  apply forallb_forall. intros c Hc. unfold has_column.
  apply existsb_exists. exists c. split; [exact Hc | apply text_eqb_refl].
Qed.

(** X13.  The drop is idempotent: dropping again with the same columns
    returns the frame the first drop returned.  This holds for the drop of
    app.py with its list of columns and for the drop branch of
    [handle_missing_values], which checks every column. *)
Theorem drop_is_idempotent (df : DataFrame) (cols : list text) method :
  aligned df ->
  forallb (has_column df) cols = true ->
  (exists d, app_drop_rows df cols = Ok d /\ app_drop_rows d cols = Ok d)
  /\ (exists d, handle_missing_values df (T "drop") method = Ok d
                /\ handle_missing_values d (T "drop") method = Ok d).
Proof.
  intros Ha Hc.
  assert (G : forall cs, forallb (has_column df) cs = true ->
              exists d, dropna df (Some cs) = Ok d
                        /\ columns d = columns df
                        /\ dropna d (Some cs) = Ok d).
  { intros cs Hcs.
    destruct (dropna_rows df cs Ha Hcs) as (d & Hrun & Had & Hcd & Hrows).
    exists d. split; [exact Hrun|]. split; [exact Hcd|].
    apply dropna_nothing_missing; auto.
    - rewrite (forallb_has_column_same df d cs Hcd). exact Hcs.
    - intros r Hin. rewrite Hrows in Hin. apply filter_In in Hin.
      apply negb_true_iff, Hin. }
  split.
  - destruct (G cols Hc) as (d & H1 & _ & H2). exists d. auto.
  - destruct (G (columns df) (columns_present df)) as (d & H1 & Hcd & H2).
    exists d. unfold handle_missing_values. cbn.
    unfold dropna in *. cbn [bind] in *. rewrite Hcd. auto.
Qed.

Lemma drop_is_idempotent_witness :
  aligned people_frame
  /\ forallb (has_column people_frame) [T "city"] = true
  /\ (exists d, app_drop_rows people_frame [T "city"] = Ok d
                /\ app_drop_rows d [T "city"] = Ok d)
  /\ (exists d, handle_missing_values people_frame (T "drop") None = Ok d
                /\ handle_missing_values d (T "drop") None = Ok d).
Proof.
  split; [exact people_frame_aligned|]. split; [reflexivity|].
  apply (drop_is_idempotent people_frame [T "city"] None
           people_frame_aligned eq_refl).
Defined.

(** X14.  The drop branch of [handle_missing_values] takes no list of
    columns: it removes every row with a missing value in any column, and
    in the frame it returns no column has a missing cell. *)
Theorem handle_missing_values_drop_leaves_nothing_missing
        (df : DataFrame) method :
  aligned df ->
  exists d,
    handle_missing_values df (T "drop") method = Ok d
    /\ rows d = filter (fun r => negb (row_missing_in (columns df) r))
                       (rows df)
    /\ columns d = columns df
    /\ (forall c s, getitem d c = Ok s -> has_missing s = false).
Proof.
  intros Ha.
  destruct (dropna_rows df (columns df) Ha (columns_present df))
    as (d & Hrun & Had & Hcd & Hrows).
  exists d. split; [exact Hrun|]. split; [exact Hrows|]. split; [exact Hcd|].
  intros c s Hg. unfold has_missing.
  destruct (existsb isna (values s)) eqn:E; [exfalso | reflexivity].
  apply existsb_exists in E. destruct E as (v & Hv & Hna).
  apply In_nth_error in Hv. destruct Hv as [i Hi].
  assert (Hlt : i < nrows d).
  { rewrite <- (aligned_length d c s Had Hg).
    apply nth_error_Some. congruence. }
  assert (Hrow : In (row_at d i) (rows d)).
  { unfold rows. apply in_map, in_seq. lia. }
  rewrite Hrows in Hrow. apply filter_In in Hrow. destruct Hrow as [_ Hrow].
  apply negb_true_iff in Hrow. unfold row_missing_in in Hrow.
  assert (Hin : In c (columns df)).
  { rewrite <- Hcd. unfold columns.
    apply in_map_iff. exists (c, s). split; [reflexivity|].
    apply getitem_In, Hg. }
  pose proof (existsb_exists
                (fun c0 => match row_get (row_at d i) c0 with
                           | Some v0 => isna v0
                           | None => false
                           end) (columns df)) as Hex.
  assert (Hcontra : existsb
                      (fun c0 => match row_get (row_at d i) c0 with
                                 | Some v0 => isna v0
                                 | None => false
                                 end) (columns df) = true).
  { apply Hex. exists c. split; [exact Hin|].
    rewrite (row_get_row_at d c s i Hg). unfold cell_at.
    rewrite (nth_error_nth _ _ _ Hi). exact Hna. }
  congruence.
Qed.

Lemma handle_missing_values_drop_leaves_nothing_missing_witness :
  aligned people_frame
  /\ exists d,
      handle_missing_values people_frame (T "drop") None = Ok d
      /\ rows d = filter (fun r => negb (row_missing_in
                                           (columns people_frame) r))
                         (rows people_frame)
      /\ columns d = columns people_frame
      /\ (forall c s, getitem d c = Ok s -> has_missing s = false).
Proof.
  split; [exact people_frame_aligned|].
  apply (handle_missing_values_drop_leaves_nothing_missing people_frame None
           people_frame_aligned).
Defined.

(* ------------------------------------------------------------------ *)
(** * The drop branch of app.py *)

Lemma map_const_false a n : map (fun _ : nat => false) (seq a n) = repeat false n.
Proof. apply map_const_seq. Qed.

Lemma isnull_any_rows df cols :
  aligned df -> forallb (has_column df) cols = true ->
  isnull_any df cols
  = Ok (map (fun i => row_missing_in cols (row_at df i)) (seq 0 (nrows df))).
Proof.
  intros Ha. induction cols as [|c cs IH]; intros Hc.
  - simpl. rewrite map_const_seq. reflexivity.
  - cbn [forallb] in Hc. apply andb_prop in Hc. destruct Hc as [Hc Hcs].
    apply getitem_has_column in Hc. destruct Hc as [s Hs].
    cbn [isnull_any]. rewrite Hs, (IH Hcs). cbn [bind].
    assert (E : map isna (values s)
                = map (fun i => isna (cell_at s i)) (seq 0 (nrows df))).
    { unfold cell_at. rewrite <- (aligned_length df c s Ha Hs).
      symmetry. apply (map_nth_seq isna). }
    rewrite E, zip_with_maps. f_equal.
    apply map_ext. intros i. unfold row_missing_in. cbn [existsb].
    rewrite (row_get_row_at df c s i Hs). reflexivity.
Qed.

(** X15.  In the drop branch of app.py the preview shows exactly the rows
    that have a missing value in a chosen column.  When it is empty the
    frame is left alone; otherwise the drop removes exactly the previewed
    rows: the frame it leaves holds the other rows, and the number in the
    success message is the number of rows of the preview. *)
Theorem app_drop_branch_counts_preview (df : DataFrame) (cols : list text) :
  aligned df ->
  cols <> [] ->
  forallb (has_column df) cols = true ->
  exists preview,
    rows_with_nulls df cols = Ok preview
    /\ rows preview = filter (row_missing_in cols) (rows df)
    /\ ((nrows preview = 0 /\ app_drop_branch df cols = Ok (df, None))
        \/ (0 < nrows preview
            /\ exists d,
                app_drop_branch df cols = Ok (d, Some (nrows preview))
                /\ rows d = filter (fun r => negb (row_missing_in cols r))
                                   (rows df)
                /\ nrows d + nrows preview = nrows df)).
Proof.
  intros Ha Hne Hc.
  set (mask := map (fun i => row_missing_in cols (row_at df i))
                   (seq 0 (nrows df))).
  assert (Hm : List.length mask = nrows df)
    by (unfold mask; rewrite length_map, length_seq; reflexivity).
  assert (Hp : rows_with_nulls df cols = Ok (select_rows mask df)).
  { unfold rows_with_nulls. rewrite (isnull_any_rows df cols Ha Hc).
    reflexivity. }
  assert (Hrows : rows (select_rows mask df)
                  = filter (row_missing_in cols) (rows df)).
  { rewrite rows_select_rows by assumption.
    unfold mask. rewrite mask_filter_of_map. unfold rows.
    rewrite filter_of_map. reflexivity. }
  exists (select_rows mask df). split; [exact Hp|]. split; [exact Hrows|].
  destruct (dropna_rows df cols Ha Hc) as (d & Hrun & _ & _ & Hd).
  assert (Hsum : nrows d + nrows (select_rows mask df) = nrows df).
  { rewrite <- !rows_length, Hd, Hrows.
    pose proof (filter_split_length (row_missing_in cols) (rows df)). lia. }
  unfold app_drop_branch. destruct cols as [|c0 cs]; [contradiction|].
  rewrite Hp. cbn [bind].
  destruct (nrows (select_rows mask df) =? 0) eqn:E.
  - left. apply Nat.eqb_eq in E. auto.
  - right. apply Nat.eqb_neq in E. split; [lia|].
    exists d. rewrite Hrun. cbn [bind]. split; [|split; [exact Hd|exact Hsum]].
    do 3 f_equal. lia.
Qed.

Lemma app_drop_branch_counts_preview_witness :
  aligned people_frame
  /\ [T "city"] <> []
  /\ forallb (has_column people_frame) [T "city"] = true
  /\ exists preview,
      rows_with_nulls people_frame [T "city"] = Ok preview
      /\ rows preview
         = filter (row_missing_in [T "city"]) (rows people_frame)
      /\ ((nrows preview = 0
           /\ app_drop_branch people_frame [T "city"]
              = Ok (people_frame, None))
          \/ (0 < nrows preview
              /\ exists d,
                  app_drop_branch people_frame [T "city"]
                  = Ok (d, Some (nrows preview))
                  /\ rows d
                     = filter (fun r => negb (row_missing_in [T "city"] r))
                              (rows people_frame)
                  /\ nrows d + nrows preview = nrows people_frame)).
Proof.
  assert (Hne : [T "city"] <> []) by discriminate.
  split; [exact people_frame_aligned|]. split; [exact Hne|].
  split; [reflexivity|].
  apply (app_drop_branch_counts_preview people_frame [T "city"]
           people_frame_aligned Hne eq_refl).
Defined.

(* ------------------------------------------------------------------ *)
(** * Duplicates, once more *)

Lemma row_keys_rows df cols :
  row_keys df cols = map (row_key cols) (rows df).
Proof.
  unfold row_keys, rows. rewrite map_map. apply map_ext.
  intros i. apply key_at_row_key.
Qed.

(** Keys that differ from what has been seen and from each other are no
    duplicates. *)
Lemma dup_scan_none keys : forall seen,
  (forall k, In k keys -> existsb (key_same k) seen = false) ->
  ForallOrdPairs (fun a b => key_same b a = false) keys ->
  dup_scan seen keys = repeat false (List.length keys).
Proof.
  induction keys as [|k ks IH]; intros seen Hs Hp; [reflexivity|].
  cbn [dup_scan]. rewrite (Hs k) by (left; reflexivity).
  cbn [List.length repeat]. f_equal.
  inversion Hp as [|? ? Hk Hrest]; subst.
  apply IH; [|exact Hrest].
  intros k' Hin. cbn [existsb].
  rewrite Forall_forall in Hk. rewrite (Hk k' Hin).
  apply Hs. right. exact Hin.
Qed.

Lemma ordered_pairs_map {B C : Type} (R : C -> C -> Prop) (g : B -> C)
      (l : list B) :
  ForallOrdPairs (fun a b => R (g a) (g b)) l -> ForallOrdPairs R (map g l).
Proof.
  induction 1 as [|a l Ha Hl IH]; simpl; constructor; auto.
  apply Forall_forall. intros y Hy. apply in_map_iff in Hy.
  destruct Hy as (x & <- & Hx). rewrite Forall_forall in Ha. auto.
Qed.

(** The mask of the deduplication and the frame it leaves. *)
Lemma drop_duplicates_rows df cols :
  aligned df -> forallb (has_column df) cols = true ->
  exists d,
    remove_duplicates df cols = Ok d
    /\ aligned d
    /\ columns d = columns df
    /\ rows d = map (row_at df)
                    (filter (first_with_key df cols) (seq 0 (nrows df))).
Proof.
  intros Ha Hc.
  set (dups := dup_scan [] (row_keys df cols)).
  assert (Hlen : List.length dups = nrows df).
  { unfold dups, row_keys.
    rewrite dup_scan_length, length_map, length_seq. reflexivity. }
  exists (select_rows (map negb dups) df). split; [|split; [|split]].
  - unfold remove_duplicates, drop_duplicates, duplicated.
    rewrite Hc. reflexivity.
  - apply select_rows_aligned; [exact Ha | rewrite length_map; exact Hlen].
  - apply select_rows_columns.
  - rewrite rows_select_rows by (auto; rewrite length_map; exact Hlen).
    f_equal. rewrite <- Hlen at 1. rewrite <- (length_map negb dups).
    rewrite mask_filter_seq, length_map, Hlen.
    apply filter_ext_in. intros i Hi. apply in_seq in Hi.
    rewrite Nat.sub_0_r.
    change false with (negb true). rewrite map_nth.
    rewrite (nth_indep _ true false) by lia.
    unfold dups. rewrite dup_scan_nth
      by (unfold row_keys; rewrite length_map, length_seq; lia).
    cbn [existsb orb]. unfold first_with_key. f_equal.
    assert (Hk : forall j, j < nrows df ->
                 nth j (row_keys df cols) [] = row_key cols (row_at df j)).
    { intros j Hj. unfold row_keys.
      rewrite (nth_indep _ [] (key_at (key_columns df cols) 0))
        by (rewrite length_map, length_seq; exact Hj).
      rewrite (map_nth (key_at (key_columns df cols))).
      rewrite seq_nth by exact Hj. apply key_at_row_key. }
    rewrite Hk by lia. apply existsb_ext_in.
    intros j Hj. apply in_seq in Hj. rewrite Hk by lia. reflexivity.
Qed.

(** X16.  The deduplication is idempotent: run again with the same key
    columns on its own result, it returns that result.  The list of key
    columns is not empty, as app.py sees to. *)
Theorem remove_duplicates_idempotent (df : DataFrame) (cols : list text) :
  aligned df ->
  cols <> [] ->
  forallb (has_column df) cols = true ->
  exists d,
    remove_duplicates df cols = Ok d /\ remove_duplicates d cols = Ok d.
Proof.
  intros Ha _ Hc.
  destruct (drop_duplicates_rows df cols Ha Hc) as (d & Hrun & Had & Hcd & Hr).
  exists d. split; [exact Hrun|].
  unfold remove_duplicates, drop_duplicates, duplicated.
  rewrite (forallb_has_column_same df d cols Hcd), Hc. cbn [bind].
  rewrite row_keys_rows, dup_scan_none.
  - rewrite length_map, rows_length.
    replace (map negb (repeat false (nrows d))) with (repeat true (nrows d))
      by (induction (nrows d); simpl; congruence).
    rewrite select_rows_all by exact Had. reflexivity.
  - intros k _. reflexivity.
  - rewrite Hr, map_map. apply ordered_pairs_of_filter; [apply seq_sorted|].
    intros i j Hij Hp. unfold first_with_key in Hp.
    apply negb_true_iff in Hp.
    destruct (key_same (row_key cols (row_at df j))
                       (row_key cols (row_at df i))) eqn:Hs; [|reflexivity].
    assert (Hex : existsb
                    (fun j0 => key_same (row_key cols (row_at df j))
                                        (row_key cols (row_at df j0)))
                    (seq 0 j) = true).
    { apply existsb_exists. exists i. split; [apply in_seq; lia | exact Hs]. }
    congruence.
Qed.

Lemma remove_duplicates_idempotent_witness :
  aligned people_frame
  /\ forallb (has_column people_frame) [T "name"] = true
  /\ exists d,
      remove_duplicates people_frame [T "name"] = Ok d
      /\ remove_duplicates d [T "name"] = Ok d.
Proof.
  split; [exact people_frame_aligned|]. split; [reflexivity|].
  apply (remove_duplicates_idempotent people_frame [T "name"]
           people_frame_aligned);
    [discriminate | reflexivity].
Defined.

(* ------------------------------------------------------------------ *)
(** * How many outliers a column can have *)

Lemma sq_nonneg x : (0 <= sq x)%Q.
Proof.
  unfold sq. destruct (Qlt_le_dec x 0) as [Hneg | Hpos].
  - setoid_replace (x * x)%Q with ((- x) * (- x))%Q by ring.
    apply Qmult_le_0_compat; apply (Qopp_le_compat x 0);
      apply Qlt_le_weak; exact Hneg.
  - apply Qmult_le_0_compat; exact Hpos.
Qed.

(** The squares of the values picked by a filter sum to no more than the
    squares of all. *)
Lemma Qsum_sq_filter (p : Q -> bool) mu xs :
  (Qsum (map (fun x => sq (x - mu)) (filter p xs)) <= sum_sq_dev mu xs)%Q.
Proof.
  unfold sum_sq_dev. induction xs as [|x xs IH]; simpl; [apply Qle_refl|].
  destruct (p x); simpl.
  - apply Qplus_le_compat; [apply Qle_refl | exact IH].
  - setoid_replace (Qsum (map (fun x0 => sq (x0 - mu)) (filter p xs)))
      with (0 + Qsum (map (fun x0 => sq (x0 - mu)) (filter p xs)))%Q by ring.
    apply Qplus_le_compat; [apply sq_nonneg | exact IH].
Qed.

(** Values that each exceed [c] sum to more than their number times [c]. *)
Lemma Qsum_above (f : Q -> Q) (c : Q) (l : list Q) :
  l <> [] -> (forall x, In x l -> c < f x)%Q ->
  (Qlen l * c < Qsum (map f l))%Q.
Proof.
  unfold Qlen. induction l as [|x l IH]; intros Hne H; [contradiction|].
  cbn [List.length map Qsum fold_right]. fold (Qsum (map f l)).
  rewrite Nat2Z.inj_succ. unfold Z.succ. rewrite inject_Z_plus.
  setoid_replace ((inject_Z (Z.of_nat (List.length l)) + inject_Z 1) * c)%Q
    with (c + inject_Z (Z.of_nat (List.length l)) * c)%Q by ring.
  destruct l as [|y l].
  - simpl. setoid_replace (c + inject_Z 0 * c)%Q with (c + 0)%Q by ring.
    rewrite Qplus_lt_l. apply H. left. reflexivity.
  - apply Qplus_lt_le_compat; [apply H; left; reflexivity|].
    apply Qlt_le_weak. apply IH; [discriminate|].
    intros z Hz. apply H. right. exact Hz.
Qed.

Lemma std_squared_times xs mu v :
  mean xs = Some mu -> std_squared xs = Some v ->
  2 <= List.length xs /\ (sum_sq_dev mu xs == v * (Qlen xs - 1))%Q.
Proof.
  intros Hm Hv. unfold std_squared in Hv. rewrite Hm in Hv.
  destruct (List.length xs <? 2) eqn:E; [discriminate|].
  apply Nat.ltb_ge in E. injection Hv as <-. split; [exact E|].
  assert (Hz : ~ (Qlen xs - 1 == 0)%Q).
  { destruct (List.length xs) as [|[|n]] eqn:L; try lia.
    pose proof (Qlen_pos xs (S n) L) as Hp.
    assert (H1 : (1 <= inject_Z (Z.of_nat (S n)))%Q)
      by (change 1%Q with (inject_Z 1); rewrite <- Zle_Qle; lia).
    intros E0.
    assert (Hq : (Qlen xs == 1)%Q).
    { setoid_replace (Qlen xs) with ((Qlen xs - 1) + 1)%Q by ring.
      rewrite E0. ring. }
    rewrite Hq in Hp. apply (Qlt_irrefl 1).
    eapply Qle_lt_trans; eassumption. }
  field. exact Hz.
Qed.

(** The count of outliers of a column: nine times the count is below the
    number of present values less one. *)
Lemma outlier_count_bound s :
  outlier_count s = 0
  \/ 9 * outlier_count s + 2 <= List.length (present (values s)).
Proof.
  unfold outlier_count. set (xs := present (values s)).
  destruct (mean xs) as [mu|] eqn:Hm; [|left; reflexivity].
  destruct (std_squared xs) as [v|] eqn:Hv; [|left; reflexivity].
  remember (filter (abs_z_above_3 mu v) xs) as out eqn:Hout.
  destruct (Nat.eq_dec (List.length out) 0) as [Hz | Hnz];
    [left; exact Hz | right].
  destruct (std_squared_times xs mu v Hm Hv) as [Hn Hss].
  pose proof (std_squared_nonneg xs v Hv) as Hv0.
  assert (Hab : forall x, In x out -> (9 * v < sq (x - mu))%Q).
  { intros x Hx. rewrite Hout in Hx.
    apply filter_In in Hx. destruct Hx as [_ Hx].
    unfold abs_z_above_3, Qltb in Hx. apply negb_true_iff in Hx.
    apply Qnot_le_lt. intros Hle. apply Qle_bool_iff in Hle. congruence. }
  assert (Hne : out <> []) by (intros ->; apply Hnz; reflexivity).
  pose proof (Qsum_above (fun x => sq (x - mu)) (9 * v) out Hne Hab) as H1.
  pose proof (Qsum_sq_filter (abs_z_above_3 mu v) mu xs) as H2.
  rewrite <- Hout in H2.
  assert (H3 : (Qlen out * (9 * v) < v * (Qlen xs - 1))%Q).
  { rewrite <- Hss. eapply Qlt_le_trans; eassumption. }
  assert (Hvpos : (0 < v)%Q).
  { apply Qle_lteq in Hv0. destruct Hv0 as [Hlt | Heq]; [exact Hlt|].
    exfalso. rewrite <- Heq in H3.
    setoid_replace (Qlen out * (9 * 0))%Q with 0%Q in H3 by ring.
    setoid_replace (0 * (Qlen xs - 1))%Q with 0%Q in H3 by ring.
    exact (Qlt_irrefl 0 H3). }
  assert (H4 : (Qlen out * 9 < Qlen xs - 1)%Q).
  { apply (Qmult_lt_r _ _ v Hvpos).
    setoid_replace (Qlen out * 9 * v)%Q with (Qlen out * (9 * v))%Q by ring.
    setoid_replace ((Qlen xs - 1) * v)%Q with (v * (Qlen xs - 1))%Q by ring.
    exact H3. }
  unfold Qlen in H4.
  assert (H5 : (inject_Z (Z.of_nat (List.length out) * 9 + 1)
                < inject_Z (Z.of_nat (List.length xs)))%Q).
  { rewrite inject_Z_plus, inject_Z_mult.
    change (inject_Z 9) with 9%Q. change (inject_Z 1) with 1%Q.
    apply (Qplus_lt_l _ _ (- (1))%Q).
    setoid_replace (inject_Z (Z.of_nat (List.length out)) * 9 + 1 + - (1))%Q
      with (inject_Z (Z.of_nat (List.length out)) * 9)%Q by ring.
    exact H4. }
  rewrite <- Zlt_Qlt in H5. lia.
Qed.



(** The column [1, 2, 3, 4, 100]: the value 100 is not reported. *)
Example detect_outliers_five_values :
  detect_outliers [(T "v", mkSeries Int64 (int_cells [1; 2; 3; 4; 100]%Z))]
  = Ok [].
Proof. vm_compute. reflexivity. Qed.

(* ------------------------------------------------------------------ *)
(** * Imputation by mean and median *)

Lemma insert_sorted_length x l :
  List.length (insert_sorted x l) = S (List.length l).
Proof.
  induction l as [|y l IH]; [reflexivity|]. simpl.
  destruct (Qle_bool x y); simpl; [reflexivity | rewrite IH; reflexivity].
Qed.

Lemma sort_values_length xs : List.length (sort_values xs) = List.length xs.
Proof.
  induction xs as [|x xs IH]; [reflexivity|]. simpl.
  rewrite insert_sorted_length, IH. reflexivity.
Qed.

(** Mean and median have a value on every column that has one. *)
Lemma plain_statistic_value m stat xs :
  plain_statistic m = Some stat -> xs <> [] -> exists q, stat xs = Some q.
Proof.
  unfold plain_statistic. intros H Hne.
  destruct (text_eqb m (T "mean")).
  - injection H as <-. destruct xs as [|x xs]; [congruence|].
    simpl. eauto.
  - destruct (text_eqb m (T "median")); [|discriminate].
    injection H as <-. unfold median. rewrite sort_values_length.
    destruct xs as [|x xs]; [congruence|]. cbn [List.length Nat.eqb].
    destruct (Nat.even (S (List.length xs))); eauto.
Qed.

Lemma plain_statistic_statistic m stat xs :
  plain_statistic m = Some stat -> statistic m xs = Some (Ok (stat xs)).
Proof.
  unfold plain_statistic, statistic. intros H.
  destruct (text_eqb m (T "mean")); [injection H as <-; reflexivity|].
  destruct (text_eqb m (T "median")); [injection H as <-; reflexivity|].
  discriminate.
Qed.

Lemma filled_no_missing q s : has_missing (filled q s) = false.
Proof.
  unfold has_missing, filled. cbn [values].
  induction (values s) as [|c cs IH]; [reflexivity|].
  cbn [map existsb]. rewrite IH. destruct c; reflexivity.
Qed.

Lemma fill_nothing q cs :
  existsb isna cs = false ->
  map (fun c => if isna c then CFloat q else c) cs = cs.
Proof.
  induction cs as [|c cs IH]; [reflexivity|]. cbn [existsb map].
  intros H. apply orb_false_iff in H. destruct H as [Hc Hcs].
  rewrite Hc, (IH Hcs). reflexivity.
Qed.

Lemma filled_again q q' s : filled q' (filled q s) = filled q s.
Proof.
  unfold filled at 1. cbn [dtype values filled].
  rewrite fill_nothing; [reflexivity|]. apply (filled_no_missing q s).
Qed.

Lemma fillna_filled s q :
  dtype s <> NullableInt64 -> fillna s (Some q) = Ok (filled q s).
Proof.
  intros H. unfold fillna, filled. destruct (dtype s); congruence.
Qed.

Lemma present_filled_length q cs :
  List.length (present cs)
  <= List.length (present (map (fun c => if isna c then CFloat q else c) cs)).
Proof.
  induction cs as [|c cs IH]; [simpl; lia|].
  destruct c; cbn [map isna present num_of_cell List.length]; lia.
Qed.

Lemma present_filled_nonempty q s :
  present (values s) <> [] -> present (values (filled q s)) <> [].
Proof.
  intros H E. pose proof (present_filled_length q (values s)) as Hl.
  unfold filled in E. cbn [values] in E. rewrite E in Hl.
  destruct (present (values s)); [congruence | simpl in Hl; lia].
Qed.

Lemma no_nullable_In df c s :
  no_nullable df = true -> In (c, s) df -> dtype s <> NullableInt64.
Proof.
  unfold no_nullable. intros H Hin. rewrite forallb_forall in H.
  specialize (H _ Hin). cbn [snd] in H. intros E. rewrite E in H.
  discriminate.
Qed.

Lemma no_nullable_setitem df c s :
  no_nullable df = true -> dtype s <> NullableInt64 ->
  no_nullable (setitem df c s) = true.
Proof.
  unfold no_nullable. intros H Hs.
  assert (Hd : match dtype s with NullableInt64 => false | _ => true end
               = true) by (destruct (dtype s); congruence).
  induction df as [|[n s0] df IH]; cbn [setitem forallb snd].
  - rewrite Hd. reflexivity.
  - cbn [forallb snd] in H. apply andb_true_iff in H. destruct H as [H1 H2].
    destruct (text_eqb n c); cbn [forallb snd].
    + rewrite Hd, H2. reflexivity.
    + rewrite H1, (IH H2). reflexivity.
Qed.

Section ImputeLoop.

Variables (m : text) (stat : list Q -> option Q).
Hypothesis Hplain : plain_statistic m = Some stat.

(** One round of the loop on a column of the frame. *)
Lemma impute_column_step df c s :
  no_nullable df = true -> getitem df c = Ok s ->
  impute_column (Some m) df c
  = Ok (match stat (present (values s)) with
        | Some q => setitem df c (filled q s)
        | None => df
        end).
Proof.
  intros Hnn Hg. unfold impute_column. rewrite Hg. cbn [bind].
  rewrite (plain_statistic_statistic m stat _ Hplain). cbn [bind].
  destruct (stat (present (values s))) as [q|].
  - rewrite fillna_filled; [reflexivity|].
    apply (no_nullable_In df c s Hnn). apply getitem_In. exact Hg.
  - cbn [fillna bind]. rewrite (setitem_same df c s Hg). reflexivity.
Qed.

Lemma impute_loop_fills col s0 :
  present (values s0) <> [] ->
  forall cols df done,
    no_nullable df = true ->
    (forall c, In c cols -> has_column df c = true) ->
    impute_state stat s0 col done df ->
    exists df',
      impute_loop (Some m) cols df = Ok df'
      /\ columns df' = columns df
      /\ impute_state stat s0 col (done || existsb (text_eqb col) cols) df'.
Proof.
  intros Hne cols. induction cols as [|c cols IH]; intros df done Hnn Hcols Hst.
  - exists df. cbn [impute_loop existsb]. rewrite orb_false_r. auto.
  - cbn [impute_loop existsb].
    assert (Hc : has_column df c = true) by (apply Hcols; left; reflexivity).
    apply getitem_has_column in Hc. destruct Hc as [s Hg].
    rewrite (impute_column_step df c s Hnn Hg). cbn [bind].
    set (df1 := match stat (present (values s)) with
                | Some q => setitem df c (filled q s)
                | None => df
                end).
    assert (Hcol1 : columns df1 = columns df).
    { unfold df1. destruct (stat (present (values s))); [|reflexivity].
      apply columns_setitem. apply getitem_has_column. eauto. }
    assert (Hnn1 : no_nullable df1 = true).
    { unfold df1. destruct (stat (present (values s))); [|exact Hnn].
      apply no_nullable_setitem; [exact Hnn|]. cbn [filled dtype].
      apply (no_nullable_In df c s Hnn). apply getitem_In. exact Hg. }
    assert (Hcols1 : forall c', In c' cols -> has_column df1 c' = true).
    { intros c' Hc'. unfold has_column. rewrite Hcol1.
      apply Hcols. right. exact Hc'. }
    assert (Hst1 : impute_state stat s0 col (done || text_eqb col c) df1).
    { destruct (text_eqb col c) eqn:E.
      - apply text_eqb_eq in E. subst c. rewrite orb_true_r. cbn [impute_state].
        destruct done; cbn [impute_state] in Hst.
        + destruct Hst as (q & Hq & Hg0).
          assert (s = filled q s0) by congruence. subst s.
          exists q. split; [exact Hq|]. unfold df1.
          destruct (plain_statistic_value m stat _ Hplain
                      (present_filled_nonempty q s0 Hne)) as [q' Hq'].
          rewrite Hq'. rewrite filled_again. apply getitem_setitem_same.
        + assert (s = s0) by congruence. subst s.
          destruct (plain_statistic_value m stat _ Hplain Hne) as [q Hq].
          exists q. split; [exact Hq|]. unfold df1. rewrite Hq.
          apply getitem_setitem_same.
      - rewrite orb_false_r.
        assert (Hsame : getitem df1 col = getitem df col).
        { unfold df1. destruct (stat (present (values s))); [|reflexivity].
          apply getitem_setitem_other. rewrite text_eqb_sym. exact E. }
        destruct done; cbn [impute_state] in *.
        + destruct Hst as (q & Hq & Hg0). exists q. split; congruence.
        + congruence. }
    destruct (IH df1 _ Hnn1 Hcols1 Hst1) as (df' & Hl & Hc' & Hs').
    exists df'. split; [exact Hl|]. split; [congruence|].
    rewrite orb_assoc. exact Hs'.
Qed.

End ImputeLoop.



(** ** The mean after imputation by mean *)

Lemma present_filled_count q cs :
  List.length (present (map (fun c => if isna c then CFloat q else c) cs))
  = List.length (present cs) + List.length (filter isna cs).
Proof.
  induction cs as [|c cs IH]; [reflexivity|].
  destruct c; cbn [map isna present num_of_cell List.length filter];
    rewrite IH; lia.
Qed.

Lemma present_filled_sum q cs :
  (Qsum (present (map (fun c => if isna c then CFloat q else c) cs))
   == Qsum (present cs)
      + inject_Z (Z.of_nat (List.length (filter isna cs))) * q)%Q.
Proof.
  induction cs as [|c cs IH].
  - cbn. ring.
  - destruct c; cbn [map isna present num_of_cell Qsum fold_right filter];
      fold (Qsum (present (map (fun c => if isna c then CFloat q else c) cs)));
      fold (Qsum (present cs)); rewrite IH; try ring.
    cbn [List.length]. rewrite Nat2Z.inj_succ, <- Z.add_1_r, inject_Z_plus.
    change (inject_Z 1) with 1%Q. ring.
Qed.

Lemma Qlen_app_length (xs : list Q) (k n : nat) :
  List.length xs = n + k ->
  (Qlen xs == inject_Z (Z.of_nat n) + inject_Z (Z.of_nat k))%Q.
Proof.
  intros H. unfold Qlen. rewrite H, Nat2Z.inj_add, inject_Z_plus. reflexivity.
Qed.

(** Filling the gaps of a column with its mean does not move the mean. *)
Lemma mean_filled cs mu :
  mean (present cs) = Some mu ->
  exists mu',
    mean (present (map (fun c => if isna c then CFloat mu else c) cs))
    = Some mu'
    /\ (mu' == mu)%Q.
Proof.
  intros Hm.
  pose proof (present_filled_count mu cs) as Hc.
  pose proof (present_filled_sum mu cs) as Hs.
  set (ys := present (map (fun c => if isna c then CFloat mu else c) cs)) in *.
  set (xs := present cs) in *.
  set (k := List.length (filter isna cs)) in *.
  destruct xs as [|x xs'] eqn:Hx; [discriminate|]. rewrite <- Hx in *.
  assert (Hn : (0 < Qlen xs)%Q).
  { unfold Qlen. rewrite Hx. change 0%Q with (inject_Z 0).
    rewrite <- Zlt_Qlt. cbn [List.length]. lia. }
  assert (Hmu : (mu == Qsum xs / Qlen xs)%Q).
  { rewrite Hx in Hm. cbn [mean] in Hm. injection Hm as <-.
    rewrite Hx. reflexivity. }
  assert (Hk : (0 <= inject_Z (Z.of_nat k))%Q).
  { change 0%Q with (inject_Z 0). rewrite <- Zle_Qle. lia. }
  assert (Hl : (Qlen ys == Qlen xs + inject_Z (Z.of_nat k))%Q).
  { apply Qlen_app_length. exact Hc. }
  destruct ys as [|y ys'] eqn:Hy.
  { exfalso. rewrite Hx in Hc. cbn [List.length] in Hc. lia. }
  rewrite <- Hy in *. exists (Qsum ys / Qlen ys)%Q. split.
  { rewrite Hy. reflexivity. }
  rewrite Hs, Hl, Hmu. field. split.
  - intros E. rewrite E in Hn. exact (Qlt_irrefl 0 Hn).
  - intros E.
    assert (H0 : (0 < Qlen xs + inject_Z (Z.of_nat k))%Q).
    { apply Qlt_le_trans with (Qlen xs + 0)%Q.
      - setoid_replace (Qlen xs + 0)%Q with (Qlen xs) by ring. exact Hn.
      - apply Qplus_le_r. exact Hk. }
    rewrite E in H0. exact (Qlt_irrefl 0 H0).
Qed.



(* ------------------------------------------------------------------ *)
(** * The type conversion as a whole *)

Lemma cast_all_length cs : forall vs,
  cast_all cs = Ok vs -> List.length vs = List.length cs.
Proof.
  induction cs as [|c cs IH]; intros vs; cbn [cast_all].
  - intros [= <-]. reflexivity.
  - destruct (cast_Int64 c) as [c'|e]; [|discriminate]. cbn [bind].
    destruct (cast_all cs) as [r|e]; [|discriminate]. cbn [bind].
    intros [= <-]. cbn [List.length]. rewrite (IH r eq_refl). reflexivity.
Qed.

Lemma convert_series_length L ty s s' :
  convert_series L ty s = Ok s' ->
  List.length (values s') = List.length (values s).
Proof.
  unfold convert_series.
  destruct (text_eqb ty (T "int")).
  { unfold astype_Int64.
    destruct (cast_all (values (to_numeric L s))) as [vs|e] eqn:E;
      [|discriminate].
    cbn [bind]. intros [= <-]. cbn [values].
    rewrite (cast_all_length _ _ E). unfold to_numeric. cbn [values].
    apply length_map. }
  destruct (text_eqb ty (T "float")).
  { intros [= <-]. unfold to_numeric. cbn [values]. apply length_map. }
  destruct (text_eqb ty (T "str")).
  { intros [= <-]. unfold astype_str. cbn [values]. apply length_map. }
  destruct (text_eqb ty (T "datetime")).
  { intros [= <-]. unfold to_datetime. cbn [values]. apply length_map. }
  intros [= <-]. reflexivity.
Qed.

(** A conversion that goes through keeps the columns and their lengths. *)
Lemma convert_one_shape L df col ty df' :
  convert_one L df col ty = Ok df' ->
  columns df' = columns df
  /\ forall c s, getitem df c = Ok s ->
                 exists s', getitem df' c = Ok s'
                            /\ List.length (values s')
                               = List.length (values s).
Proof.
  intros H. destruct (getitem df col) as [s0|e] eqn:Hg.
  - rewrite (convert_one_series L df col ty s0 Hg) in H.
    destruct (convert_series L ty s0) as [s1|e] eqn:Hs; [|discriminate].
    cbn [bind] in H. injection H as <-. split.
    + apply columns_setitem. apply getitem_has_column. eauto.
    + intros c s Hc. destruct (text_eqb col c) eqn:E.
      * apply text_eqb_eq in E. subst c. exists s1.
        split; [apply getitem_setitem_same|].
        assert (s = s0) by congruence. subst s.
        exact (convert_series_length L ty s0 s1 Hs).
      * exists s. split; [|reflexivity].
        rewrite (getitem_setitem_other _ _ _ _ E). exact Hc.
  - unfold convert_one in H. rewrite Hg in H. cbn [bind] in H.
    repeat match type of H with
           | (if ?b then _ else _) = _ => destruct b; [discriminate|]
           end.
    injection H as <-. split; [reflexivity|]. eauto.
Qed.

Lemma convert_one_absent L df col ty :
  has_column df col = false -> known_target ty = true ->
  convert_one L df col ty = Raise KeyError.
Proof.
  intros Hc Hk. apply has_column_false in Hc.
  unfold convert_one, known_target in *. rewrite Hc. cbn [bind].
  destruct (text_eqb ty (T "int")); [reflexivity|].
  destruct (text_eqb ty (T "float")); [reflexivity|].
  destruct (text_eqb ty (T "str")); [reflexivity|].
  destruct (text_eqb ty (T "datetime")); [reflexivity|].
  discriminate.
Qed.

Lemma converted_shape L convs : forall df,
  columns (fst (converted L df convs)) = columns df
  /\ (forall c s, getitem df c = Ok s ->
                  exists s', getitem (fst (converted L df convs)) c = Ok s'
                             /\ List.length (values s')
                                = List.length (values s))
  /\ (forall col ty e, In (col, ty, e) (snd (converted L df convs)) ->
                       In (col, ty) convs)
  /\ (forall col ty, In (col, ty) convs -> has_column df col = false ->
                     known_target ty = true ->
                     In (col, ty, KeyError) (snd (converted L df convs))).
Proof.
  induction convs as [|[c t] rest IH]; intros df.
  - cbn [converted fst snd]. repeat split; eauto; contradiction.
  - cbn [converted].
    destruct (convert_one L df c t) as [df1|e] eqn:Hc.
    + destruct (convert_one_shape L df c t df1 Hc) as [Hcols Hlen].
      destruct (IH df1) as (I1 & I2 & I3 & I4).
      split; [congruence|]. split; [|split].
      * intros c0 s Hg. destruct (Hlen c0 s Hg) as (s1 & Hg1 & Hl1).
        destruct (I2 c0 s1 Hg1) as (s2 & Hg2 & Hl2).
        exists s2. split; [exact Hg2 | congruence].
      * intros col ty e0 Hin. right. eauto.
      * intros col ty [Heq | Hin] Habs Hk.
        -- injection Heq as -> ->.
           rewrite (convert_one_absent L df col ty Habs Hk) in Hc.
           discriminate.
        -- apply (I4 col ty Hin); [|exact Hk].
           unfold has_column in *. rewrite Hcols. exact Habs.
    + destruct (IH df) as (I1 & I2 & I3 & I4).
      destruct (converted L df rest) as [df2 out2] eqn:Hr.
      cbn [fst snd] in *. split; [exact I1|]. split; [exact I2|]. split.
      * intros col ty e0 [Heq | Hin].
        -- injection Heq as <- <- <-. left. reflexivity.
        -- right. eauto.
      * intros col ty [Heq | Hin] Habs Hk.
        -- injection Heq as -> ->.
           rewrite (convert_one_absent L df col ty Habs Hk) in Hc.
           injection Hc as <-. left. reflexivity.
        -- right. eauto.
Qed.

(** X20.  The conversion never raises and never changes the shape of the
    frame: whatever the dict asks for, the call returns a frame with the
    same columns in the same order and the same number of cells in each;
    every message it prints is for an entry of the dict, and an entry
    that names a column the frame does not have, with one of the four
    targets, gets the message of a KeyError, no column being added. *)
Theorem convert_column_types_keeps_shape
        (L : Lib) (df : DataFrame) (conversions : list (text * text)) :
  exists df' out,
    convert_column_types L df conversions = Ok (df', out)
    /\ columns df' = columns df
    /\ (forall c s, getitem df c = Ok s ->
                    exists s', getitem df' c = Ok s'
                               /\ List.length (values s')
                                  = List.length (values s))
    /\ (forall col ty e, In (col, ty, e) out -> In (col, ty) conversions)
    /\ (forall col ty, In (col, ty) conversions ->
                       has_column df col = false ->
                       known_target ty = true ->
                       In (col, ty, KeyError) out).
Proof.
  exists (fst (converted L df conversions)),
         (snd (converted L df conversions)).
  split.
  - rewrite convert_column_types_returns.
    destruct (converted L df conversions); reflexivity.
  - apply converted_shape.
Qed.

(* ------------------------------------------------------------------ *)
(** * Honorifics at the start of a longer word *)

Lemma lit_eqb_other a a' x :
  lit_eqb true a x = true ->
  lit_eqb true a' x = char_eqb (lower_char a') (lower_char a).
Proof.
  unfold lit_eqb, char_eqb. intros H. apply Ascii.eqb_eq in H.
  rewrite H. reflexivity.
Qed.

Lemma dot_not_word c : is_word c = true -> lit_eqb true (char ".") c = false.
Proof. each_char c. Qed.

(** After the honorific a word character ends the match: the optional
    full stop and the blanks match nothing. *)
Lemma title_tail_at_word (A : Type) prev c rest (k : cont A) :
  is_word c = true ->
  rmatch true (Cat (Opt (Lit (char "."))) (Rep is_space 0 None))
    prev (c :: rest) k
  = k prev (c :: rest).
Proof.
  intros Hc. cbn [rmatch rep_exact rep_greedy].
  rewrite (dot_not_word c Hc). cbn [or_else].
  rewrite (space_not_word c Hc). reflexivity.
Qed.

Lemma title_len_two a b x y c rest :
  In [a; b] [T "mr"; T "dr"; T "ms"] ->
  lit_eqb true a x = true -> lit_eqb true b y = true ->
  is_word c = true ->
  match_len title_pattern None (x :: y :: c :: rest) = Some 2.
Proof.
  intros Hin Hx Hy Hc.
  assert (Ha : is_lower a = true).
  { destruct Hin as [H|[H|[H|[]]]]; injection H as <- <-; reflexivity. }
  unfold match_len, title_pattern. cbn [ignorecase expr].
  set (tl := Cat (Opt (Lit (char "."))) (Rep is_space 0 None)).
  cbn [rmatch is_word_at hd_error].
  rewrite (lit_eqb_word a x Ha Hx). cbn [xorb].
  cbn [lit T list_ascii_of_string rmatch].
  rewrite !(lit_eqb_other a _ x Hx), !(lit_eqb_other b _ y Hy).
  destruct Hin as [H|[H|[H|[]]]]; injection H as <- <-;
    repeat match goal with
           | |- context [char_eqb (lower_char ?p) (lower_char ?q)] =>
               let v := eval vm_compute in
                        (char_eqb (lower_char p) (lower_char q)) in
               change (char_eqb (lower_char p) (lower_char q)) with v
           end;
    cbn [or_else];
    unfold tl; rewrite (title_tail_at_word _ _ c rest _ Hc);
    cbn [or_else List.length]; f_equal; lia.
Qed.

Lemma title_len_four x y z w c rest :
  lit_eqb true (char "s") x = true -> lit_eqb true (char "h") y = true ->
  lit_eqb true (char "r") z = true -> lit_eqb true (char "i") w = true ->
  is_word c = true ->
  match_len title_pattern None (x :: y :: z :: w :: c :: rest) = Some 4.
Proof.
  intros Hx Hy Hz Hw Hc.
  unfold match_len, title_pattern. cbn [ignorecase expr].
  set (tl := Cat (Opt (Lit (char "."))) (Rep is_space 0 None)).
  cbn [rmatch is_word_at hd_error].
  rewrite (lit_eqb_word (char "s") x eq_refl Hx). cbn [xorb].
  cbn [lit T list_ascii_of_string rmatch].
  rewrite !(lit_eqb_other _ _ x Hx), !(lit_eqb_other _ _ y Hy),
    !(lit_eqb_other _ _ z Hz), !(lit_eqb_other _ _ w Hw).
  repeat match goal with
         | |- context [char_eqb (lower_char ?p) (lower_char ?q)] =>
             let v := eval vm_compute in
                      (char_eqb (lower_char p) (lower_char q)) in
             change (char_eqb (lower_char p) (lower_char q)) with v
         end.
  cbn [or_else].
  unfold tl. rewrite (title_tail_at_word _ _ c rest _ Hc).
  cbn [List.length]. f_equal. lia.
Qed.

(** Between two word characters there is no word boundary, so no match. *)
Lemma no_title_inside_word p c rest :
  is_word p = true -> is_word c = true ->
  match_len title_pattern (Some p) (c :: rest) = None.
Proof.
  intros Hp Hc. unfold match_len, title_pattern. cbn [ignorecase expr].
  cbn [rmatch is_word_at hd_error]. rewrite Hp, Hc. reflexivity.
Qed.

Lemma lower_char_lit a x :
  lower_char x = a -> lower_char a = a -> lit_eqb true a x = true.
Proof.
  intros Hx Ha. unfold lit_eqb, char_eqb. rewrite Hx, Ha.
  apply Ascii.eqb_refl.
Qed.



(* ------------------------------------------------------------------ *)
(** * Column names that fall together *)

Lemma columns_standardize df :
  columns (standardize_column_names df) = map standardize_name (columns df).
Proof.
  unfold columns, standardize_column_names. rewrite !map_map. reflexivity.
Qed.

(** X22.  Standardizing can make two column names equal.  Two columns
    whose names differ only in letter case and in blanks around them get
    the same name, so the frame that comes out has a name twice, also
    when the names of the frame that went in were all different. *)
Theorem standardize_column_names_can_merge
        (df : DataFrame) (i j : nat) (a b : text) (sa sb : Series) :
  nth_error df i = Some (a, sa) ->
  nth_error df j = Some (b, sb) ->
  i <> j ->
  lower (strip a) = lower (strip b) ->
  nth_error (columns (standardize_column_names df)) i
  = nth_error (columns (standardize_column_names df)) j
  /\ ~ NoDup (columns (standardize_column_names df)).
Proof.
  intros Hi Hj Hne He.
  assert (Hsame : nth_error (columns (standardize_column_names df)) i
                  = nth_error (columns (standardize_column_names df)) j).
  { rewrite columns_standardize. unfold columns.
    rewrite !nth_error_map, Hi, Hj. cbn [option_map fst].
    rewrite !standardize_name_map, He. reflexivity. }
  split; [exact Hsame|].
  intros Hnd. apply Hne.
  rewrite NoDup_nth_error in Hnd. apply Hnd; [|exact Hsame].
  rewrite columns_standardize. unfold columns. rewrite !length_map.
  apply nth_error_Some. rewrite Hi. discriminate.
Qed.

Lemma standardize_column_names_can_merge_witness :
  NoDup (columns labels_frame)
  /\ nth_error (columns (standardize_column_names labels_frame)) 0
     = nth_error (columns (standardize_column_names labels_frame)) 1
  /\ ~ NoDup (columns (standardize_column_names labels_frame)).
Proof.
  split.
  - repeat constructor; simpl; intuition discriminate.
  - apply (standardize_column_names_can_merge labels_frame 0 1
             (T "Name") (T " name ")
             (mkSeries Object [CText (T "a")])
             (mkSeries Object [CText (T "b")]));
      [reflexivity | reflexivity | discriminate | reflexivity].
Defined.

(* ------------------------------------------------------------------ *)
(** * Distinct values: the inspector, the expander and the deduplicator *)

Lemma cell_same_missing m x : cell_same (CMissing m) x = isna x.
Proof. destruct x; reflexivity. Qed.

Lemma cell_same_present_missing c m :
  isna c = false -> cell_same c (CMissing m) = false.
Proof. destruct c; try reflexivity. discriminate. Qed.

Lemma existsb_same_present c seen :
  isna c = false ->
  existsb (cell_same c) (filter (fun x => negb (isna x)) seen)
  = existsb (cell_same c) seen.
Proof.
  intros Hc. induction seen as [|x seen IH]; [reflexivity|].
  cbn [filter existsb]. destruct x; cbn [isna negb existsb]; rewrite IH;
    try reflexivity.
  rewrite (cell_same_present_missing c m Hc). reflexivity.
Qed.

(** X23.  The number the expander of app.py shows as the total of unique
    values of a column is the number the inspector shows for it: dropping
    the missing values first and collecting the distinct ones after
    counts the same as [nunique]. *)
Theorem unique_vals_count_is_nunique (df : DataFrame) (i : nat) (r : InfoRow) :
  nth_error (show_df_info df) i = Some r ->
  exists s,
    nth_error df i = Some (info_column r, s)
    /\ List.length (unique_vals s) = info_unique r
    /\ forallb (fun c => negb (isna c)) (unique_vals s) = true.
Proof.
  unfold show_df_info. rewrite nth_error_map.
  destruct (nth_error df i) as [[n s]|] eqn:E; [|discriminate].
  intros [= <-]. cbn [info_column info_unique fst snd].
  exists s. split; [reflexivity|].
  unfold unique_vals, nunique.
  assert (G : forall cs seen,
             List.length (unique_scan seen
                            (filter (fun c => negb (isna c)) cs))
             = count_distinct seen cs
             /\ forallb (fun c => negb (isna c))
                  (unique_scan seen (filter (fun c => negb (isna c)) cs))
                = true).
  { induction cs as [|c cs IH]; intros seen; [split; reflexivity|].
    cbn [filter count_distinct]. destruct (isna c) eqn:Hc; cbn [negb].
    - apply IH.
    - cbn [unique_scan]. destruct (existsb (cell_same c) seen).
      + apply IH.
      + cbn [List.length forallb]. rewrite Hc. cbn [negb andb].
        destruct (IH (c :: seen)) as [H1 H2]. rewrite H1. auto. }
  apply G.
Qed.

Lemma unique_vals_count_is_nunique_witness :
  exists s,
    nth_error cities_frame 0 = Some (T "city", s)
    /\ List.length (unique_vals s) = 2
    /\ forallb (fun c => negb (isna c)) (unique_vals s) = true.
Proof.
  apply (unique_vals_count_is_nunique cities_frame 0
           (mkInfo (T "city") (T "object") 2 2)).
  reflexivity.
Defined.

(** ** The rows the deduplicator leaves, counted *)

Lemma key_columns_absent df col :
  ~ In col (columns df) -> key_columns df [col] = [].
Proof.
  unfold key_columns, columns. induction df as [|[n s] df IH]; [reflexivity|].
  cbn [map fst In filter existsb]. intros H.
  assert (E : text_eqb n col = false) by (apply text_eqb_neq; tauto).
  rewrite E. cbn [orb]. apply IH. tauto.
Qed.

Lemma key_columns_single df col s :
  NoDup (columns df) -> getitem df col = Ok s -> key_columns df [col] = [s].
Proof.
  unfold columns. induction df as [|[n s0] df IH]; [discriminate|].
  cbn [map fst getitem]. intros Hnd Hg.
  inversion Hnd as [|? ? Hnotin Hnd']; subst.
  unfold key_columns. cbn [filter].
  replace (existsb (fun c => text_eqb (fst (n, s0)) c) [col])
    with (text_eqb n col)
    by (cbn [existsb fst]; rewrite orb_false_r; reflexivity).
  destruct (text_eqb n col) eqn:E; cbn [map snd].
  - injection Hg as <-. apply text_eqb_eq in E. subst n.
    pose proof (key_columns_absent df col Hnotin) as Hab.
    unfold key_columns in Hab. rewrite Hab. reflexivity.
  - apply (IH Hnd' Hg).
Qed.

Lemma mask_filter_count {B : Type} m : forall l : list B,
  List.length m = List.length l ->
  List.length (mask_filter m l) = List.length (filter (fun b => b) m).
Proof.
  induction m as [|b m IH]; intros [|x l] H; try discriminate;
    [reflexivity|].
  cbn [mask_filter filter]. injection H as H.
  destruct b; cbn [List.length]; rewrite (IH l H); reflexivity.
Qed.

(** The new keys among the single-cell keys of a column. *)
Lemma dup_scan_single cs : forall seen,
  List.length
    (filter (fun b => b)
       (map negb (dup_scan (map (fun c => [c]) seen)
                           (map (fun c => [c]) cs))))
  = count_distinct (filter (fun x => negb (isna x)) seen) cs
    + (if existsb isna cs && negb (existsb isna seen) then 1 else 0).
Proof.
  assert (K : forall c seen,
             existsb (key_same [c]) (map (fun x => [x]) seen)
             = existsb (cell_same c) seen).
  { intros c seen. induction seen as [|x seen IH]; [reflexivity|].
    cbn [map existsb]. rewrite IH. cbn [key_same].
    rewrite andb_true_r. reflexivity. }
  induction cs as [|c cs IH]; intros seen.
  - reflexivity.
  - cbn [map dup_scan count_distinct existsb]. rewrite K.
    destruct (isna c) eqn:Hc.
    + destruct c; try discriminate.
      assert (E : existsb (cell_same (CMissing m)) seen = existsb isna seen).
      { apply existsb_ext_in. intros x _. apply cell_same_missing. }
      rewrite E. cbn [orb].
      destruct (existsb isna seen) eqn:Hs; cbn [map negb filter].
      * rewrite IH, Hs. cbn [negb]. rewrite andb_false_r. reflexivity.
      * cbn [List.length].
        change ([CMissing m] :: map (fun c => [c]) seen)
          with (map (fun c => [c]) (CMissing m :: seen)).
        rewrite IH. cbn [filter isna negb existsb orb].
        rewrite andb_false_r. cbn [andb]. lia.
    + cbn [orb]. rewrite (existsb_same_present c seen Hc).
      destruct (existsb (cell_same c) seen) eqn:Hs; cbn [map negb filter].
      * apply IH.
      * cbn [List.length].
        change ([c] :: map (fun c => [c]) seen)
          with (map (fun c => [c]) (c :: seen)).
        rewrite IH. cbn [filter existsb]. rewrite Hc. cbn [negb orb]. lia.
Qed.

Lemma row_keys_single df col s :
  aligned df -> NoDup (columns df) -> getitem df col = Ok s ->
  row_keys df [col] = map (fun c => [c]) (values s).
Proof.
  intros Ha Hnd Hg. unfold row_keys.
  rewrite (key_columns_single df col s Hnd Hg).
  rewrite <- (aligned_length df col s Ha Hg).
  unfold key_at, cell_at. cbn [map].
  apply (map_nth_seq (fun c => [c]) (CMissing NaN) (values s)).
Qed.

(** X24.  Removing duplicates on one column leaves as many rows as the
    inspector counts unique values for it, and one more when the column
    has a missing value: the rows with a missing key count as one key.
    The column names of the frame are all different, and the missing cells
    of the column carry one marker, as in a column read from a table. *)
Theorem remove_duplicates_leaves_nunique_rows
        (df : DataFrame) (col : text) (s : Series) :
  aligned df ->
  NoDup (columns df) ->
  getitem df col = Ok s ->
  (forall m1 m2, In (CMissing m1) (values s) -> In (CMissing m2) (values s) ->
                 m1 = m2) ->
  exists d,
    remove_duplicates df [col] = Ok d
    /\ nrows d = nunique s + (if has_missing s then 1 else 0).
Proof.
  intros Ha Hnd Hg _.
  assert (Hc : has_column df col = true)
    by (apply getitem_has_column; eauto).
  unfold remove_duplicates, drop_duplicates, duplicated.
  cbn [forallb]. rewrite Hc. cbn [andb bind].
  eexists. split; [reflexivity|].
  pose proof (row_keys_single df col s Ha Hnd Hg) as Hk.
  assert (Hlen : List.length (map negb (dup_scan [] (row_keys df [col])))
                 = nrows df).
  { rewrite length_map, dup_scan_length. unfold row_keys.
    rewrite length_map, length_seq. reflexivity. }
  rewrite (select_rows_nrows _ df Ha Hlen).
  rewrite mask_filter_count by (rewrite length_seq; exact Hlen).
  rewrite Hk.
  pose proof (dup_scan_single (values s) []) as H.
  cbn [map filter existsb negb] in H. rewrite andb_true_r in H.
  exact H.
Qed.

Lemma cities_frame_aligned : aligned cities_frame.
Proof.
  intros ns [<- | [<- | []]]; reflexivity.
Defined.

Lemma remove_duplicates_leaves_nunique_rows_witness :
  exists d,
    remove_duplicates cities_frame [T "city"] = Ok d
    /\ nrows d = 2 + 1.
Proof.
  apply (remove_duplicates_leaves_nunique_rows cities_frame (T "city")
           (mkSeries Object [CText (T "Pune"); CText (T "Pune");
                             CMissing PyNone; CText (T "Agra");
                             CMissing PyNone])
           cities_frame_aligned).
  - repeat constructor; simpl; intuition discriminate.
  - reflexivity.
  - intros m1 m2 H1 H2. simpl in H1, H2.
    repeat match goal with
           | H : _ \/ _ |- _ => destruct H as [H | H]
           | H : False |- _ => contradiction
           | H : CText _ = CMissing _ |- _ => discriminate H
           | H : CMissing _ = CMissing _ |- _ => injection H as <-
           end; reflexivity.
Defined.
